(** * Grokker: chunking, embedding batches, synchronisation, GC, loading

    A shallow embedding of the knowledge-base engine of grokker (package
    [grokker]): the chunker, the embedding batcher, the synchroniser, garbage
    collection, snapshot loading, model upgrades, ranking and context
    assembly of the root package's [grokker.go], and the cosine similarity
    of [v3/util.go], together with the properties the specification states
    about them.

    The parts [Further functions of the package] and [Further properties]
    cover more of the engine: creating a database, adding and forgetting
    documents, the two refresh loops, listing, the utilities of
    [v3/util.go] and the model table of the later version of the package,
    with properties read off the code.

    Conventions of the embedding:
    - a Go [string] is a byte sequence: Rocq's [string] (a list of
      [ascii]); [len] is the byte length as a [Z];
    - a Go [int] is a [Z].  Every integer the modelled code computes is a
      length of data held in memory, a sum of such lengths, or one of those
      plus or minus a small constant, so 64-bit wrap-around cannot occur and
      is not written out;
    - a [float64] is a primitive binary64 float;
    - a function that can fail returns an [outcome]: its result, a Go
      [error] value (returned, or raised by goadapt's [Ck] and turned into
      the returned error by a deferred [Return]), or a panic (a failed
      [Assert] or a run-time bounds check);
    - a method that assigns to its receiver returns the database next to
      its outcome; the embedding service is a [Client] that records the
      requests sent to it;
    - loops whose termination is not structural take fuel, and running out
      of it is the outcome [OutOfFuel].  The loops of the batcher are given
      enough fuel by their callers; the paragraph loop of the chunker ends
      for every [maxLen >= 2]. *)

From Stdlib Require Import ZArith Ascii String List Bool Lia Permutation.
From Stdlib Require Import Floats.
From stdpp Require Import base list strings gmap.

Open Scope string_scope.
Open Scope list_scope.
Open Scope Z_scope.

(** ** Outcomes of fallible code *)

(** The error values the modelled functions build. *)
Inductive error : Type :=
| ModelNotFound (model : string)           (* "model %q not found" *)
| CannotDowngrade (oldModel model : string) (* "cannot downgrade model from '%s' to '%s'" *)
| DocNotFound (relpath : string)           (* "not found: %s" *)
| IOError (what : string)                  (* an error of the os / filepath / json layer *)
| ProviderError (what : string).           (* an error of the embedding or chat service *)

(** What makes the goroutine panic. *)
Inductive panic : Type :=
| AssertionFailed (what : string)  (* goadapt's Assert on a false condition *)
| IndexOutOfRange                  (* s[i] with i outside 0..len(s)-1 *)
| SliceBounds                      (* s[lo:hi] with bounds outside 0..len(s) *)
| NilDereference.                  (* a field read through a nil pointer *)

Inductive outcome (A : Type) : Type :=
| Ok (a : A)
| Err (e : error)
| Panic (p : panic)
| OutOfFuel.

Arguments Ok {A} a.
Arguments Err {A} e.
Arguments Panic {A} p.
Arguments OutOfFuel {A}.

Definition bind {A B : Type} (m : outcome A) (k : A -> outcome B) : outcome B :=
  match m with
  | Ok a => k a
  | Err e => Err e
  | Panic p => Panic p
  | OutOfFuel => OutOfFuel
  end.

Notation "'let*' x ':=' m 'in' k" := (bind m (fun x => k))
  (at level 10, x pattern, m at level 100, k at level 200).

(** goadapt's [Assert(cond, ...)]. *)
Definition Assert (cond : bool) (what : string) : outcome unit :=
  if cond then Ok tt else Panic (AssertionFailed what).

(** ** Go strings and slices *)

Definition len (s : string) : Z := Z.of_nat (String.length s).

Definition slen {A : Type} (l : list A) : Z := Z.of_nat (List.length l).

Fixpoint str_take (n : nat) (s : string) : string :=
  match n, s with
  | S n', String c s' => String c (str_take n' s')
  | _, _ => EmptyString
  end.

Fixpoint str_drop (n : nat) (s : string) : string :=
  match n, s with
  | S n', String _ s' => str_drop n' s'
  | _, _ => s
  end.

(** [s[:hi]] *)
Definition slice_to (s : string) (hi : Z) : outcome string :=
  if (0 <=? hi) && (hi <=? len s) then Ok (str_take (Z.to_nat hi) s)
  else Panic SliceBounds.

(** [s[lo:]] *)
Definition slice_from (s : string) (lo : Z) : outcome string :=
  if (0 <=? lo) && (lo <=? len s) then Ok (str_drop (Z.to_nat lo) s)
  else Panic SliceBounds.

(** [l[i]] for a slice [l] and a Go [int] index. *)
Definition index {A : Type} (l : list A) (i : Z) : outcome A :=
  if i <? 0 then Panic IndexOutOfRange
  else match nth_error l (Z.to_nat i) with
       | Some a => Ok a
       | None => Panic IndexOutOfRange
       end.

(** [l[lo:hi]] for a slice [l]. *)
Definition slice {A : Type} (l : list A) (lo hi : Z) : outcome (list A) :=
  if (0 <=? lo) && (lo <=? hi) && (hi <=? slen l)
  then Ok (firstn (Z.to_nat (hi - lo)) (skipn (Z.to_nat lo) l))
  else Panic SliceBounds.

Definition newline : ascii := Ascii.ascii_of_nat 10.

(** The paragraph delimiter, two line feeds. *)
Definition blank_line : string := String newline (String newline EmptyString).

Fixpoint str_prefix (p s : string) : bool :=
  match p, s with
  | EmptyString, _ => true
  | String a p', String b s' => if Ascii.eqb a b then str_prefix p' s' else false
  | String _ _, EmptyString => false
  end.

(** [strings.Split(s, sep)] for a non-empty [sep]: the text is cut at each
    successive leftmost occurrence of [sep], occurrences do not overlap, and
    [n] occurrences give [n+1] pieces.  [skip] counts the bytes of an
    occurrence still to be passed over and [cur] is the piece being read. *)
Fixpoint split_from (sep : string) (skip : nat) (cur : string) (s : string) : list string :=
  match s with
  | EmptyString => [cur]
  | String c s' =>
      match skip with
      | S k => split_from sep k cur s'
      | O =>
          if str_prefix sep s
          then cur :: split_from sep (String.length sep - 1) EmptyString s'
          else split_from sep O (cur +:+ String c EmptyString) s'
      end
  end.

Definition Split (s sep : string) : list string := split_from sep O EmptyString s.

(** ** The chunker: [chunks] *)

(** The loop [for len(paragraph) > 0 { ... }] of [chunks], appending to [c].
    One unit of fuel is one iteration. *)
Fixpoint chunk_paragraph (fuel : nat) (maxLen : Z) (paragraph : string) (c : list string)
  : outcome (list string) :=
  if len paragraph >? 0 then
    match fuel with
    | O => OutOfFuel
    | S fuel' =>
        if len paragraph >=? maxLen then
          let split := maxLen - 1 in
          let* piece := slice_to paragraph split in
          let* rest := slice_from paragraph split in
          chunk_paragraph fuel' maxLen rest (c ++ [piece])
        else
          chunk_paragraph fuel' maxLen EmptyString (c ++ [paragraph])
    end
  else Ok c.

(** The loop over the paragraphs. *)
Fixpoint chunk_paragraphs (fuel : nat) (maxLen : Z) (paragraphs : list string) (c : list string)
  : outcome (list string) :=
  match paragraphs with
  | [] => Ok c
  | paragraph :: more =>
      let* c' := chunk_paragraph fuel maxLen paragraph c in
      chunk_paragraphs fuel maxLen more c'
  end.

(** [chunks(txt, maxLen)], each paragraph's loop given [fuel] iterations. *)
Definition chunks_fuel (fuel : nat) (txt : string) (maxLen : Z) : outcome (list string) :=
  chunk_paragraphs fuel maxLen (Split txt blank_line) [].

(** [chunks(txt, maxLen)]: no paragraph is longer than the text, and one
    iteration more than its length is enough whenever the loop makes progress. *)
Definition chunks (txt : string) (maxLen : Z) : outcome (list string) :=
  chunks_fuel (S (String.length txt)) txt maxLen.


(** ** float64 conversions *)

(** [float64(n)] for an [int] that fits 63 bits unsigned in magnitude. *)
Definition float64_of_int (n : Z) : float :=
  if n <? 0 then PrimFloat.opp (PrimFloat.of_uint63 (Uint63.of_Z (- n)))
  else PrimFloat.of_uint63 (Uint63.of_Z n).

(** [int(math.Floor(x))] for a finite [x]; not-a-number and the infinities,
    which the modelled code never converts, give 0. *)
Definition int_of_floor (x : float) : Z :=
  match Prim2SF x with
  | S754_finite sign m e =>
      if 0 <=? e then (if sign then - Z.shiftl (Z.pos m) e else Z.shiftl (Z.pos m) e)
      else if sign then - Z.shiftr (Z.pos m + Z.shiftl 1 (- e) - 1) (- e)
      else Z.shiftr (Z.pos m) (- e)
  | _ => 0
  end.

(** [int(x)]: truncation toward zero, same conventions. *)
Definition int_of_float (x : float) : Z :=
  match Prim2SF x with
  | S754_finite sign m e =>
      let mag := if 0 <=? e then Z.shiftl (Z.pos m) e else Z.shiftr (Z.pos m) (- e) in
      if sign then - mag else mag
  | _ => 0
  end.

(** ** The data model *)

Definition version : string := "1.0.0".

Record Model : Type := mkModel {
  Name : string;
  TokenLimit : Z;
  oaiModel : string;
  active : bool
}.

(** [Models.Available], a Go map from model name to [*Model]. *)
Record Models : Type := mkModels {
  Available : gmap string Model
}.

Record Document : Type := mkDocument {
  Path : string;     (* deprecated field *)
  RelPath : string   (* path of the file, relative to the root *)
}.

Definition Embedding : Type := list float.

(** A [Chunk].  Its [Document] field is a non-nil [*Document]; documents are
    never assigned to after they are built, so the pointer is modelled by
    the value it points to. *)
Record Chunk : Type := mkChunk {
  chunkDocument : Document;   (* field Document *)
  Text : string;
  chunkEmbedding : Embedding  (* field Embedding *)
}.

(** The [Grokker] database object, without its two network client handles.
    [models] is nil until [initModel] has run. *)
Record Grokker : Type := mkGrokker {
  Version : string;
  Root : string;
  Documents : list Document;
  Chunks : list Chunk;
  models : option Models;
  modelName : string;          (* field Model *)
  grokOaiModel : string;       (* field oaiModel *)
  maxChunkLen : Z;
  maxEmbeddingChunkLen : Z
}.

Definition set_Documents (g : Grokker) (docs : list Document) : Grokker :=
  mkGrokker (Version g) (Root g) docs (Chunks g) (models g) (modelName g)
            (grokOaiModel g) (maxChunkLen g) (maxEmbeddingChunkLen g).

Definition set_Chunks (g : Grokker) (cs : list Chunk) : Grokker :=
  mkGrokker (Version g) (Root g) (Documents g) cs (models g) (modelName g)
            (grokOaiModel g) (maxChunkLen g) (maxEmbeddingChunkLen g).

Definition set_Version (g : Grokker) (v : string) : Grokker :=
  mkGrokker v (Root g) (Documents g) (Chunks g) (models g) (modelName g)
            (grokOaiModel g) (maxChunkLen g) (maxEmbeddingChunkLen g).

Definition set_Root (g : Grokker) (r : string) : Grokker :=
  mkGrokker (Version g) r (Documents g) (Chunks g) (models g) (modelName g)
            (grokOaiModel g) (maxChunkLen g) (maxEmbeddingChunkLen g).

Definition set_models (g : Grokker) (ms : option Models) : Grokker :=
  mkGrokker (Version g) (Root g) (Documents g) (Chunks g) ms (modelName g)
            (grokOaiModel g) (maxChunkLen g) (maxEmbeddingChunkLen g).

(** ** The model table *)

(** The model identifiers of the go-openai client library. *)
Definition oai_GPT3Dot5Turbo : string := "gpt-3.5-turbo".
Definition oai_GPT4 : string := "gpt-4".
Definition oai_GPT432K : string := "gpt-4-32k".

Definition set_Name (k : string) (v : Model) : Model :=
  mkModel k (TokenLimit v) (oaiModel v) (active v).

Definition set_active (v : Model) (a : bool) : Model :=
  mkModel (Name v) (TokenLimit v) (oaiModel v) a.

(** [NewModels()]: the literal table, then the loop that fills in the names. *)
Definition NewModels : Models :=
  let literal : gmap string Model :=
    <["gpt-3.5-turbo" := mkModel EmptyString 4096 oai_GPT3Dot5Turbo false]>
    (<["gpt-4" := mkModel EmptyString 8192 oai_GPT4 false]>
    (<["gpt-4-32k" := mkModel EmptyString 32768 oai_GPT432K false]> ∅)) in
  mkModels (map_imap (fun k v => Some (set_Name k v)) literal).

Definition DefaultModel : string := "gpt-3.5-turbo".

(** [models.findModel(model)] *)
Definition findModel (ms : Models) (model : string) : outcome (string * Model) :=
  let model := if String.eqb model EmptyString then DefaultModel else model in
  match Available ms !! model with
  | None => Err (ModelNotFound model)
  | Some m => Ok (model, m)
  end.

(** [g.getModel()]; reading [g.models.Available] through a nil [g.models]
    panics. *)
Definition getModel (g : Grokker) : outcome (string * Model) :=
  match models g with
  | None => Panic NilDereference
  | Some ms => findModel ms (modelName g)
  end.

(** [charsPerToken := 3.1]: the binary64 value nearest to 3.1. *)
Definition charsPerToken : float := 0x1.8cccccccccccdp+1%float.

(** [int(math.Floor(float64(tokens) * charsPerToken))] *)
Definition chars_of_tokens (tokens : Z) : Z :=
  int_of_floor (PrimFloat.mul (float64_of_int tokens) charsPerToken).

(** [g.initModel(model)].  The method assigns to [g] as it goes, so the
    database is returned next to the outcome: a failure after
    [g.models = NewModels()] leaves that assignment in place. *)
Definition initModel (g : Grokker) (model : string) : outcome unit * Grokker :=
  match Assert (negb (String.eqb (Root g) EmptyString)) "root directory not set" with
  | Ok _ =>
      let g1 := set_models g (Some NewModels) in
      match findModel NewModels model with
      | Ok (model, m) =>
          let ms := mkModels (<[model := set_active m true]> (Available NewModels)) in
          (Ok tt,
           mkGrokker (Version g) (Root g) (Documents g) (Chunks g) (Some ms)
                     model (oaiModel m)
                     (chars_of_tokens (TokenLimit m)) (chars_of_tokens 8192))
      | Err e => (Err e, g1)
      | Panic p => (Panic p, g1)
      | OutOfFuel => (OutOfFuel, g1)
      end
  | Err e => (Err e, g)
  | Panic p => (Panic p, g)
  | OutOfFuel => (OutOfFuel, g)
  end.

(** [g.UpgradeModel(model)].  The result of the final [g.initModel(model)]
    is discarded by the source; only a panic of it gets through. *)
Definition UpgradeModel (g : Grokker) (model : string) : outcome unit * Grokker :=
  match models g with
  | None => (Panic NilDereference, g)
  | Some ms =>
      match findModel ms model with
      | Ok (model, m) =>
          match getModel g with
          | Ok (oldModel, oldM) =>
              if TokenLimit m <? TokenLimit oldM
              then (Err (CannotDowngrade oldModel model), g)
              else match initModel g model with
                   | (Panic p, g') => (Panic p, g')
                   | (_, g') => (Ok tt, g')
                   end
          | Err e => (Err e, g)
          | Panic p => (Panic p, g)
          | OutOfFuel => (OutOfFuel, g)
          end
      | Err e => (Err e, g)
      | Panic p => (Panic p, g)
      | OutOfFuel => (OutOfFuel, g)
      end
  end.

(** ** Loading a snapshot *)

(** How a call that may end the process comes back. *)
Inductive process (A : Type) : Type :=
| Returns (r : outcome A)
| Exits (code : Z) (stderr : string).

Arguments Returns {A} r.
Arguments Exits {A} code stderr.

(** The line [Load] writes to standard error before it exits. *)
Definition version_message (dbVersion : string) : string :=
  "grokker db was created with version " +:+ dbVersion +:+
  ", but you're running version " +:+ version +:+
  " -- try `grok migrate`" +:+ String newline EmptyString.

(** [Load(r, grokpath, migrate)].  [decoded] is what [ioutil.ReadAll] and
    [json.Unmarshal] make of the reader (the exported fields of the
    snapshot, or their error) and [absdir] is
    [filepath.Abs(filepath.Dir(grokpath))]. *)
Definition Load (decoded : outcome Grokker) (absdir : outcome string) (migrate : bool)
  : process Grokker :=
  match decoded with
  | Ok g0 =>
      match absdir with
      | Ok root =>
          let g := set_Root g0 root in
          let g := if String.eqb (Version g) EmptyString then set_Version g "0.1.0" else g in
          if migrate then Returns (Ok g)
          else if negb (String.eqb (Version g) version)
               then Exits 1 (version_message (Version g))
               else match initModel g (modelName g) with
                    | (Ok _, g') => Returns (Ok g')
                    | (Err e, _) => Returns (Err e)
                    | (Panic p, _) => Returns (Panic p)
                    | (OutOfFuel, _) => Returns OutOfFuel
                    end
      | Err e => Returns (Err e)
      | Panic p => Returns (Panic p)
      | OutOfFuel => Returns OutOfFuel
      end
  | Err e => Returns (Err e)
  | Panic p => Returns (Panic p)
  | OutOfFuel => Returns OutOfFuel
  end.

(** ** The operating system, as the engine sees it *)

(** The file-system functions the modelled code calls.  None of the
    modelled functions writes a file, so one value of this record stands
    for the file system during a call. *)
Record OS : Type := mkOS {
  filepath_Abs : string -> outcome string;       (* filepath.Abs *)
  filepath_Join : string -> string -> string;    (* filepath.Join of two parts *)
  ReadFile : string -> outcome string            (* ioutil.ReadFile *)
}.

(** [g.AbsPath(doc)] *)
Definition AbsPath (os : OS) (g : Grokker) (doc : Document) : string :=
  filepath_Join os (Root g) (RelPath doc).

(** ** Forgetting a document and collecting garbage *)

(** The loop of [ForgetDocument] over [g.Documents]: [before] are the
    documents already passed, [rest] those from index [i] on.  On the first
    match, [append(g.Documents[:i], g.Documents[i+1:]...)]. *)
Fixpoint forget_loop (os : OS) (g : Grokker) (path : string)
  (before rest : list Document) : outcome (list Document) :=
  match rest with
  | [] => Ok before
  | d :: rest' =>
      let match_ := String.eqb (RelPath d) path in
      let* relpath := filepath_Abs os path in
      let match_ := if String.eqb (AbsPath os g d) relpath then true else match_ in
      if match_ then Ok (before ++ rest')
      else forget_loop os g path (before ++ [d]) rest'
  end.

(** [g.ForgetDocument(path)] *)
Definition ForgetDocument (os : OS) (g : Grokker) (path : string) : outcome unit * Grokker :=
  match forget_loop os g path [] (Documents g) with
  | Ok docs => (Ok tt, set_Documents g docs)
  | Err e => (Err e, g)
  | Panic p => (Panic p, g)
  | OutOfFuel => (OutOfFuel, g)
  end.

(** The inner loop of [GC]: is the chunk's document in the list? *)
Fixpoint referenced (docs : list Document) (chunk : Chunk) : bool :=
  match docs with
  | [] => false
  | doc :: docs' =>
      if String.eqb (RelPath doc) (RelPath (chunkDocument chunk)) then true
      else referenced docs' chunk
  end.

(** The outer loop of [GC], appending to [newChunks]. *)
Fixpoint gc_loop (docs : list Document) (chunks : list Chunk) (newChunks : list Chunk)
  : list Chunk :=
  match chunks with
  | [] => newChunks
  | chunk :: rest =>
      gc_loop docs rest (if referenced docs chunk then newChunks ++ [chunk] else newChunks)
  end.

(** [g.GC()]; it cannot fail. *)
Definition GC (g : Grokker) : Grokker :=
  set_Chunks g (gc_loop (Documents g) (Chunks g) []).

(** The count [GC] logs: [oldLen - newLen]. *)
Definition GC_collected (g : Grokker) : Z :=
  slen (Chunks g) - slen (Chunks (GC g)).

(** ** The embedding batcher: [CreateEmbeddings] *)

(** The embedding service behind [g.embeddingClient].  A reply may depend
    on everything sent before; [sent] is the list of requests issued so
    far, oldest first.  A reply is the service's error or [res.Data], the
    embeddings it returns. *)
Inductive reply : Type :=
| Data (embeddings : list Embedding)
| Failed (e : error).

Record Client : Type := mkClient {
  respond : list (list string) -> list string -> reply;
  sent : list (list string)
}.

(** [c.CreateEmbeddings(ctx, req)] with [req.Input = inputs], followed by
    [Ck(err)]. *)
Definition request (c : Client) (inputs : list string) : outcome (list Embedding) * Client :=
  (match respond c (sent c) inputs with
   | Data embeddings => Ok embeddings
   | Failed e => Err e
   end,
   mkClient (respond c) (sent c ++ [inputs])).

(** The inner [for { ... }] of [CreateEmbeddings]: from [j] and [totalLen]
    to the values they have at its [break]. *)
Fixpoint pack (fuel : nat) (limit : Z) (texts : list string) (j totalLen : Z)
  : outcome (Z * Z) :=
  match fuel with
  | O => OutOfFuel
  | S fuel' =>
      let* text := index texts j in
      let nextLen := len text in
      let* _ := Assert (nextLen >? 0) "nextLen > 0" in
      let* _ := Assert (nextLen <=? limit) "nextLen <= maxEmbeddingChunkLen" in
      if totalLen + nextLen >=? limit then Ok (j - 1, totalLen)
      else
        let totalLen := totalLen + nextLen in
        if j =? slen texts - 1 then Ok (j, totalLen)
        else pack fuel' limit texts (j + 1) totalLen
  end.

(** The double check of a batch: no text too long, then the total. *)
Fixpoint recheck (limit : Z) (inputs : list string) (totalLen : Z) : outcome Z :=
  match inputs with
  | [] => Ok totalLen
  | text :: more =>
      let totalLen := totalLen + len text in
      let* _ := Assert (len text <=? limit) "text too long" in
      recheck limit more totalLen
  end.

(** One turn of the outer loop up to the request: the index [j] of the last
    text of the batch that starts at [i], and the batch [texts[i:j+1]]. *)
Definition next_batch (limit : Z) (texts : list string) (i : Z) : outcome (Z * list string) :=
  let* packed := pack (S (List.length texts)) limit texts i 0 in
  let j := fst packed in
  let totalLen := snd packed in
  let* _ := Assert (j >=? i) "j >= i" in
  let* _ := Assert (totalLen >? 0) "totalLen > 0" in
  let* inputs := slice texts i (j + 1) in
  let* totalLen := recheck limit inputs 0 in
  let* _ := Assert (totalLen <=? limit) "totalLen <= maxEmbeddingChunkLen" in
  Ok (j, inputs).

(** The outer loop [for i := 0; i < len(texts); { ... }]. *)
Fixpoint batch_loop (fuel : nat) (limit : Z) (c : Client) (texts : list string)
  (i : Z) (embeddings : list Embedding) : outcome (list Embedding) * Client :=
  if i <? slen texts then
    match fuel with
    | O => (OutOfFuel, c)
    | S fuel' =>
        match next_batch limit texts i with
        | Ok (j, inputs) =>
            match request c inputs with
            | (Ok data, c') => batch_loop fuel' limit c' texts (j + 1) (embeddings ++ data)
            | (Err e, c') => (Err e, c')
            | (Panic p, c') => (Panic p, c')
            | (OutOfFuel, c') => (OutOfFuel, c')
            end
        | Err e => (Err e, c)
        | Panic p => (Panic p, c)
        | OutOfFuel => (OutOfFuel, c)
        end
    end
  else (Ok embeddings, c).

(** [g.CreateEmbeddings(texts)] with [limit = g.maxEmbeddingChunkLen].  The
    function has no deferred [Return]: an error of the service leaves it
    through [Ck] as [Err], a failed [Assert] as [Panic]. *)
Definition CreateEmbeddings (limit : Z) (c : Client) (texts : list string)
  : outcome (list Embedding) * Client :=
  if slen texts =? 0 then (Ok [], c)
  else
    match batch_loop (List.length texts) limit c texts 0 [] with
    | (Ok embeddings, c') =>
        (let* _ := Assert (slen embeddings =? slen texts) "len(embeddings) == len(texts)" in
         Ok embeddings, c')
    | other => other
    end.

(** ** The synchroniser: [UpdateDocument] *)

(** [g.chunkStrings(doc)] *)
Definition chunkStrings (os : OS) (g : Grokker) (doc : Document) : outcome (list string) :=
  let* buf := ReadFile os (AbsPath os g doc) in
  chunks buf (maxEmbeddingChunkLen g).

(** The existing chunks of the document, in database order. *)
Fixpoint existing_chunks (doc : Document) (chunks : list Chunk) : list Chunk :=
  match chunks with
  | [] => []
  | chunk :: rest =>
      if String.eqb (RelPath (chunkDocument chunk)) (RelPath doc)
      then chunk :: existing_chunks doc rest
      else existing_chunks doc rest
  end.

(** The search of [oldChunks] for [chunkString].  The source finds the
    first [oldChunk] with that text and then removes the first element
    that is the same pointer.  An element that is the same pointer has the
    same text, so it is not before the one found, and the one found is
    itself such an element: the element removed is the one found.  The
    result is the list without it, or [None] when no text matches. *)
Fixpoint take_match (chunkString : string) (oldChunks : list Chunk) : option (list Chunk) :=
  match oldChunks with
  | [] => None
  | oldChunk :: rest =>
      if String.eqb (Text oldChunk) chunkString then Some rest
      else match take_match chunkString rest with
           | Some rest' => Some (oldChunk :: rest')
           | None => None
           end
  end.

(** The loop over [chunkStrings]: [updated], [newChunkStrings] and the
    [oldChunks] left over. *)
Fixpoint diff_loop (chunkStrings : list string) (oldChunks : list Chunk)
  (updated : bool) (newChunkStrings : list string) : bool * list string * list Chunk :=
  match chunkStrings with
  | [] => (updated, newChunkStrings, oldChunks)
  | chunkString :: more =>
      match take_match chunkString oldChunks with
      | Some oldChunks' => diff_loop more oldChunks' updated newChunkStrings
      | None => diff_loop more oldChunks true (newChunkStrings ++ [chunkString])
      end
  end.

(** The final loop: one new chunk per new text, with [embeddings[i]]. *)
Fixpoint append_chunks (doc : Document) (newChunkStrings : list string)
  (embeddings : list Embedding) (i : Z) (chunks : list Chunk) : outcome (list Chunk) :=
  match newChunkStrings with
  | [] => Ok chunks
  | text :: more =>
      let* embedding := index embeddings i in
      append_chunks doc more embeddings (i + 1) (chunks ++ [mkChunk doc text embedding])
  end.

(** [g.UpdateDocument(doc)].  Its deferred [Return] turns an error raised
    by [Ck] into the returned [err]; the results of a call that returns an
    error are not used by any caller, so [updated] is kept only for [Ok].
    [g.Chunks] is assigned only in the final loop. *)
Definition UpdateDocument (os : OS) (c : Client) (g : Grokker) (doc : Document)
  : outcome bool * Grokker * Client :=
  match chunkStrings os g doc with
  | Ok strings =>
      let oldChunks := existing_chunks doc (Chunks g) in
      let '(updated, newChunkStrings, _) := diff_loop strings oldChunks false [] in
      match CreateEmbeddings (maxEmbeddingChunkLen g) c newChunkStrings with
      | (Ok embeddings, c') =>
          match append_chunks doc newChunkStrings embeddings 0 (Chunks g) with
          | Ok chunks' => (Ok updated, set_Chunks g chunks', c')
          | Err e => (Err e, g, c')
          | Panic p => (Panic p, g, c')
          | OutOfFuel => (OutOfFuel, g, c')
          end
      | (Err e, c') => (Err e, g, c')
      | (Panic p, c') => (Panic p, g, c')
      | (OutOfFuel, c') => (OutOfFuel, g, c')
      end
  | Err e => (Err e, g, c)
  | Panic p => (Panic p, g, c)
  | OutOfFuel => (OutOfFuel, g, c)
  end.

(** ** The similarity engine *)

(** The loop [for i := range a] shared by both cosine functions: [a[i]] is
    always in range, [b[i]] is bounds-checked.  [rest] is [a[i:]]. *)
Fixpoint cosine_sums (rest b : list float) (i : Z) (dot magA magB : float)
  : outcome (float * float * float) :=
  match rest with
  | [] => Ok (dot, magA, magB)
  | ai :: rest' =>
      let* bi := index b i in
      cosine_sums rest' b (i + 1)
        (PrimFloat.add dot (PrimFloat.mul ai bi))
        (PrimFloat.add magA (PrimFloat.mul ai ai))
        (PrimFloat.add magB (PrimFloat.mul bi bi))
  end.

Definition cosine (a b : list float) : outcome float :=
  let* sums := cosine_sums a b 0 0%float 0%float 0%float in
  let dot := fst (fst sums) in
  let magA := snd (fst sums) in
  let magB := snd sums in
  Ok (PrimFloat.div dot (PrimFloat.mul (PrimFloat.sqrt magA) (PrimFloat.sqrt magB))).

(** [Similarity(a, b)] of the root package's [grokker.go], the function
    [SimilarChunks] calls. *)
Definition Similarity (a b : list float) : outcome float := cosine a b.

(** [similarity(a, b)] of [v3/util.go]. *)
Definition similarity (a b : list float) : outcome float :=
  if negb (slen a =? slen b) then Ok 0%float
  else cosine a b.

(** The local type [Sim] of [SimilarChunks]. *)
Record Sim : Type := mkSim {
  chunk : Chunk;
  score : float
}.

(** The scoring loop of [SimilarChunks]. *)
Fixpoint score_chunks (embedding : list float) (chunks : list Chunk) (sims : list Sim)
  : outcome (list Sim) :=
  match chunks with
  | [] => Ok sims
  | chunk :: rest =>
      let* score := Similarity embedding (chunkEmbedding chunk) in
      score_chunks embedding rest (sims ++ [mkSim chunk score])
  end.

(** The last loop of [SimilarChunks]: [for i := 0; i < K && i < len(sims); i++]. *)
Definition top_chunks (sims : list Sim) (K : Z) : list Chunk :=
  let K := if K =? 0 then slen sims else K in
  map chunk (firstn (Z.to_nat K) sims).

(** [g.SimilarChunks(embedding, K)].  [sort_Slice] is what
    [sort.Slice(sims, func(i, j) { return sims[i].score > sims[j].score })]
    leaves in [sims]: the library does not fix the order of equal scores. *)
Definition SimilarChunks (sort_Slice : list Sim -> list Sim) (g : Grokker)
  (embedding : list float) (K : Z) : outcome (list Chunk) :=
  let* sims := score_chunks embedding (Chunks g) [] in
  Ok (top_chunks (sort_Slice sims) K).


(** ** The context assembler: the loop of [Answer] *)

Definition promptTmpl : string :=
  "{{.Question}}" +:+ String newline (String newline EmptyString) +:+
  "Context:" +:+ String newline EmptyString +:+ "{{.Context}}".

(** [Spf("%s:\n\n%s\n\n", chunk.Document.RelPath, chunk.Text)] *)
Definition context_block (chunk : Chunk) : string :=
  RelPath (chunkDocument chunk) +:+ ":" +:+ blank_line +:+ Text chunk +:+ blank_line.

(** [maxSize := int(float64(g.maxChunkLen)*0.5) - len(question)] *)
Definition Answer_maxSize (g : Grokker) (question : string) : Z :=
  int_of_float (PrimFloat.mul (float64_of_int (maxChunkLen g)) 0.5%float) - len question.

(** The loop of [Answer] that builds [context] from the ranked chunks. *)
Fixpoint Answer_context (chunks : list Chunk) (maxSize : Z) (context : string) : string :=
  match chunks with
  | [] => context
  | chunk :: rest =>
      let context := context +:+ context_block chunk in
      if len context + len promptTmpl >? maxSize then context
      else Answer_context rest maxSize context
  end.

(** ** Shapes used in the statements *)

(** [sliced k p ps]: [ps] cuts the paragraph [p] into consecutive pieces
    without overlap, every piece but the last of exactly [k] bytes and the
    last of 1 to [k] bytes; an empty paragraph gives no piece. *)
Inductive sliced (k : nat) : string -> list string -> Prop :=
| sliced_none : sliced k EmptyString []
| sliced_whole (p : string) :
    (0 < String.length p <= k)%nat -> sliced k p [p]
| sliced_cut (piece rest : string) (ps : list string) :
    String.length piece = k -> (0 < String.length rest)%nat ->
    sliced k rest ps -> sliced k (piece +:+ rest) (piece :: ps).

(** [strings.Join(l, sep)] *)
Fixpoint Join (l : list string) (sep : string) : string :=
  match l with
  | [] => EmptyString
  | [s] => s
  | s :: more => s +:+ sep +:+ Join more sep
  end.

(** The chunker as the specification words it: a paragraph longer than
    [maxLen] is cut into pieces of exactly [maxLen] bytes and a shorter
    remainder, any other paragraph is kept whole. *)
Definition chunks_as_specified (txt : string) (maxLen : Z) : Prop :=
  exists pieces : list (list string),
    chunks txt maxLen = Ok (concat pieces) /\
    Forall2 (sliced (Z.to_nat maxLen)) (Split txt blank_line) pieces.

(** ** Auxiliary notions and sample values of the statements *)

(** The texts the batcher can place: not empty and shorter than the limit. *)
Definition placeable (limit : Z) (text : string) : Prop := 0 < len text < limit.

Fixpoint total_len (l : list string) : Z :=
  match l with
  | [] => 0
  | text :: more => len text + total_len more
  end.


Definition asserts_or_ok {A : Type} (r : outcome A) : Prop :=
  match r with
  | Ok _ => True
  | Panic (AssertionFailed _) => True
  | _ => False
  end.

(** The longest run of leading texts whose lengths, added to [total], stay
    below the limit. *)
Fixpoint batch_prefix (limit total : Z) (rest : list string) : list string :=
  match rest with
  | [] => []
  | text :: rest' =>
      if total + len text >=? limit then []
      else text :: batch_prefix limit (total + len text) rest'
  end.

(** Run after run, until no text is left. *)
Fixpoint greedy (fuel : nat) (limit : Z) (rest : list string) : list (list string) :=
  match fuel with
  | O => []
  | S fuel' =>
      match rest with
      | [] => []
      | _ :: _ =>
          let b := batch_prefix limit 0 rest in
          b :: greedy fuel' limit (skipn (List.length b) rest)
      end
  end.

(** A request is within the provider's limit when its total length is
    strictly below it. *)
Definition within_limit (limit : Z) (batch : list string) : Prop := total_len batch < limit.

(** A service that replies, for each text, the one-number embedding made of
    its length; used to run the batcher on concrete inputs. *)
Definition length_embedding (text : string) : Embedding := [float64_of_int (len text)].

Definition length_service : Client :=
  mkClient (fun _ inputs => Data (map length_embedding inputs)) [].

Fixpoint str_repeat (a : ascii) (n : nat) : string :=
  match n with
  | O => EmptyString
  | S n' => String a (str_repeat a n')
  end.

(** The batcher as the specification words it, for texts within the
    per-item limit and a service [embed] that replies one embedding per
    text: every text gets its embedding, in order, every request is within
    the limit, and no grouping of the texts into requests within the limit
    has fewer requests. *)
Definition batcher_as_specified (limit : Z) (embed : string -> Embedding) (c : Client)
  (texts : list string) : Prop :=
  exists batches : list (list string),
    CreateEmbeddings limit c texts =
      (Ok (map embed texts), mkClient (respond c) (sent c ++ batches)) /\
    Forall (within_limit limit) batches /\
    forall other : list (list string),
      Permutation (concat other) texts -> Forall (within_limit limit) other ->
      (List.length batches <= List.length other)%nat.

(** A database set up for the default model, gpt-3.5-turbo, and a chunk of
    7000 bytes, less than a third of the longest chunk the chunker makes. *)
Definition default_db : Grokker :=
  snd (initModel (mkGrokker version "/kb" [] [] None EmptyString EmptyString 0 0) EmptyString).

Definition long_chunk : Chunk :=
  mkChunk (mkDocument EmptyString "notes.txt") (str_repeat "x" (Z.to_nat 7000)) [].

(** Whether [ForgetDocument(path)] takes the document for the one to
    forget: its relative path is [path], or its absolute path is [abs], the
    absolute form of [path]. *)
Definition matches_path (os : OS) (g : Grokker) (path abs : string) (d : Document) : Prop :=
  RelPath d = path \/ AbsPath os g d = abs.

(** A file system for examples: the knowledge base lives in /kb, which is
    also the working directory, and [a.txt] holds two paragraphs. *)
Definition example_os : OS :=
  mkOS (fun path => Ok ("/kb/" +:+ path))
       (fun root rel => root +:+ "/" +:+ rel)
       (fun path => if String.eqb path "/kb/a.txt"
                    then Ok ("X" +:+ blank_line +:+ "Y")
                    else Err (IOError "no such file")).

Definition doc_a : Document := mkDocument EmptyString "a.txt".
Definition doc_b : Document := mkDocument EmptyString "b.txt".

Definition example_db : Grokker :=
  mkGrokker version "/kb" [doc_a; doc_b]
    [mkChunk doc_a "A1" [1%float]; mkChunk doc_b "B1" [2%float];
     mkChunk doc_a "A2" [3%float]]
    None EmptyString EmptyString 0 10.

(** The version a snapshot counts as: its version tag, or the oldest
    version, 0.1.0, when it has none. *)
Definition snapshot_version (tag v : string) : Prop :=
  (tag = EmptyString /\ v = "0.1.0") \/ (tag <> EmptyString /\ v = tag).

(** The model the table of [g] marks active. *)
Definition is_active (g : Grokker) (name : string) : Prop :=
  exists (ms : Models) (m : Model),
    models g = Some ms /\ Available ms !! name = Some m /\ active m = true.

(** What [initModel] leaves in [g] when it succeeds. *)
Definition initialised (g0 : Grokker) (name : string) (m : Model) : Grokker :=
  mkGrokker (Version g0) (Root g0) (Documents g0) (Chunks g0)
    (Some (mkModels (<[name := set_active m true]> (Available NewModels))))
    name (oaiModel m) (chars_of_tokens (TokenLimit m)) (chars_of_tokens 8192).

(** A database switched to gpt-4. *)
Definition gpt4_db : Grokker :=
  initialised default_db "gpt-4" (mkModel "gpt-4" 8192 "gpt-4" false).

(** The scenario of a document [a.txt] with the paragraphs X and Y, of which
    X is already stored: the first call embeds Y only, the second nothing. *)
Definition sync_db : Grokker :=
  mkGrokker version "/kb" [doc_a; doc_b]
    [mkChunk doc_a "X" [7%float]; mkChunk doc_b "B1" [2%float]]
    None EmptyString EmptyString 0 10.

Definition sync_db_after : Grokker :=
  set_Chunks sync_db (Chunks sync_db ++ [mkChunk doc_a "Y" [1%float]]).

Definition sync_client_after : Client :=
  mkClient (respond length_service) [["Y"]].

(** * Further functions of the package *)

(** ** Utilities of [v3/util.go] *)

(** [stringInSlice(str, list)] *)
Fixpoint stringInSlice (str : string) (list : list string) : bool :=
  match list with
  | [] => false
  | v :: rest => if String.eqb v str then true else stringInSlice str rest
  end.

(** The inner loop of [meanVector]: [sum += vectors[i][dim]] for every
    vector, [vectors[i][dim]] bounds-checked. *)
Fixpoint column_sum (vectors : list (list float)) (dim : Z) (sum : float) : outcome float :=
  match vectors with
  | [] => Ok sum
  | v :: rest =>
      let* x := index v dim in
      column_sum rest dim (PrimFloat.add sum x)
  end.

(** The loop [for dim := 0; dim < size; dim++] of [meanVector], which
    assigns [mean[dim]]; [all] is the whole of [vectors]. *)
Fixpoint mean_loop (fuel : nat) (all : list (list float)) (size dim : Z) (mean : list float)
  : outcome (list float) :=
  if dim <? size then
    match fuel with
    | O => OutOfFuel
    | S fuel' =>
        let* sum := column_sum all dim 0%float in
        mean_loop fuel' all size (dim + 1)
          (<[Z.to_nat dim := PrimFloat.div sum (float64_of_int (slen all))]> mean)
    end
  else Ok mean.

(** [meanVector(vectors)]; [make([]float64, size)] is [size] zeros. *)
Definition meanVector (vectors : list (list float)) : outcome (list float) :=
  match vectors with
  | [] => Ok []
  | first :: _ =>
      let size := slen first in
      mean_loop (Z.to_nat size) vectors size 0 (repeat 0%float (Z.to_nat size))
  end.

(** What [Ext2Lang] returns: the language and whether it is a known one, or
    the error "file %s missing language or extension". *)
Inductive language : Type :=
| Language (lang : string) (known : bool)
| NoExtension (fn : string).

(** The [switch] of [Ext2Lang]. *)
Definition language_of_extension (lang : string) : language :=
  if String.eqb lang "md" then Language "markdown" true
  else if String.eqb lang "py" then Language "python" true
  else if String.eqb lang "rb" then Language "ruby" true
  else if String.eqb lang "rs" then Language "rust" true
  else if String.eqb lang "go" then Language "go" true
  else Language lang false.

(** [Ext2Lang(fn)]; [parts[len(parts)-1]] is in range, [parts] having two
    elements at least. *)
Definition Ext2Lang (fn : string) : language :=
  let parts := Split fn "." in
  if slen parts <? 2 then NoExtension fn
  else language_of_extension (List.last parts EmptyString).

(** Whether a string has no dot. *)
Fixpoint dotless (s : string) : bool :=
  match s with
  | EmptyString => true
  | String c s' => negb (Ascii.eqb c ".") && dotless s'
  end.

(** A snapshot of the running version for gpt-4, as decoded, and the
    database [Load] makes of it for a snapshot file in /kb. *)
Definition stored_db : Grokker :=
  mkGrokker version "/elsewhere" [doc_a] [mkChunk doc_a "A1" [1%float]]
    None "gpt-4" EmptyString 0 0.

Definition loaded_db : Grokker :=
  initialised (set_Root stored_db "/kb") "gpt-4" (mkModel "gpt-4" 8192 "gpt-4" false).

(** ** Adding a document and refreshing the database *)

(** What [os.Stat(path)] tells the engine: the file's modification time,
    an error [e] for which [os.IsNotExist(e)] holds, or another error. *)
Inductive stat : Type :=
| FileInfo (ModTime : Z)
| NotExist (e : error)
| StatError (e : error).

(** The file system with the two further functions [AddDocument] and the
    refresh loops call.  [filepath_Rel] is the path [filepath.Rel] returns;
    its error is overwritten before it is read, and the path is empty then. *)
Record FileSystem : Type := mkFileSystem {
  fs_os : OS;
  filepath_Rel : string -> string -> string;   (* filepath.Rel(basepath, targpath) *)
  os_Stat : string -> stat                     (* os.Stat *)
}.

(** The search of [AddDocument] for a document with the same relative path. *)
Fixpoint found_loop (docs : list Document) (doc : Document) : bool :=
  match docs with
  | [] => false
  | d :: rest => if String.eqb (RelPath d) (RelPath doc) then true else found_loop rest doc
  end.

(** [g.AddDocument(path)].  The document is appended before
    [UpdateDocument] runs, so it stays in the list when that call fails. *)
Definition AddDocument (fs : FileSystem) (c : Client) (g : Grokker) (path : string)
  : outcome unit * Grokker * Client :=
  match filepath_Abs (fs_os fs) path with
  | Ok absPath =>
      let relpath := filepath_Rel fs (Root g) absPath in
      let doc := mkDocument EmptyString relpath in
      match os_Stat fs (AbsPath (fs_os fs) g doc) with
      | NotExist _ => (Err (DocNotFound (RelPath doc)), g, c)
      | StatError e => (Err e, g, c)
      | FileInfo _ =>
          let found := found_loop (Documents g) doc in
          let g := if negb found then set_Documents g (Documents g ++ [doc]) else g in
          match UpdateDocument (fs_os fs) c g doc with
          | (Ok _, g', c') => (Ok tt, g', c')
          | (Err e, g', c') => (Err e, g', c')
          | (Panic p, g', c') => (Panic p, g', c')
          | (OutOfFuel, g', c') => (OutOfFuel, g', c')
          end
      end
  | Err e => (Err e, g, c)
  | Panic p => (Panic p, g, c)
  | OutOfFuel => (OutOfFuel, g, c)
  end.

(** [New(rootdir, model)], without the two client handles. *)
Definition New (fs : FileSystem) (rootdir model : string) : outcome Grokker :=
  let* rootdir := filepath_Abs (fs_os fs) rootdir in
  match os_Stat fs rootdir with
  | FileInfo _ =>
      let g := mkGrokker version rootdir [] [] None EmptyString EmptyString 0 0 in
      match initModel g model with
      | (Ok _, g') => Ok g'
      | (Err e, _) => Err e
      | (Panic p, _) => Panic p
      | (OutOfFuel, _) => OutOfFuel
      end
  | NotExist e => Err e
  | StatError e => Err e
  end.

(** What [Save] writes and [json.Unmarshal] reads back in [Load]: the
    exported fields [Version], [Root], [Documents], [Chunks] and [Model];
    the unexported fields are not encoded and are zero after decoding. *)
Definition exported (g : Grokker) : Grokker :=
  mkGrokker (Version g) (Root g) (Documents g) (Chunks g) None (modelName g)
            EmptyString 0 0.

(** The loops of [UpdateEmbeddings] and [RefreshEmbeddings] range over
    [g.Documents] as it is when the loop starts: the slice header is read
    once, so the loop runs once for each index of that length and reads the
    element from the array behind the slice, [backing].  [ForgetDocument]
    removes in place, [append(g.Documents[:i], g.Documents[i+1:]...)]: the
    documents after the one removed move down one place in the same array
    and the places from the new length on keep what they held.  So
    [g.Documents] stays a prefix of the array, and after a removal the array
    is the new [g.Documents] followed by its old tail. *)
Definition after_forget (backing : list Document) (g' : Grokker) : list Document :=
  Documents g' ++ skipn (List.length (Documents g')) backing.

(** The loop of [UpdateEmbeddings]; [n] iterations are left, [i] is the
    index.  [lastUpdate] and the modification times are instants on one
    clock, [After] is [>].  The array keeps its length, so the index is
    always in range. *)
Fixpoint update_loop (n : nat) (fs : FileSystem) (lastUpdate : Z) (i : nat)
  (backing : list Document) (c : Client) (g : Grokker) (update : bool)
  : outcome bool * Grokker * Client :=
  match n with
  | O => (Ok update, g, c)
  | S n' =>
      match nth_error backing i with
      | None => (Panic IndexOutOfRange, g, c)
      | Some doc =>
          match os_Stat fs (AbsPath (fs_os fs) g doc) with
          | NotExist _ =>
              let g' := snd (ForgetDocument (fs_os fs) g (AbsPath (fs_os fs) g doc)) in
              update_loop n' fs lastUpdate (S i) (after_forget backing g') c g' true
          | StatError e => (Err e, g, c)
          | FileInfo ModTime =>
              if ModTime >? lastUpdate then
                match UpdateDocument (fs_os fs) c g doc with
                | (Ok updated, g', c') =>
                    update_loop n' fs lastUpdate (S i) backing c' g' (update || updated)
                | (Err e, g', c') => (Err e, g', c')
                | (Panic p, g', c') => (Panic p, g', c')
                | (OutOfFuel, g', c') => (OutOfFuel, g', c')
                end
              else update_loop n' fs lastUpdate (S i) backing c g update
          end
      end
  end.

(** [g.UpdateEmbeddings(lastUpdate)]; [GC] runs when the loop has ended
    without an error. *)
Definition UpdateEmbeddings (fs : FileSystem) (c : Client) (g : Grokker) (lastUpdate : Z)
  : outcome bool * Grokker * Client :=
  match update_loop (List.length (Documents g)) fs lastUpdate 0 (Documents g) c g false with
  | (Ok update, g', c') => (Ok update, GC g', c')
  | other => other
  end.

(** The loop of [RefreshEmbeddings].  Only a missing file is looked for: any
    other result of [os.Stat] goes on to [UpdateDocument]. *)
Fixpoint refresh_loop (n : nat) (fs : FileSystem) (i : nat) (backing : list Document)
  (c : Client) (g : Grokker) : outcome unit * Grokker * Client :=
  match n with
  | O => (Ok tt, g, c)
  | S n' =>
      match nth_error backing i with
      | None => (Panic IndexOutOfRange, g, c)
      | Some doc =>
          match os_Stat fs (AbsPath (fs_os fs) g doc) with
          | NotExist _ =>
              let g' := snd (ForgetDocument (fs_os fs) g (RelPath doc)) in
              refresh_loop n' fs (S i) (after_forget backing g') c g'
          | _ =>
              match UpdateDocument (fs_os fs) c g doc with
              | (Ok _, g', c') => refresh_loop n' fs (S i) backing c' g'
              | (Err e, g', c') => (Err e, g', c')
              | (Panic p, g', c') => (Panic p, g', c')
              | (OutOfFuel, g', c') => (OutOfFuel, g', c')
              end
          end
      end
  end.

(** [g.RefreshEmbeddings()] *)
Definition RefreshEmbeddings (fs : FileSystem) (c : Client) (g : Grokker)
  : outcome unit * Grokker * Client :=
  match refresh_loop (List.length (Documents g)) fs 0 (Documents g) c g with
  | (Ok _, g', c') => (Ok tt, GC g', c')
  | other => other
  end.

(** The chunk strings of the document's file are, each as often as it
    occurs, among the texts of the document's stored chunks. *)
Definition covered (os : OS) (g : Grokker) (doc : Document) : Prop :=
  exists strings stale : list string,
    chunkStrings os g doc = Ok strings /\
    Permutation (map Text (existing_chunks doc (Chunks g))) (strings ++ stale).

(** [g.ListDocuments()] *)
Definition ListDocuments (g : Grokker) : list string :=
  map (fun doc => if String.eqb (Version g) "1.0.0" then RelPath doc else Path doc)
      (Documents g).

(** A file system in which [a.txt] exists under /kb, for examples. *)
Definition example_fs : FileSystem :=
  mkFileSystem example_os
    (fun basepath targpath => str_drop (String.length basepath + 1) targpath)
    (fun path => if String.eqb path "/kb/a.txt" then FileInfo 5
                 else NotExist (IOError "no such file or directory")).

(** The same with a [filepath.Abs] that leaves an absolute path as it is. *)
Definition abs_fs : FileSystem :=
  mkFileSystem
    (mkOS (fun path => Ok (if str_prefix "/" path then path else "/kb/" +:+ path))
          (filepath_Join example_os) (ReadFile example_os))
    (filepath_Rel example_fs) (os_Stat example_fs).

(** ** The model table of the later version of the package *)

Module Internal.

(** The fields of [GrokkerInternal] that the functions modelled here read
    or assign; [modelName] is the field [Model] and [grokOaiModel] the
    field [oaiModel]. *)
Record GrokkerInternal : Type := mkGrokkerInternal {
  Root : string;
  models : option Models;
  modelName : string;
  grokOaiModel : string;
  tokenLimit : Z;
  embeddingTokenLimit : Z
}.

Definition DefaultModel : string := "gpt-4".

Definition oai_GPT4TurboPreview : string := "gpt-4-turbo-preview".

(** [newModels()] *)
Definition newModels : Models :=
  let literal : gmap string Model :=
    <["gpt-3.5-turbo" := mkModel EmptyString 4096 oai_GPT3Dot5Turbo false]>
    (<["gpt-4" := mkModel EmptyString 8192 oai_GPT4 false]>
    (<["gpt-4-32k" := mkModel EmptyString 32768 oai_GPT432K false]>
    (<["gpt-4-turbo-preview" := mkModel EmptyString 128000 oai_GPT4TurboPreview false]> ∅))) in
  mkModels (map_imap (fun k v => Some (set_Name k v)) literal).

(** [models.findModel(model)] *)
Definition findModel (ms : Models) (model : string) : outcome (string * Model) :=
  let model := if String.eqb model EmptyString then DefaultModel else model in
  match Available ms !! model with
  | None => Err (ModelNotFound model)
  | Some m => Ok (model, m)
  end.

(** [g.getModel()] *)
Definition getModel (g : GrokkerInternal) : outcome (string * Model) :=
  match models g with
  | None => Panic NilDereference
  | Some ms => findModel ms (modelName g)
  end.

(** [g.initModel(model)]; as in the root package, [m.active = true]
    assigns through the pointer held in the table. *)
Definition initModel (g : GrokkerInternal) (model : string)
  : outcome unit * GrokkerInternal :=
  match Assert (negb (String.eqb (Root g) EmptyString)) "root directory not set" with
  | Ok _ =>
      let g1 := mkGrokkerInternal (Root g) (Some newModels) (modelName g) (grokOaiModel g)
                                  (tokenLimit g) (embeddingTokenLimit g) in
      match findModel newModels model with
      | Ok (model, m) =>
          let ms := mkModels (<[model := set_active m true]> (Available newModels)) in
          (Ok tt, mkGrokkerInternal (Root g) (Some ms) model (oaiModel m) (TokenLimit m) 8192)
      | Err e => (Err e, g1)
      | Panic p => (Panic p, g1)
      | OutOfFuel => (OutOfFuel, g1)
      end
  | Err e => (Err e, g)
  | Panic p => (Panic p, g)
  | OutOfFuel => (OutOfFuel, g)
  end.

End Internal.

(** * Properties *)

(** ** Strings *)

Lemma len_nonneg (s : string) : 0 <= len s.
Proof. unfold len. lia. Qed.

Lemma app_empty_l (t : string) : EmptyString +:+ t = t.
Proof. reflexivity. Qed.

Lemma app_String (c : ascii) (s t : string) : String c s +:+ t = String c (s +:+ t).
Proof. reflexivity. Qed.

Ltac app_simpl := rewrite ?app_empty_l, ?app_String in *; simpl in *.

Lemma length_app_string (s t : string) :
  String.length (s +:+ t) = (String.length s + String.length t)%nat.
Proof. induction s as [|c s IH]; app_simpl; [reflexivity | now rewrite IH]. Qed.

Lemma len_app (s t : string) : len (s +:+ t) = len s + len t.
Proof. unfold len. rewrite length_app_string. lia. Qed.

Lemma str_take_drop (n : nat) (s : string) : str_take n s +:+ str_drop n s = s.
Proof.
  revert s. induction n as [|n IH]; intros [|c s]; simpl; try reflexivity.
  rewrite app_String. now rewrite IH.
Qed.

Lemma length_str_take (n : nat) (s : string) :
  (n <= String.length s)%nat -> String.length (str_take n s) = n.
Proof.
  revert s. induction n as [|n IH]; intros [|c s]; simpl; intros H; try lia.
  rewrite IH; lia.
Qed.

Lemma length_str_drop (n : nat) (s : string) :
  String.length (str_drop n s) = (String.length s - n)%nat.
Proof.
  revert s. induction n as [|n IH]; intros [|c s]; simpl; try lia.
  apply IH.
Qed.

Lemma app_string_assoc (s t u : string) : (s +:+ t) +:+ u = s +:+ (t +:+ u).
Proof. induction s as [|c s IH]; app_simpl; [reflexivity | now rewrite IH]. Qed.

Lemma app_string_empty_r (s : string) : s +:+ EmptyString = s.
Proof. induction s as [|c s IH]; app_simpl; [reflexivity | now rewrite IH]. Qed.

(** ** [sliced] *)

Lemma sliced_concat (k : nat) (p : string) (ps : list string) :
  sliced k p ps -> Join ps EmptyString = p.
Proof.
  induction 1 as [|p Hp|piece rest ps Hk Hr Hs IH]; simpl; try reflexivity.
  destruct ps as [|q ps].
  - inversion Hs; subst; simpl in *; lia.
  - simpl in IH. simpl. rewrite app_empty_l. now rewrite IH.
Qed.

Lemma sliced_lengths (k : nat) (p : string) (ps : list string) :
  sliced k p ps -> Forall (fun piece => (0 < String.length piece <= k)%nat) ps.
Proof.
  induction 1 as [|p Hp|piece rest ps Hk Hr Hs IH]; auto.
  constructor; [|assumption].
  assert (0 < k)%nat as Hpos; [|lia].
  inversion Hs as [Hn|q Hq|q r qs Hq1 Hq2 Hq3]; subst; simpl in *; try lia.
  inversion IH; subst. lia.
Qed.

(** Every piece before the last has exactly [k] bytes. *)
Lemma sliced_full_pieces (k : nat) (p : string) (ps : list string) :
  sliced k p ps ->
  forall (i : nat) (piece : string),
    nth_error ps i = Some piece -> (S i < List.length ps)%nat -> String.length piece = k.
Proof.
  induction 1 as [|p Hp|piece rest ps Hk Hr Hs IH]; intros i x Hx Hi.
  - destruct i; discriminate.
  - simpl in Hi. lia.
  - destruct i as [|i]; simpl in *.
    + congruence.
    + apply (IH i); [assumption | lia].
Qed.

(** A paragraph of at most [k] bytes is kept whole; a longer one is cut. *)
Lemma sliced_short (k : nat) (p : string) (ps : list string) :
  sliced k p ps -> (0 < String.length p <= k)%nat -> ps = [p].
Proof.
  intros H Hp. inversion H; subst; simpl in *; try lia; try reflexivity.
  rewrite length_app_string in Hp. lia.
Qed.

Lemma sliced_count (k : nat) (p : string) (ps : list string) :
  sliced k p ps ->
  (k * (List.length ps - 1) < String.length p \/ ps = [])%nat /\
  (String.length p <= k * List.length ps)%nat.
Proof.
  induction 1 as [|p Hp|piece rest ps Hk Hr Hs IH]; simpl.
  - split; [right; reflexivity | lia].
  - split; [left; lia | lia].
  - rewrite length_app_string. destruct IH as [[IH1|IH1] IH2].
    + split; [left|]; nia.
    + subst ps. inversion Hs; subst. simpl in Hr. lia.
Qed.

(** ** [strings.Split] *)

Lemma str_prefix_spec (p s : string) :
  str_prefix p s = true -> s = p +:+ str_drop (String.length p) s.
Proof.
  revert s. induction p as [|a p IH]; intros s H; simpl in *.
  - destruct s; reflexivity.
  - destruct s as [|b s]; [discriminate|].
    destruct (Ascii.eqb a b) eqn:E; [|discriminate].
    apply Ascii.eqb_eq in E. subst b. rewrite app_String. f_equal. now apply IH.
Qed.

Lemma split_from_skip (sep t s cur : string) :
  split_from sep (String.length t) cur (t +:+ s) = split_from sep O cur s.
Proof.
  induction t as [|c t IH]; app_simpl; [destruct s; reflexivity | exact IH].
Qed.

Lemma split_from_nonempty (sep : string) (skip : nat) (cur s : string) :
  split_from sep skip cur s <> [].
Proof.
  revert skip cur. induction s as [|c s IH]; intros skip cur; simpl; [discriminate|].
  destruct skip; [|apply IH].
  destruct (str_prefix sep (String c s)); [discriminate | apply IH].
Qed.

Lemma Join_cons (p : string) (l : list string) (sep : string) :
  l <> [] -> Join (p :: l) sep = p +:+ sep +:+ Join l sep.
Proof. destruct l; [congruence | reflexivity]. Qed.

(** Joining the pieces with the separator gives the text back. *)
Lemma Join_split_from (sep : string) (n : nat) :
  sep <> EmptyString ->
  forall s cur : string, (String.length s <= n)%nat ->
    Join (split_from sep O cur s) sep = cur +:+ s.
Proof.
  intros Hsep. induction n as [|n IH]; intros s cur Hn.
  - destruct s; simpl in *; [now rewrite app_string_empty_r | lia].
  - destruct s as [|c s]; [simpl; now rewrite app_string_empty_r|].
    cbn [split_from]. destruct (str_prefix sep (String c s)) eqn:E.
    + apply str_prefix_spec in E.
      destruct sep as [|a sep']; [congruence|].
      cbn [String.length str_drop] in E. rewrite app_String in E.
      injection E as Ea Es. subst a.
      replace (String.length (String c sep') - 1)%nat with (String.length sep')
        by (simpl; lia).
      rewrite Es at 1. rewrite split_from_skip.
      rewrite Join_cons by apply split_from_nonempty.
      rewrite IH.
      * rewrite app_empty_l. rewrite (app_String c sep'). rewrite <- Es. reflexivity.
      * rewrite length_str_drop. simpl in Hn. lia.
    + rewrite IH by (simpl in Hn; lia).
      rewrite app_string_assoc. reflexivity.
Qed.

Lemma Join_Split (s sep : string) : sep <> EmptyString -> Join (Split s sep) sep = s.
Proof.
  intros H. unfold Split.
  now rewrite (Join_split_from sep (String.length s) H s EmptyString (Nat.le_refl _)).
Qed.

(** No piece is longer than the text. *)
Lemma split_from_length (sep : string) (s : string) :
  forall (skip : nat) (cur p : string),
    In p (split_from sep skip cur s) ->
    (String.length p <= String.length cur + String.length s)%nat.
Proof.
  induction s as [|c s IH]; intros skip cur p Hp; simpl in *.
  - destruct Hp as [<-|[]]. lia.
  - destruct skip as [|k].
    + destruct (str_prefix sep (String c s)).
      * destruct Hp as [<-|Hp]; [lia|]. apply IH in Hp. simpl in Hp. lia.
      * apply IH in Hp. rewrite length_app_string in Hp. simpl in Hp. lia.
    + apply IH in Hp. lia.
Qed.

Lemma Split_length (s sep p : string) :
  In p (Split s sep) -> (String.length p <= String.length s)%nat.
Proof. intros H. apply split_from_length in H. simpl in H. lia. Qed.

(** ** The chunker *)

Lemma chunk_paragraph_empty (fuel : nat) (maxLen : Z) (c : list string) :
  chunk_paragraph fuel maxLen EmptyString c = Ok c.
Proof. destruct fuel; reflexivity. Qed.

(** With a slice size [k >= 1] the paragraph loop ends within as many
    iterations as the paragraph has bytes, and appends a slicing of it. *)
Lemma chunk_paragraph_sliced (k : nat) :
  (1 <= k)%nat ->
  forall (fuel : nat) (p : string) (c : list string),
    (String.length p <= fuel)%nat ->
    exists ps, chunk_paragraph fuel (Z.of_nat k + 1) p c = Ok (c ++ ps) /\ sliced k p ps.
Proof.
  intros Hk. induction fuel as [|fuel IH]; intros p c Hp.
  - destruct p; simpl in Hp; [|lia].
    exists []. rewrite app_nil_r. split; [reflexivity | constructor].
  - destruct p as [|a p'] eqn:Ep.
    { exists []. rewrite app_nil_r. split; [reflexivity | constructor]. }
    rewrite <- Ep in *. assert (0 < String.length p)%nat as Hpos by (subst p; simpl; lia).
    cbn [chunk_paragraph]. unfold len.
    destruct (Z.of_nat (String.length p) >? 0) eqn:E0; [|lia].
    destruct (Z.of_nat (String.length p) >=? Z.of_nat k + 1) eqn:E1.
    + unfold slice_to, slice_from, len.
      replace (Z.of_nat k + 1 - 1) with (Z.of_nat k) by lia.
      assert ((0 <=? Z.of_nat k) && (Z.of_nat k <=? Z.of_nat (String.length p)) = true) as ->
        by (apply andb_true_intro; split; lia).
      cbn [bind]. rewrite Nat2Z.id.
      destruct (IH (str_drop k p) (c ++ [str_take k p])) as [ps [Hrun Hs]].
      { rewrite length_str_drop. lia. }
      exists (str_take k p :: ps). split.
      * rewrite Hrun. now rewrite <- app_assoc.
      * rewrite <- (str_take_drop k p) at 1. constructor; [|rewrite length_str_drop; lia | exact Hs].
        apply length_str_take. lia.
    + rewrite chunk_paragraph_empty. exists [p]. split; [reflexivity|].
      constructor. lia.
Qed.

Lemma chunk_paragraphs_sliced (k : nat) (fuel : nat) :
  (1 <= k)%nat ->
  forall (paragraphs : list string) (c : list string),
    (forall p, In p paragraphs -> (String.length p <= fuel)%nat) ->
    exists pieces,
      chunk_paragraphs fuel (Z.of_nat k + 1) paragraphs c = Ok (c ++ concat pieces) /\
      Forall2 (sliced k) paragraphs pieces.
Proof.
  intros Hk. induction paragraphs as [|p more IH]; intros c Hall.
  - exists []. simpl. rewrite app_nil_r. split; [reflexivity | constructor].
  - destruct (chunk_paragraph_sliced k Hk fuel p c) as [ps [Hrun Hs]].
    { apply Hall. now left. }
    destruct (IH (c ++ ps)) as [pieces [Hrest Hall2]].
    { intros q Hq. apply Hall. now right. }
    exists (ps :: pieces). cbn [chunk_paragraphs]. rewrite Hrun. cbn [bind].
    rewrite Hrest. simpl. rewrite <- app_assoc. split; [reflexivity | now constructor].
Qed.

Lemma Forall2_sliced_lengths (k : nat) (paragraphs : list string) (pieces : list (list string)) :
  Forall2 (sliced k) paragraphs pieces ->
  Forall (fun piece => (0 < String.length piece <= k)%nat) (concat pieces).
Proof.
  induction 1 as [|p ps paragraphs pieces Hs Hall IH]; simpl; [constructor|].
  apply Forall_app. split; [now apply sliced_lengths in Hs | exact IH].
Qed.


Lemma chunk_paragraph_diverges (fuel : nat) (a : ascii) (p : string) (c : list string) :
  chunk_paragraph fuel 1 (String a p) c = OutOfFuel.
Proof.
  revert c. induction fuel as [|fuel IH]; intros c; [reflexivity|].
  cbn [chunk_paragraph]. remember (String a p) as q eqn:Eq.
  assert (0 < len q) as Hpos by (subst q; unfold len; simpl; lia).
  destruct (len q >? 0) eqn:E0; [|lia].
  destruct (len q >=? 1) eqn:E1; [|lia].
  unfold slice_to, slice_from. replace (1 - 1) with 0 by lia.
  assert ((0 <=? 0) && (0 <=? len q) = true) as -> by (apply andb_true_intro; split; lia).
  cbn [bind Z.to_nat str_drop str_take]. subst q. apply IH.
Qed.




(** The scenario of the specification: two paragraphs, two chunks. *)
Example chunks_two_paragraphs :
  chunks ("A" +:+ blank_line +:+ "B") 100 = Ok ["A"; "B"].
Proof. vm_compute. reflexivity. Qed.

(** A paragraph of exactly [maxLen] bytes is cut as well. *)
Example chunks_paragraph_of_maxLen : chunks "abc" 3 = Ok ["ab"; "c"].
Proof. vm_compute. reflexivity. Qed.

(** C4, as the claim words it, fails: with [maxLen = 3] the paragraph
    "abcd" is not cut into "abc" and "d"; the chunker returns "ab" and "cd",
    pieces of [maxLen - 1] bytes. *)
Lemma chunks_not_as_specified : ~ chunks_as_specified "abcd" 3.
Proof.
  intros [pieces [Hrun Hall]].
  assert (chunks "abcd" 3 = Ok ["ab"; "cd"]) as E by (vm_compute; reflexivity).
  rewrite E in Hrun. injection Hrun as Hc.
  assert (Split "abcd" blank_line = ["abcd"]) as Es by (vm_compute; reflexivity).
  rewrite Es in Hall.
  inversion Hall as [|p ps l1 l2 Hs Hnil]; subst.
  inversion Hnil; subst. simpl in Hc. rewrite app_nil_r in Hc. subst ps.
  inversion Hs as [|q Hq|piece rest qs Hlen Hrest Hmore]; subst.
  vm_compute in Hlen. discriminate.
Qed.

(** For [maxLen >= 2] the chunker returns a slicing of every paragraph. *)
Lemma chunks_returns_slicing (txt : string) (maxLen : Z) :
  2 <= maxLen ->
  exists pieces : list (list string),
    chunks txt maxLen = Ok (concat pieces) /\
    Forall2 (sliced (Z.to_nat (maxLen - 1))) (Split txt blank_line) pieces.
Proof.
  intros Hm. set (k := Z.to_nat (maxLen - 1)).
  assert (1 <= k)%nat as Hk by (unfold k; lia).
  assert (maxLen = Z.of_nat k + 1) as Em by (unfold k; lia).
  destruct (chunk_paragraphs_sliced k (S (String.length txt)) Hk
              (Split txt blank_line) []) as [pieces [Hrun Hall]].
  { intros p Hp. apply Split_length in Hp. lia. }
  exists pieces. unfold chunks, chunks_fuel. rewrite Em at 1. rewrite Hrun.
  split; [reflexivity | exact Hall].
Qed.

(** C4, amended: for [maxLen >= 2] the chunker returns; its result is, paragraph
    by paragraph (the parts of the text between blank lines, which joined by
    blank lines give the text back), a slicing of the paragraph into
    consecutive pieces without overlap, each of exactly [maxLen - 1] bytes but
    for a last one of 1 to [maxLen - 1] bytes, and nothing for an empty
    paragraph; so every piece has at most [maxLen - 1] bytes, hence at most
    [maxLen], and no piece holds text of two paragraphs. *)
Theorem chunks_hard_split (txt : string) (maxLen : Z) :
  2 <= maxLen ->
  exists pieces : list (list string),
    chunks txt maxLen = Ok (concat pieces) /\
    Forall2 (sliced (Z.to_nat (maxLen - 1))) (Split txt blank_line) pieces /\
    Forall (fun piece => 0 < len piece <= maxLen - 1) (concat pieces) /\
    Join (Split txt blank_line) blank_line = txt.
Proof.
  intros Hm. destruct (chunks_returns_slicing txt maxLen Hm) as [pieces [Hrun Hall]].
  exists pieces. split; [exact Hrun|]. split; [exact Hall|]. split.
  - pose proof (Forall2_sliced_lengths _ _ _ Hall) as Hlen.
    eapply Forall_impl; [exact Hlen|].
    intros piece Hp. simpl in Hp. unfold len. lia.
  - apply Join_Split. discriminate.
Qed.

Lemma chunks_hard_split_witness :
  2 <= 3 /\
  exists pieces : list (list string),
    chunks "abcd" 3 = Ok (concat pieces) /\
    Forall2 (sliced (Z.to_nat (3 - 1))) (Split "abcd" blank_line) pieces /\
    Forall (fun piece => 0 < len piece <= 3 - 1) (concat pieces) /\
    Join (Split "abcd" blank_line) blank_line = "abcd".
Proof.
  split; [lia | apply (chunks_hard_split "abcd" 3); lia].
Defined.

(** ** The embedding batcher *)

Lemma total_len_nonneg (l : list string) : 0 <= total_len l.
Proof. induction l as [|t l IH]; simpl; [lia | pose proof (len_nonneg t); lia]. Qed.

Lemma total_len_app (l1 l2 : list string) : total_len (l1 ++ l2) = total_len l1 + total_len l2.
Proof. induction l1 as [|t l1 IH]; simpl; [reflexivity | rewrite IH; lia]. Qed.

Lemma slen_nonneg {A : Type} (l : list A) : 0 <= slen l.
Proof. unfold slen. lia. Qed.

Lemma slen_app {A : Type} (l1 l2 : list A) : slen (l1 ++ l2) = slen l1 + slen l2.
Proof. unfold slen. rewrite length_app. lia. Qed.

Lemma slen_cons {A : Type} (a : A) (l : list A) : slen (a :: l) = 1 + slen l.
Proof. unfold slen. simpl length. lia. Qed.

Lemma slen_nil {A : Type} : slen (@nil A) = 0.
Proof. reflexivity. Qed.

Ltac slen_simpl := rewrite ?slen_app, ?slen_cons, ?slen_nil in *.

Lemma index_ok_inv {A : Type} (l : list A) (i : Z) (a : A) :
  index l i = Ok a -> 0 <= i < slen l /\ nth_error l (Z.to_nat i) = Some a.
Proof.
  unfold index. destruct (i <? 0) eqn:E; [discriminate|].
  destruct (nth_error l (Z.to_nat i)) as [b|] eqn:En; [|discriminate].
  intros H. injection H as ->. split; [|reflexivity].
  assert (Z.to_nat i < List.length l)%nat by (apply nth_error_Some; congruence).
  unfold slen. lia.
Qed.

Lemma index_app_middle {A : Type} (pre : list A) (a : A) (post : list A) :
  index (pre ++ a :: post) (slen pre) = Ok a.
Proof.
  unfold index. pose proof (slen_nonneg pre) as Hpre.
  destruct (slen pre <? 0) eqn:E; [lia|]. unfold slen.
  rewrite Nat2Z.id. rewrite nth_error_app2 by lia.
  now rewrite Nat.sub_diag.
Qed.

(** What a successful run of the inner loop tells: where it stopped, and
    that every text it took is placeable. *)
Lemma pack_ok_inv (limit : Z) (texts : list string) :
  forall (fuel : nat) (j total j' total' : Z),
    pack fuel limit texts j total = Ok (j', total') ->
    0 <= j -> 0 <= total ->
    j - 1 <= j' < slen texts /\
    (j' = j - 1 -> total' = total) /\
    (j <= j' -> total < total' < limit) /\
    (forall n, j <= n <= j' ->
       exists text, nth_error texts (Z.to_nat n) = Some text /\ placeable limit text).
Proof.
  induction fuel as [|fuel IH]; intros j total j' total' H Hj Ht; [discriminate|].
  cbn [pack] in H.
  destruct (index texts j) as [text| | |] eqn:Ei; cbn [bind] in H; try discriminate.
  apply index_ok_inv in Ei. destruct Ei as [Hrange Hnth].
  unfold Assert in H.
  destruct (len text >? 0) eqn:E0; cbn [bind] in H; [|discriminate].
  destruct (len text <=? limit) eqn:E1; cbn [bind] in H; [|discriminate].
  destruct (total + len text >=? limit) eqn:E2.
  - injection H as <- <-. repeat split; lia.
  - destruct (j =? slen texts - 1) eqn:E3.
    + injection H as <- <-. repeat split; try lia.
      intros n Hn. assert (n = j) as -> by lia. exists text. split; [assumption|].
      unfold placeable. lia.
    + apply IH in H; [|lia|lia]. destruct H as [Hj' [Hsame [Hlt Hall]]].
      repeat split; try lia.
      intros n Hn. destruct (Z.eq_dec n j) as [->|Hne].
      * exists text. split; [assumption|]. unfold placeable. lia.
      * apply Hall. lia.
Qed.

Lemma recheck_ok_inv (limit : Z) (inputs : list string) (total total' : Z) :
  recheck limit inputs total = Ok total' -> total' = total + total_len inputs.
Proof.
  revert total. induction inputs as [|t more IH]; intros total H; simpl in H.
  - injection H as <-. simpl. lia.
  - unfold Assert in H. destruct (len t <=? limit); cbn [bind] in H; [|discriminate].
    apply IH in H. simpl. lia.
Qed.

Lemma next_batch_ok_inv (limit : Z) (texts : list string) (i j : Z) (inputs : list string) :
  next_batch limit texts i = Ok (j, inputs) -> 0 <= i ->
  i <= j < slen texts /\
  inputs = firstn (Z.to_nat (j + 1 - i)) (skipn (Z.to_nat i) texts) /\
  total_len inputs <= limit /\
  (forall n, i <= n <= j ->
     exists text, nth_error texts (Z.to_nat n) = Some text /\ placeable limit text).
Proof.
  intros H Hi. unfold next_batch in H.
  destruct (pack (S (List.length texts)) limit texts i 0) as [[j0 total0]| | |] eqn:Ep;
    cbn [bind fst snd] in H; try discriminate.
  apply pack_ok_inv in Ep; [|lia|lia]. destruct Ep as [Hj0 [_ [_ Hall]]].
  unfold Assert in H.
  destruct (j0 >=? i) eqn:E0; cbn [bind] in H; [|discriminate].
  destruct (total0 >? 0) eqn:E1; cbn [bind] in H; [|discriminate].
  unfold slice in H.
  destruct ((0 <=? i) && (i <=? j0 + 1) && (j0 + 1 <=? slen texts)) eqn:E2;
    cbn [bind] in H; [|discriminate].
  destruct (recheck limit _ 0) as [total1| | |] eqn:Er; cbn [bind] in H; try discriminate.
  destruct (total1 <=? limit) eqn:E3; cbn [bind] in H; [|discriminate].
  injection H as <- <-. apply recheck_ok_inv in Er.
  repeat split; try lia; try assumption.
Qed.

(** A successful run of the outer loop has found every text from [i] on
    placeable. *)
Lemma batch_loop_ok_inv (limit : Z) (texts : list string) :
  forall (fuel : nat) (c c' : Client) (i : Z) (embeddings es : list Embedding),
    batch_loop fuel limit c texts i embeddings = (Ok es, c') -> 0 <= i ->
    forall n, i <= n < slen texts ->
      exists text, nth_error texts (Z.to_nat n) = Some text /\ placeable limit text.
Proof.
  induction fuel as [|fuel IH]; intros c c' i embeddings es H Hi n Hn.
  - simpl in H. destruct (i <? slen texts) eqn:E; [discriminate | lia].
  - cbn [batch_loop] in H. destruct (i <? slen texts) eqn:E; [|lia].
    destruct (next_batch limit texts i) as [[j inputs]| | |] eqn:Eb; try discriminate.
    apply next_batch_ok_inv in Eb; [|assumption]. destruct Eb as [Hj [_ [_ Hall]]].
    destruct (request c inputs) as [[data| | |] c1] eqn:Er; try discriminate.
    destruct (Z_le_gt_dec n j) as [Hle|Hgt].
    + apply Hall. lia.
    + eapply IH; [exact H | lia | lia].
Qed.

Lemma CreateEmbeddings_ok_placeable (limit : Z) (c c' : Client) (texts : list string)
  (es : list Embedding) :
  CreateEmbeddings limit c texts = (Ok es, c') -> Forall (placeable limit) texts.
Proof.
  unfold CreateEmbeddings. intros H.
  destruct (slen texts =? 0) eqn:E0.
  - destruct texts; [constructor | rewrite slen_cons in E0; pose proof (slen_nonneg texts); lia].
  - destruct (batch_loop (List.length texts) limit c texts 0 []) as [[es0| | |] c0] eqn:Eb;
      try discriminate.
    apply List.Forall_forall. intros text Hin.
    apply In_nth_error in Hin. destruct Hin as [k Hk].
    assert (k < List.length texts)%nat as Hlt by (apply nth_error_Some; congruence).
    destruct (batch_loop_ok_inv limit texts _ _ _ _ _ _ Eb ltac:(lia) (Z.of_nat k))
      as [text' [Hnth Hgood]].
    { unfold slen. lia. }
    rewrite Nat2Z.id in Hnth. congruence.
Qed.

Lemma index_in_range {A : Type} (l : list A) (i : Z) :
  0 <= i < slen l -> exists a, index l i = Ok a /\ nth_error l (Z.to_nat i) = Some a.
Proof.
  intros H. unfold index. destruct (i <? 0) eqn:E; [lia|].
  destruct (nth_error l (Z.to_nat i)) as [a|] eqn:En; [eauto|].
  apply nth_error_None in En. unfold slen in H. lia.
Qed.

Lemma pack_asserts_or_ok (limit : Z) (texts : list string) :
  forall (fuel : nat) (j total : Z),
    0 <= j < slen texts -> slen texts - j <= Z.of_nat fuel ->
    asserts_or_ok (pack fuel limit texts j total).
Proof.
  induction fuel as [|fuel IH]; intros j total Hj Hf; [lia|].
  cbn [pack]. destruct (index_in_range texts j Hj) as [text [-> _]]. cbn [bind].
  unfold Assert.
  destruct (len text >? 0); cbn [bind]; [|exact I].
  destruct (len text <=? limit); cbn [bind]; [|exact I].
  destruct (total + len text >=? limit); [exact I|].
  destruct (j =? slen texts - 1) eqn:E; [exact I|].
  apply IH; lia.
Qed.

Lemma recheck_asserts_or_ok (limit : Z) (inputs : list string) (total : Z) :
  asserts_or_ok (recheck limit inputs total).
Proof.
  revert total. induction inputs as [|t more IH]; intros total; simpl; [exact I|].
  unfold Assert. destruct (len t <=? limit); cbn [bind]; [apply IH | exact I].
Qed.

Lemma next_batch_asserts_or_ok (limit : Z) (texts : list string) (i : Z) :
  0 <= i < slen texts -> asserts_or_ok (next_batch limit texts i).
Proof.
  intros Hi. unfold next_batch.
  pose proof (pack_asserts_or_ok limit texts (S (List.length texts)) i 0 Hi) as Hp.
  destruct (pack (S (List.length texts)) limit texts i 0) as [[j0 total0]| |p|] eqn:Ep;
    cbn [bind fst snd].
  - apply pack_ok_inv in Ep; [|lia|lia]. destruct Ep as [Hj0 _].
    unfold Assert. destruct (j0 >=? i) eqn:E0; cbn [bind]; [|exact I].
    destruct (total0 >? 0); cbn [bind]; [|exact I].
    unfold slice.
    assert ((0 <=? i) && (i <=? j0 + 1) && (j0 + 1 <=? slen texts) = true) as ->.
    { apply andb_true_intro; split; [apply andb_true_intro; split|]; lia. }
    cbn [bind].
    pose proof (recheck_asserts_or_ok limit
      (firstn (Z.to_nat (j0 + 1 - i)) (skipn (Z.to_nat i) texts)) 0) as Hr.
    destruct (recheck limit _ 0) as [total1| |p|]; cbn [bind]; try exact Hr.
    destruct (total1 <=? limit); cbn [bind]; exact I.
  - apply Hp; unfold slen; lia.
  - apply Hp; unfold slen; lia.
  - apply Hp; unfold slen; lia.
Qed.



(** *** The batches on placeable texts *)

Lemma batch_prefix_split (limit total : Z) (rest : list string) :
  rest = batch_prefix limit total rest ++ skipn (List.length (batch_prefix limit total rest)) rest.
Proof.
  revert total. induction rest as [|t rest IH]; intros total; simpl; [reflexivity|].
  destruct (total + len t >=? limit); simpl; [reflexivity|]. f_equal. apply IH.
Qed.

Lemma batch_prefix_total (limit total : Z) (rest : list string) :
  total < limit -> total + total_len (batch_prefix limit total rest) < limit.
Proof.
  revert total. induction rest as [|t rest IH]; intros total H; simpl; [lia|].
  destruct (total + len t >=? limit) eqn:E; simpl; [lia|].
  specialize (IH (total + len t) ltac:(lia)). lia.
Qed.

Lemma batch_prefix_longest (limit : Z) (p : list string) :
  forall (total : Z) (q : list string),
    total + total_len p < limit ->
    (List.length p <= List.length (batch_prefix limit total (p ++ q)))%nat.
Proof.
  induction p as [|t p IH]; intros total q H; simpl in *; [lia|].
  pose proof (total_len_nonneg p) as Hp.
  destruct (total + len t >=? limit) eqn:E; [lia|]. simpl.
  specialize (IH (total + len t) q ltac:(lia)). lia.
Qed.

Lemma batch_prefix_nonempty (limit : Z) (t : string) (rest : list string) :
  placeable limit t -> batch_prefix limit 0 (t :: rest) <> [].
Proof.
  unfold placeable. intros H. simpl. destruct (0 + len t >=? limit) eqn:E; [lia | discriminate].
Qed.

(** One turn of the inner loop at a placeable text. *)
Lemma pack_step (limit : Z) (pre : list string) (t : string) (rest : list string)
  (total : Z) (fuel : nat) :
  placeable limit t ->
  pack (S fuel) limit (pre ++ t :: rest) (slen pre) total =
    if total + len t >=? limit then Ok (slen pre - 1, total)
    else match rest with
         | [] => Ok (slen pre, total + len t)
         | _ :: _ => pack fuel limit (pre ++ t :: rest) (slen pre + 1) (total + len t)
         end.
Proof.
  unfold placeable. intros Hgood. cbn [pack]. rewrite index_app_middle. cbn [bind].
  unfold Assert.
  destruct (len t >? 0) eqn:E0; [|lia].
  destruct (len t <=? limit) eqn:E1; [|lia]. cbn [bind].
  destruct (total + len t >=? limit); [reflexivity|].
  rewrite slen_app, slen_cons. pose proof (slen_nonneg rest) as Hr.
  destruct rest as [|t' rest].
  - change (slen (@nil string)) with 0.
    destruct (slen pre =? slen pre + (1 + 0) - 1) eqn:E3; [reflexivity | lia].
  - rewrite slen_cons in *. pose proof (slen_nonneg rest) as Hr'.
    destruct (slen pre =? slen pre + (1 + (1 + slen rest)) - 1) eqn:E3; [lia | reflexivity].
Qed.

Ltac ok_pair :=
  match goal with
  | |- Ok (?a, ?b) = Ok (?a', ?b') =>
      let H1 := fresh in
      let H2 := fresh in
      assert (a = a') as H1 by (cbn [total_len]; lia);
      assert (b = b') as H2 by (cbn [total_len]; lia);
      exact (f_equal2 (fun x y => Ok (x, y)) H1 H2)
  end.

Lemma pack_batch_prefix (limit : Z) :
  forall (rest : list string) (t : string) (pre : list string) (total : Z) (fuel : nat),
    Forall (placeable limit) (t :: rest) ->
    (List.length rest < fuel)%nat ->
    pack fuel limit (pre ++ t :: rest) (slen pre) total =
      Ok (slen pre + slen (batch_prefix limit total (t :: rest)) - 1,
          total + total_len (batch_prefix limit total (t :: rest))).
Proof.
  induction rest as [|t' rest IH]; intros t pre total fuel Hall Hf;
    (destruct fuel as [|fuel]; [simpl in Hf; lia|]);
    inversion Hall as [|? ? Hgood Hmore]; subst;
    rewrite (pack_step limit pre t _ total fuel Hgood); cbn [batch_prefix];
    destruct (total + len t >=? limit) eqn:E2.
  - slen_simpl. ok_pair.
  - slen_simpl. ok_pair.
  - slen_simpl. ok_pair.
  - replace (slen pre + 1) with (slen (pre ++ [t])) by (slen_simpl; lia).
    replace (pre ++ t :: t' :: rest) with ((pre ++ [t]) ++ t' :: rest)
      by (now rewrite <- app_assoc).
    rewrite (IH t' (pre ++ [t]) (total + len t) fuel Hmore ltac:(simpl in Hf; lia)).
    rewrite (slen_cons t). rewrite (slen_app pre [t]). slen_simpl.
    cbn [batch_prefix]. ok_pair.
Qed.

Lemma recheck_ok (limit : Z) (inputs : list string) (total : Z) :
  Forall (fun t => len t <= limit) inputs ->
  recheck limit inputs total = Ok (total + total_len inputs).
Proof.
  revert total. induction inputs as [|t more IH]; intros total H; simpl.
  - f_equal. lia.
  - inversion H as [|? ? Ht Hmore]; subst. unfold Assert.
    destruct (len t <=? limit) eqn:E; [|lia]. cbn [bind].
    rewrite IH by assumption. f_equal. lia.
Qed.

Lemma batch_prefix_placeable (limit total : Z) (rest : list string) :
  Forall (placeable limit) rest -> Forall (placeable limit) (batch_prefix limit total rest).
Proof.
  revert total. induction rest as [|t rest IH]; intros total H; simpl; [constructor|].
  inversion H; subst. destruct (total + len t >=? limit); [constructor|].
  constructor; [assumption | now apply IH].
Qed.

Lemma Forall_skipn_placeable (limit : Z) (n : nat) (l : list string) :
  Forall (placeable limit) l -> Forall (placeable limit) (skipn n l).
Proof.
  revert l. induction n as [|n IH]; intros l H; [exact H|].
  destruct l as [|t l]; [constructor|]. inversion H; subst. simpl. now apply IH.
Qed.

(** One turn of the outer loop on placeable texts: the batch is the longest
    run below the limit, and it is not empty. *)
Lemma next_batch_placeable (limit : Z) (pre : list string) (t : string) (rest : list string) :
  Forall (placeable limit) (t :: rest) ->
  next_batch limit (pre ++ t :: rest) (slen pre) =
    Ok (slen pre + slen (batch_prefix limit 0 (t :: rest)) - 1,
        batch_prefix limit 0 (t :: rest)).
Proof.
  intros Hall. unfold next_batch.
  rewrite (pack_batch_prefix limit rest t pre 0 _ Hall)
    by (rewrite length_app; simpl; lia).
  cbn [bind fst snd].
  set (b := batch_prefix limit 0 (t :: rest)).
  assert (Forall (placeable limit) b) as Hb by (now apply batch_prefix_placeable).
  assert (b <> []) as Hne by (apply batch_prefix_nonempty; now inversion Hall).
  assert (0 < limit) as Hlim by (inversion Hall as [|? ? Hg _]; unfold placeable in Hg; lia).
  pose proof (batch_prefix_total limit 0 (t :: rest) Hlim) as Htot. fold b in Htot.
  assert (0 < total_len b) as Hpos.
  { destruct b as [|t0 b0]; [congruence|]. inversion Hb as [|? ? Hg _]; subst.
    unfold placeable in Hg. pose proof (total_len_nonneg b0). simpl. lia. }
  assert (1 <= slen b) as Hlen.
  { destruct b; [congruence|]. rewrite slen_cons. pose proof (slen_nonneg b). lia. }
  unfold Assert.
  destruct (slen pre + slen b - 1 >=? slen pre) eqn:E0; [|lia]. cbn [bind].
  destruct (0 + total_len b >? 0) eqn:E1; [|lia]. cbn [bind].
  unfold slice. pose proof (slen_nonneg pre) as Hpre.
  assert (slen b <= slen (t :: rest)) as Hle.
  { rewrite (batch_prefix_split limit 0 (t :: rest)) at 1. fold b. rewrite slen_app.
    pose proof (slen_nonneg (skipn (List.length b) (t :: rest))). lia. }
  assert ((0 <=? slen pre) && (slen pre <=? slen pre + slen b - 1 + 1) &&
          (slen pre + slen b - 1 + 1 <=? slen (pre ++ t :: rest)) = true) as ->.
  { rewrite slen_app. apply andb_true_intro; split; [apply andb_true_intro; split|]; lia. }
  cbn [bind].
  replace (Z.to_nat (slen pre + slen b - 1 + 1 - slen pre)) with (List.length b)
    by (unfold slen; lia).
  replace (Z.to_nat (slen pre)) with (List.length pre) by (unfold slen; lia).
  rewrite skipn_app, skipn_all, Nat.sub_diag. cbn [skipn app].
  assert (firstn (List.length b) (t :: rest) = b) as ->.
  { rewrite (batch_prefix_split limit 0 (t :: rest)) at 1. fold b.
    rewrite firstn_app, Nat.sub_diag, firstn_all. cbn [firstn]. now rewrite app_nil_r. }
  rewrite recheck_ok.
  - cbn [bind]. destruct (0 + total_len b <=? limit) eqn:E3; [|lia]. reflexivity.
  - eapply Forall_impl; [exact Hb|]. unfold placeable. intros x Hx. simpl in Hx. lia.
Qed.

Lemma client_eta (c : Client) : mkClient (respond c) (sent c) = c.
Proof. destruct c; reflexivity. Qed.

(** The outer loop on placeable texts and a service that replies one
    embedding per text, in order: every text gets its embedding and the
    requests are the greedy runs. *)
Lemma batch_loop_greedy (limit : Z) (embed : string -> Embedding) :
  forall (fuel : nat) (rest pre : list string) (c : Client) (embeddings : list Embedding),
    Forall (placeable limit) rest -> (List.length rest <= fuel)%nat ->
    (forall history inputs, respond c history inputs = Data (map embed inputs)) ->
    batch_loop fuel limit c (pre ++ rest) (slen pre) embeddings =
      (Ok (embeddings ++ map embed rest),
       mkClient (respond c) (sent c ++ greedy fuel limit rest)).
Proof.
  induction fuel as [|fuel IH]; intros rest pre c embeddings Hall Hf Hc.
  - destruct rest; [|simpl in Hf; lia]. simpl. rewrite !app_nil_r, client_eta.
    destruct (slen pre <? slen pre) eqn:E; [lia | reflexivity].
  - destruct rest as [|t rest].
    + simpl. rewrite !app_nil_r, client_eta.
      destruct (slen pre <? slen pre) eqn:E; [lia | reflexivity].
    + cbn [batch_loop]. pose proof (slen_nonneg rest) as Hr.
      destruct (slen pre <? slen (pre ++ t :: rest)) eqn:E;
        [|rewrite slen_app, slen_cons in E; lia].
      rewrite (next_batch_placeable limit pre t rest Hall).
      set (b := batch_prefix limit 0 (t :: rest)).
      assert (b <> []) as Hne by (apply batch_prefix_nonempty; now inversion Hall).
      unfold request. rewrite Hc.
      pose proof (batch_prefix_split limit 0 (t :: rest)) as Hsplit. fold b in Hsplit.
      set (r := skipn (List.length b) (t :: rest)) in *.
      replace (slen pre + slen b - 1 + 1) with (slen (pre ++ b)) by (rewrite slen_app; lia).
      rewrite Hsplit at 1. rewrite app_assoc.
      rewrite (IH r (pre ++ b) (mkClient (respond c) (sent c ++ [b])) (embeddings ++ map embed b)).
      * cbn [respond sent greedy]. fold b. fold r. rewrite <- !app_assoc. cbn [app].
        rewrite <- map_app, <- Hsplit. reflexivity.
      * unfold r. now apply Forall_skipn_placeable.
      * assert (List.length (t :: rest) = List.length b + List.length r)%nat as Hl
          by (rewrite Hsplit at 1; apply length_app).
        destruct b; [congruence|]. simpl in *. lia.
      * exact Hc.
Qed.

Lemma greedy_concat (limit : Z) :
  forall (fuel : nat) (rest : list string),
    Forall (placeable limit) rest -> (List.length rest <= fuel)%nat ->
    concat (greedy fuel limit rest) = rest /\
    Forall (fun b => b <> [] /\ within_limit limit b) (greedy fuel limit rest).
Proof.
  induction fuel as [|fuel IH]; intros rest Hall Hf.
  - destruct rest; [|simpl in Hf; lia]. split; [reflexivity | constructor].
  - destruct rest as [|t rest]; [split; [reflexivity | constructor]|].
    cbn [greedy]. set (b := batch_prefix limit 0 (t :: rest)).
    assert (b <> []) as Hne by (apply batch_prefix_nonempty; now inversion Hall).
    pose proof (batch_prefix_split limit 0 (t :: rest)) as Hsplit. fold b in Hsplit.
    assert (0 < limit) as Hlim by (inversion Hall as [|? ? Hg _]; unfold placeable in Hg; lia).
    pose proof (batch_prefix_total limit 0 (t :: rest) Hlim) as Htot. fold b in Htot.
    destruct (IH (skipn (List.length b) (t :: rest))) as [Hc Hv].
    + now apply Forall_skipn_placeable.
    + assert (List.length (t :: rest) =
              List.length b + List.length (skipn (List.length b) (t :: rest)))%nat as Hl
        by (rewrite Hsplit at 1; apply length_app).
      destruct b; [congruence|]. simpl in *. lia.
    + split.
      * cbn [concat]. rewrite Hc. now rewrite <- Hsplit.
      * constructor; [|exact Hv]. split; [exact Hne | unfold within_limit; lia].
Qed.

Lemma total_len_skipn (n : nat) (l : list string) : total_len (skipn n l) <= total_len l.
Proof.
  revert l. induction n as [|n IH]; intros l; [apply Z.le_refl|].
  destruct l as [|t l]; [apply Z.le_refl|].
  change (total_len (skipn n l) <= len t + total_len l).
  pose proof (IH l). pose proof (len_nonneg t). lia.
Qed.

(** Dropping leading texts from a batching leaves a batching of what is
    left, with no more batches. *)
Lemma drop_from_batches (limit : Z) (bs : list (list string)) :
  Forall (within_limit limit) bs ->
  forall n : nat, exists bs',
    concat bs' = skipn n (concat bs) /\ Forall (within_limit limit) bs' /\
    (List.length bs' <= List.length bs)%nat.
Proof.
  induction 1 as [|b bs Hb Hbs IH]; intros n.
  - exists []. rewrite skipn_nil. repeat split; [constructor | lia].
  - destruct (le_lt_dec n (List.length b)) as [Hle|Hgt].
    + exists (skipn n b :: bs). cbn [concat]. rewrite skipn_app.
      replace (n - List.length b)%nat with O by lia. cbn [skipn].
      repeat split; [|simpl; lia]. constructor; [|assumption].
      unfold within_limit in *. pose proof (total_len_skipn n b). lia.
    + destruct (IH (n - List.length b)%nat) as [bs' [Hc [Hv Hl]]].
      exists bs'. cbn [concat]. rewrite skipn_app.
      rewrite (skipn_all2 b) by lia. cbn [app].
      repeat split; [assumption | assumption | simpl; lia].
Qed.

(** No batching of the texts into consecutive runs within the limit has
    fewer runs than the greedy one. *)
Lemma greedy_minimal (limit : Z) :
  forall (fuel : nat) (rest : list string),
    Forall (placeable limit) rest -> (List.length rest <= fuel)%nat ->
    forall other : list (list string),
      concat other = rest -> Forall (within_limit limit) other ->
      (List.length (greedy fuel limit rest) <= List.length other)%nat.
Proof.
  induction fuel as [|fuel IH]; intros rest Hall Hf other Hc Hv; [simpl; lia|].
  destruct rest as [|t rest]; [simpl; lia|].
  cbn [greedy]. set (b := batch_prefix limit 0 (t :: rest)).
  assert (b <> []) as Hne by (apply batch_prefix_nonempty; now inversion Hall).
  pose proof (batch_prefix_split limit 0 (t :: rest)) as Hsplit. fold b in Hsplit.
  destruct other as [|b1 other]; [discriminate|].
  inversion Hv as [|? ? Hb1 Hother]; subst. cbn [concat] in Hc.
  assert (List.length b1 <= List.length b)%nat as Hlen.
  { unfold b. rewrite <- Hc. apply batch_prefix_longest. unfold within_limit in Hb1. lia. }
  destruct (drop_from_batches limit other Hother (List.length b - List.length b1)%nat)
    as [bs' [Hc' [Hv' Hl']]].
  assert (skipn (List.length b) (t :: rest) = concat bs') as Hrest.
  { rewrite Hc'. rewrite <- Hc. rewrite skipn_app.
    rewrite (skipn_all2 b1) by lia. reflexivity. }
  rewrite Hrest. cbn [List.length].
  assert (List.length (greedy fuel limit (concat bs')) <= List.length bs')%nat; [|lia].
  apply IH; try assumption; try reflexivity.
  - rewrite <- Hrest. now apply Forall_skipn_placeable.
  - rewrite <- Hrest.
    assert (List.length (t :: rest) =
            List.length b + List.length (skipn (List.length b) (t :: rest)))%nat as Hl
      by (rewrite Hsplit at 1; apply length_app).
    destruct b; [congruence|]. simpl in *. lia.
Qed.

(** *** The claims about the batcher *)

(** The inner loop at a text that does not fit: it steps [j] back. *)
Lemma pack_first_refused (limit : Z) (fuel : nat) (texts : list string) (j total : Z)
  (text : string) :
  index texts j = Ok text -> 0 < len text <= limit -> limit <= total + len text ->
  pack (S fuel) limit texts j total = Ok (j - 1, total).
Proof.
  intros Hi Hlen Hfull. cbn [pack]. rewrite Hi. cbn [bind]. unfold Assert.
  destruct (len text >? 0) eqn:E0; [|lia].
  destruct (len text <=? limit) eqn:E1; [|lia]. cbn [bind].
  destruct (total + len text >=? limit) eqn:E2; [reflexivity | lia].
Qed.

(** C1: a text as long as the limit makes the batcher fail.  Alone in the
    list it is refused as the first text of its batch, which leaves [j]
    below [i], and the assertion [j >= i] fails before any request; anywhere
    in a list it keeps the batcher from returning embeddings. *)
Theorem CreateEmbeddings_text_of_limit_length (limit : Z) (c : Client) (s : string) :
  0 < limit -> len s = limit ->
  CreateEmbeddings limit c [s] = (Panic (AssertionFailed "j >= i"), c) /\
  forall (c1 : Client) (texts : list string), In s texts ->
    forall (es : list Embedding) (c' : Client),
      CreateEmbeddings limit c1 texts <> (Ok es, c').
Proof.
  intros Hpos Hlen. split.
  - assert (next_batch limit [s] 0 = Panic (AssertionFailed "j >= i")) as Hn.
    { unfold next_batch.
      rewrite (pack_first_refused limit (List.length [s]) [s] 0 0 s); try lia;
        reflexivity. }
    unfold CreateEmbeddings. change (slen [s] =? 0) with false. cbv iota.
    change (List.length [s]) with 1%nat. cbn [batch_loop].
    change (0 <? slen [s]) with true. cbv iota. rewrite Hn. reflexivity.
  - intros c1 texts Hin es c' H. apply CreateEmbeddings_ok_placeable in H.
    rewrite List.Forall_forall in H. apply H in Hin. unfold placeable in Hin. lia.
Qed.

Lemma CreateEmbeddings_text_of_limit_length_witness :
  0 < chars_of_tokens 8192 /\
  len (str_repeat "x" (Z.to_nat 25395)) = chars_of_tokens 8192 /\
  CreateEmbeddings (chars_of_tokens 8192) length_service [str_repeat "x" (Z.to_nat 25395)] =
    (Panic (AssertionFailed "j >= i"), length_service).
Proof.
  split; [vm_compute; reflexivity|]. split; [vm_compute; reflexivity|].
  apply (CreateEmbeddings_text_of_limit_length
           (chars_of_tokens 8192) length_service (str_repeat "x" (Z.to_nat 25395)));
    vm_compute; reflexivity.
Defined.

(** C5, as the claim words it, fails twice.  An empty text is within the
    per-item limit and the batcher fails on it.  And the requests are runs
    of consecutive texts: for texts of 5, 6 and 4 bytes and a limit of 10
    the batcher sends three requests, though the first and the third text
    fit one request together. *)
Lemma batcher_not_as_specified :
  (Forall (fun text => len text <= 10) [EmptyString] /\
   ~ batcher_as_specified 10 length_embedding length_service [EmptyString]) /\
  (Forall (fun text => len text <= 10) ["abcde"; "abcdef"; "abcd"] /\
   ~ batcher_as_specified 10 length_embedding length_service ["abcde"; "abcdef"; "abcd"]).
Proof.
  split; split.
  - repeat constructor. vm_compute. discriminate.
  - intros [batches [Hrun _]]. vm_compute in Hrun. discriminate.
  - repeat constructor; vm_compute; discriminate.
  - intros [batches [Hrun [_ Hmin]]].
    assert (sent (snd (CreateEmbeddings 10 length_service ["abcde"; "abcdef"; "abcd"])) =
            [["abcde"]; ["abcdef"]; ["abcd"]]) as Hsent by (vm_compute; reflexivity).
    rewrite Hrun in Hsent. cbn [snd sent length_service app] in Hsent. subst batches.
    specialize (Hmin [["abcde"; "abcd"]; ["abcdef"]]).
    cbn [List.length concat app] in Hmin.
    assert (3 <= 2)%nat; [|lia]. apply Hmin.
    + apply perm_skip. apply perm_swap.
    + repeat constructor; vm_compute; reflexivity.
Qed.

(** C5, amended: for texts that are not empty and shorter than the limit,
    and a service that replies one embedding per text of a request, in
    order, the batcher returns the embedding of every text, in the order of
    the texts; its requests are runs of consecutive texts that cover the
    list in order, none empty, each of total length strictly below the
    limit; and no way of cutting the list into consecutive runs of total
    length below the limit has fewer runs. *)
Theorem CreateEmbeddings_greedy_batches (limit : Z) (embed : string -> Embedding)
  (c : Client) (texts : list string) :
  Forall (placeable limit) texts ->
  (forall history inputs, respond c history inputs = Data (map embed inputs)) ->
  exists batches : list (list string),
    CreateEmbeddings limit c texts =
      (Ok (map embed texts), mkClient (respond c) (sent c ++ batches)) /\
    concat batches = texts /\
    Forall (fun b => b <> [] /\ within_limit limit b) batches /\
    forall other : list (list string),
      concat other = texts -> Forall (within_limit limit) other ->
      (List.length batches <= List.length other)%nat.
Proof.
  intros Hall Hc. exists (greedy (List.length texts) limit texts).
  destruct (greedy_concat limit (List.length texts) texts Hall (Nat.le_refl _)) as [Hcat Hv].
  split; [|split; [exact Hcat|split; [exact Hv|]]].
  - unfold CreateEmbeddings. destruct (slen texts =? 0) eqn:E0.
    + destruct texts as [|t texts];
        [|rewrite slen_cons in E0; pose proof (slen_nonneg texts); lia].
      simpl. now rewrite app_nil_r, client_eta.
    + pose proof (batch_loop_greedy limit embed (List.length texts) texts [] c []
                    Hall (Nat.le_refl _) Hc) as Hrun.
      cbn [app] in Hrun. change (slen (@nil string)) with 0 in Hrun. rewrite Hrun.
      unfold Assert.
      destruct (slen (map embed texts) =? slen texts) eqn:E1; [reflexivity|].
      unfold slen in E1. rewrite length_map in E1. lia.
  - intros other Ho Hvo.
    now apply (greedy_minimal limit (List.length texts) texts Hall (Nat.le_refl _)).
Qed.

Lemma CreateEmbeddings_greedy_batches_witness :
  exists batches : list (list string),
    CreateEmbeddings 10 length_service ["abcde"; "abcd"; "abcdef"] =
      (Ok (map length_embedding ["abcde"; "abcd"; "abcdef"]),
       mkClient (respond length_service) (sent length_service ++ batches)) /\
    concat batches = ["abcde"; "abcd"; "abcdef"] /\
    Forall (fun b => b <> [] /\ within_limit 10 b) batches /\
    forall other : list (list string),
      concat other = ["abcde"; "abcd"; "abcdef"] -> Forall (within_limit 10) other ->
      (List.length batches <= List.length other)%nat.
Proof.
  apply (CreateEmbeddings_greedy_batches 10 length_embedding length_service
           ["abcde"; "abcd"; "abcdef"]).
  - repeat constructor; vm_compute; reflexivity.
  - intros history inputs. reflexivity.
Defined.


(** With [maxLen = 1] and a paragraph that is not empty the chunker has no
    result, however much fuel it is given. *)
Example chunks_fuel_one_diverges (fuel : nat) : chunks_fuel fuel "a" 1 = OutOfFuel.
Proof.
  unfold chunks_fuel. change (Split "a" blank_line) with ["a"].
  cbn [chunk_paragraphs]. now rewrite chunk_paragraph_diverges.
Qed.


(** ** The context assembler *)

(** The context is made of whole blocks, those of the first chunks in
    ranked order: no chunk is cut. *)
Lemma Answer_context_whole_blocks (maxSize : Z) :
  forall (chunks : list Chunk) (context : string),
    exists n : nat,
      Answer_context chunks maxSize context =
        context +:+ Join (map context_block (firstn n chunks)) EmptyString.
Proof.
  intros chunks. induction chunks as [|chunk rest IH]; intros context.
  - exists O. simpl. now rewrite app_string_empty_r.
  - cbn [Answer_context].
    destruct (len (context +:+ context_block chunk) + len promptTmpl >? maxSize).
    + exists 1%nat. reflexivity.
    + destruct (IH (context +:+ context_block chunk)) as [n Hn]. exists (S n).
      rewrite Hn. cbn [firstn map]. rewrite app_string_assoc.
      destruct (map context_block (firstn n rest)) as [|b bs] eqn:E.
      * simpl. now rewrite app_string_empty_r.
      * rewrite (Join_cons (context_block chunk) (b :: bs)) by discriminate.
        now rewrite app_empty_l.
Qed.

Lemma Answer_context_length (maxSize : Z) :
  forall (chunks : list Chunk) (context : string),
    len context <= len (Answer_context chunks maxSize context).
Proof.
  intros chunks context. destruct (Answer_context_whole_blocks maxSize chunks context) as [n ->].
  rewrite len_app. pose proof (len_nonneg (Join (map context_block (firstn n chunks)) EmptyString)). lia.
Qed.

(** C2: the loop of [Answer] appends a block before it compares the size
    with the budget, so the block of the first chunk is in the context
    whatever the budget: a first block larger than the budget gives a
    context larger than the budget. *)
Theorem Answer_context_exceeds_budget (chunk : Chunk) (rest : list Chunk) (maxSize : Z) :
  maxSize < len (context_block chunk) ->
  Answer_context (chunk :: rest) maxSize EmptyString = context_block chunk /\
  maxSize < len (Answer_context (chunk :: rest) maxSize EmptyString).
Proof.
  intros H. cbn [Answer_context]. rewrite app_empty_l.
  assert (0 <= len promptTmpl) as Hp by apply len_nonneg.
  destruct (len (context_block chunk) + len promptTmpl >? maxSize) eqn:E; [|lia].
  split; [reflexivity | exact H].
Qed.

Lemma Answer_context_exceeds_budget_witness :
  Answer_maxSize default_db "q" = 6347 /\
  len (Answer_context [long_chunk] (Answer_maxSize default_db "q") EmptyString) = 7014.
Proof.
  split; [vm_compute; reflexivity|].
  assert (Answer_maxSize default_db "q" < len (context_block long_chunk)) as H
    by (vm_compute; reflexivity).
  rewrite (proj1 (Answer_context_exceeds_budget long_chunk [] _ H)).
  vm_compute. reflexivity.
Defined.

(** ** The similarity engine *)

Lemma cosine_sums_short (b : list float) :
  forall (rest : list float) (i : Z) (dot magA magB : float),
    0 <= i <= slen b -> slen b < i + slen rest ->
    cosine_sums rest b i dot magA magB = Panic IndexOutOfRange.
Proof.
  induction rest as [|ai rest IH]; intros i dot magA magB Hi Hlt.
  - rewrite slen_nil in Hlt. lia.
  - cbn [cosine_sums]. rewrite slen_cons in Hlt.
    destruct (Z.eq_dec i (slen b)) as [->|Hne].
    + unfold index. pose proof (slen_nonneg b).
      destruct (slen b <? 0) eqn:E; [lia|].
      replace (Z.to_nat (slen b)) with (List.length b) by (unfold slen; lia).
      assert (nth_error b (List.length b) = None) as -> by (apply nth_error_None; lia).
      reflexivity.
    + destruct (index_in_range b i ltac:(lia)) as [bi [-> _]]. cbn [bind].
      apply IH; lia.
Qed.

Lemma cosine_sums_outcome (b : list float) :
  forall (rest : list float) (i : Z) (dot magA magB : float),
    (exists sums, cosine_sums rest b i dot magA magB = Ok sums) \/
    cosine_sums rest b i dot magA magB = Panic IndexOutOfRange.
Proof.
  induction rest as [|ai rest IH]; intros i dot magA magB; cbn [cosine_sums]; [eauto|].
  unfold index. destruct (i <? 0); [now right|].
  destruct (nth_error b (Z.to_nat i)); cbn [bind]; [apply IH | now right].
Qed.

Lemma cosine_sums_equal_lengths (b : list float) :
  forall (rest : list float) (i : Z) (dot magA magB : float),
    0 <= i -> i + slen rest = slen b ->
    exists sums, cosine_sums rest b i dot magA magB = Ok sums.
Proof.
  induction rest as [|ai rest IH]; intros i dot magA magB Hi Hlen; cbn [cosine_sums]; [eauto|].
  rewrite slen_cons in Hlen. pose proof (slen_nonneg rest).
  destruct (index_in_range b i ltac:(lia)) as [bi [-> _]]. cbn [bind]. apply IH; lia.
Qed.

Lemma Similarity_outcome (a b : list float) :
  (exists x, Similarity a b = Ok x) \/ Similarity a b = Panic IndexOutOfRange.
Proof.
  unfold Similarity, cosine.
  destruct (cosine_sums_outcome b a 0 0%float 0%float 0%float) as [[sums ->]| ->];
    cbn [bind]; eauto.
Qed.

Lemma Similarity_short (a b : list float) :
  slen b < slen a -> Similarity a b = Panic IndexOutOfRange.
Proof.
  intros H. unfold Similarity, cosine. pose proof (slen_nonneg b).
  now rewrite cosine_sums_short by lia.
Qed.

Lemma score_chunks_short (embedding : list float) :
  forall (chunks : list Chunk) (sims : list Sim),
    Exists (fun chunk => slen (chunkEmbedding chunk) < slen embedding) chunks ->
    score_chunks embedding chunks sims = Panic IndexOutOfRange.
Proof.
  intros chunks. induction chunks as [|chunk rest IH]; intros sims H; [inversion H|].
  cbn [score_chunks]. inversion H as [? ? Hshort|? ? Hrest]; subst.
  - now rewrite (Similarity_short _ _ Hshort).
  - destruct (Similarity_outcome embedding (chunkEmbedding chunk)) as [[x ->]| ->];
      cbn [bind]; [now apply IH | reflexivity].
Qed.

Lemma similarity_returns (a b : list float) : exists x, similarity a b = Ok x.
Proof.
  unfold similarity. destruct (slen a =? slen b) eqn:E; cbn [negb]; [|eauto].
  unfold cosine.
  destruct (cosine_sums_equal_lengths b a 0 0%float 0%float 0%float) as [sums ->];
    [lia | lia |]. cbn [bind]. eauto.
Qed.

(** C3: [similarity] of [v3/util.go] returns 0 for vectors of different
    lengths and never fails.  [Similarity] of the root package, the one the
    ranking calls, has no such test: when the second vector is the shorter
    one it reads past its end and panics, when the first is the shorter one it
    scores the common prefix; so ranking panics as soon as a chunk's
    embedding is shorter than the query's. *)
Theorem similarity_of_different_lengths :
  (forall a b : list float, slen a <> slen b -> similarity a b = Ok 0%float) /\
  (forall a b : list float, exists x, similarity a b = Ok x) /\
  (forall a b : list float, slen b < slen a -> Similarity a b = Panic IndexOutOfRange) /\
  Similarity [1%float] [1%float; 0%float] = Ok 1%float /\
  (forall (sort_Slice : list Sim -> list Sim) (g : Grokker) (embedding : list float) (K : Z),
     Exists (fun chunk => slen (chunkEmbedding chunk) < slen embedding) (Chunks g) ->
     SimilarChunks sort_Slice g embedding K = Panic IndexOutOfRange).
Proof.
  split; [|split; [|split; [|split]]].
  - intros a b H. unfold similarity. destruct (slen a =? slen b) eqn:E; [lia | reflexivity].
  - apply similarity_returns.
  - apply Similarity_short.
  - vm_compute. reflexivity.
  - intros sort_Slice g embedding K H. unfold SimilarChunks.
    now rewrite (score_chunks_short embedding (Chunks g) [] H).
Qed.

(** The failing input of C3: a query embedding of two numbers and a stored
    chunk whose embedding has one. *)
Example SimilarChunks_panics :
  SimilarChunks (fun sims => sims)
    (mkGrokker version "/kb" [mkDocument EmptyString "a.txt"]
       [mkChunk (mkDocument EmptyString "a.txt") "A" [1%float]] None EmptyString EmptyString 0 0)
    [1%float; 0%float] 0 = Panic IndexOutOfRange.
Proof. vm_compute. reflexivity. Qed.

(** ** Garbage collection *)

Lemma referenced_spec (docs : list Document) (chunk : Chunk) :
  referenced docs chunk = true <->
  In (RelPath (chunkDocument chunk)) (map RelPath docs).
Proof.
  induction docs as [|doc docs IH]; simpl.
  - split; [discriminate | intros []].
  - destruct (String.eqb (RelPath doc) (RelPath (chunkDocument chunk))) eqn:E.
    + apply String.eqb_eq in E. split; [now left | reflexivity].
    + apply String.eqb_neq in E. rewrite IH. split; [now right | intros [H|H]; congruence].
Qed.

Lemma gc_loop_filter (docs : list Document) :
  forall chunks newChunks : list Chunk,
    gc_loop docs chunks newChunks = newChunks ++ List.filter (referenced docs) chunks.
Proof.
  intros chunks. induction chunks as [|chunk rest IH]; intros newChunks; simpl.
  - now rewrite app_nil_r.
  - rewrite IH. destruct (referenced docs chunk); [now rewrite <- app_assoc | reflexivity].
Qed.

(** The count [GC] logs is the number of chunks whose document is not in
    the list. *)
Lemma GC_collected_orphans (g : Grokker) :
  GC_collected g =
    slen (List.filter (fun chunk => negb (referenced (Documents g) chunk)) (Chunks g)).
Proof.
  unfold GC_collected, GC. cbn [Chunks set_Chunks]. rewrite gc_loop_filter. cbn [app].
  unfold slen. induction (Chunks g) as [|chunk rest IH]; [reflexivity|].
  cbn [List.filter List.length].
  pose proof (List.filter_length_le (referenced (Documents g)) rest) as Hle.
  destruct (referenced (Documents g) chunk); cbn [negb List.length]; lia.
Qed.

Lemma forget_loop_first_match (os : OS) (g : Grokker) (path abs : string)
  (D : Document) (after : list Document) :
  filepath_Abs os path = Ok abs ->
  matches_path os g path abs D ->
  forall before passed : list Document,
    (forall d, In d before -> ~ matches_path os g path abs d) ->
    forget_loop os g path passed (before ++ D :: after) = Ok (passed ++ before ++ after).
Proof.
  intros Habs HD. induction before as [|d before IH]; intros passed Hnone.
  - cbn [app forget_loop]. rewrite Habs. cbn [bind].
    destruct HD as [HD|HD].
    + apply String.eqb_eq in HD. rewrite HD.
      destruct (String.eqb (AbsPath os g D) abs); reflexivity.
    + apply String.eqb_eq in HD. rewrite HD. reflexivity.
  - cbn [app forget_loop]. rewrite Habs. cbn [bind].
    assert (~ matches_path os g path abs d) as Hd by (apply Hnone; now left).
    unfold matches_path in Hd.
    destruct (String.eqb (AbsPath os g d) abs) eqn:E1;
      [apply String.eqb_eq in E1; tauto|].
    destruct (String.eqb (RelPath d) path) eqn:E2;
      [apply String.eqb_eq in E2; tauto|].
    rewrite IH by (intros d' Hd'; apply Hnone; now right).
    now rewrite <- app_assoc.
Qed.

(** C7: a GC pass keeps the document list and keeps, in order, exactly the
    chunks whose document's path is in the list, removing the others.  After
    [ForgetDocument] has removed the document [D] (the first of the list that
    matches the path) from a list without repeated paths, a GC pass removes,
    of the chunks whose document was tracked, exactly those of [D]. *)
Theorem GC_removes_exactly_orphans :
  (forall g : Grokker,
     Documents (GC g) = Documents g /\
     Chunks (GC g) = List.filter (referenced (Documents g)) (Chunks g) /\
     (forall chunk : Chunk,
        In chunk (Chunks (GC g)) <->
        In chunk (Chunks g) /\
        In (RelPath (chunkDocument chunk)) (map RelPath (Documents g)))) /\
  (forall (os : OS) (g : Grokker) (path abs : string)
          (before : list Document) (D : Document) (after : list Document),
     Documents g = before ++ D :: after ->
     List.NoDup (map RelPath (Documents g)) ->
     filepath_Abs os path = Ok abs ->
     matches_path os g path abs D ->
     (forall d, In d before -> ~ matches_path os g path abs d) ->
     exists g' : Grokker,
       ForgetDocument os g path = (Ok tt, g') /\
       Documents g' = before ++ after /\
       Chunks g' = Chunks g /\
       forall chunk : Chunk,
         In chunk (Chunks g) ->
         In (RelPath (chunkDocument chunk)) (map RelPath (Documents g)) ->
         (In chunk (Chunks (GC g')) <-> RelPath (chunkDocument chunk) <> RelPath D)).
Proof.
  assert (forall g : Grokker,
     Documents (GC g) = Documents g /\
     Chunks (GC g) = List.filter (referenced (Documents g)) (Chunks g) /\
     (forall chunk : Chunk,
        In chunk (Chunks (GC g)) <->
        In chunk (Chunks g) /\
        In (RelPath (chunkDocument chunk)) (map RelPath (Documents g)))) as HGC.
  { intros g. unfold GC. cbn [Documents Chunks set_Chunks]. rewrite gc_loop_filter.
    cbn [app]. split; [reflexivity|]. split; [reflexivity|].
    intros chunk. rewrite List.filter_In, referenced_spec. tauto. }
  split; [exact HGC|].
  intros os g path abs before D after Hdocs Hnodup Habs HD Hnone.
  exists (set_Documents g (before ++ after)).
  unfold ForgetDocument. rewrite Hdocs.
  rewrite (forget_loop_first_match os g path abs D after Habs HD before [] Hnone).
  cbn [app]. split; [reflexivity|]. split; [reflexivity|]. split; [reflexivity|].
  intros chunk Hchunk Htracked.
  destruct (HGC (set_Documents g (before ++ after))) as [_ [_ Hiff]].
  cbn [Chunks Documents set_Documents] in Hiff. rewrite Hiff. clear Hiff.
  rewrite Hdocs, map_app in Hnodup. rewrite map_app in Htracked.
  cbn [map] in Hnodup, Htracked.
  rewrite map_app. split.
  - intros [_ Hin] Heq. apply List.NoDup_remove_2 in Hnodup. apply Hnodup. congruence.
  - intros Hne. split; [assumption|].
    apply List.in_app_iff in Htracked. apply List.in_app_iff.
    destruct Htracked as [H|[H|H]]; [now left | congruence | now right].
Qed.

Lemma GC_removes_exactly_orphans_witness :
  exists g' : Grokker,
    ForgetDocument example_os example_db "a.txt" = (Ok tt, g') /\
    Documents g' = [doc_b] /\
    Chunks g' = Chunks example_db /\
    forall chunk : Chunk,
      In chunk (Chunks example_db) ->
      In (RelPath (chunkDocument chunk)) (map RelPath (Documents example_db)) ->
      (In chunk (Chunks (GC g')) <-> RelPath (chunkDocument chunk) <> RelPath doc_a).
Proof.
  apply (proj2 GC_removes_exactly_orphans example_os example_db "a.txt" "/kb/a.txt"
           [] doc_a [doc_b]).
  - reflexivity.
  - repeat constructor; simpl; intuition discriminate.
  - reflexivity.
  - left. reflexivity.
  - intros d [].
Defined.

(** ** Loading *)

(** C8: a snapshot without a version tag counts as version 0.1.0; when the
    version a snapshot counts as is not the running one, loading without
    migration writes the mismatch to standard error and ends the process with
    status 1, returning no database, and loading for migration returns the
    database with that version. *)
Theorem Load_version_mismatch_is_fatal (g0 : Grokker) (root v : string) :
  snapshot_version (Version g0) v -> v <> version ->
  Load (Ok g0) (Ok root) false = Exits 1 (version_message v) /\
  exists g : Grokker,
    Load (Ok g0) (Ok root) true = Returns (Ok g) /\ Version g = v /\ Root g = root /\
    Documents g = Documents g0 /\ Chunks g = Chunks g0.
Proof.
  intros Hv Hne. unfold Load.
  destruct Hv as [[Htag ->]|[Htag ->]].
  - cbn [Version set_Root]. rewrite Htag. cbn [String.eqb Version set_Version negb].
    split; [reflexivity|]. eexists. split; [reflexivity|]. repeat split.
  - cbn [Version set_Root].
    destruct (String.eqb (Version g0) EmptyString) eqn:E; [apply String.eqb_eq in E; congruence|].
    cbn [Version set_Root].
    destruct (String.eqb (Version g0) version) eqn:E2;
      [apply String.eqb_eq in E2; congruence|].
    cbn [negb]. split; [reflexivity|]. eexists. split; [reflexivity|]. repeat split.
Qed.

Lemma Load_version_mismatch_is_fatal_witness :
  Load (Ok (mkGrokker EmptyString EmptyString [doc_a] [] None EmptyString EmptyString 0 0)) (Ok "/kb") false =
    Exits 1 (version_message "0.1.0") /\
  exists g : Grokker,
    Load (Ok (mkGrokker EmptyString EmptyString [doc_a] [] None EmptyString EmptyString 0 0)) (Ok "/kb") true =
      Returns (Ok g) /\
    Version g = "0.1.0" /\ Root g = "/kb" /\
    Documents g = Documents (mkGrokker EmptyString EmptyString [doc_a] [] None EmptyString EmptyString 0 0) /\
    Chunks g = Chunks (mkGrokker EmptyString EmptyString [doc_a] [] None EmptyString EmptyString 0 0).
Proof.
  apply (Load_version_mismatch_is_fatal (mkGrokker EmptyString EmptyString [doc_a] [] None EmptyString EmptyString 0 0)
           "/kb" "0.1.0").
  - left. split; reflexivity.
  - discriminate.
Defined.

(** A snapshot of the running version loads. *)
Example Load_current_version :
  exists g : Grokker,
    Load (Ok (mkGrokker version EmptyString [doc_a] [] None "gpt-4" EmptyString 0 0)) (Ok "/kb") false =
      Returns (Ok g) /\
    modelName g = "gpt-4" /\ maxChunkLen g = 25395 /\ maxEmbeddingChunkLen g = 25395.
Proof. eexists. split; [vm_compute; reflexivity|]. repeat split. Qed.

(** ** The model table and model upgrades *)

Lemma NewModels_no_empty_name : Available NewModels !! EmptyString = None.
Proof. vm_compute. reflexivity. Qed.

Lemma findModel_inv (ms : Models) (model name : string) (m : Model) :
  findModel ms model = Ok (name, m) ->
  name = (if String.eqb model EmptyString then DefaultModel else model) /\
  Available ms !! name = Some m.
Proof.
  unfold findModel.
  destruct (Available ms !! (if String.eqb model EmptyString then DefaultModel else model)) eqn:E;
    [|discriminate].
  intros H. injection H as <- <-. split; [reflexivity | exact E].
Qed.

Lemma findModel_found (ms : Models) (name : string) (m : Model) :
  name <> EmptyString -> Available ms !! name = Some m ->
  findModel ms name = Ok (name, m).
Proof.
  intros Hne H. unfold findModel.
  destruct (String.eqb name EmptyString) eqn:E; [apply String.eqb_eq in E; congruence|].
  now rewrite H.
Qed.

Lemma findModel_NewModels_name (model name : string) (m : Model) :
  findModel NewModels model = Ok (name, m) ->
  name <> EmptyString /\ Available NewModels !! name = Some m.
Proof.
  intros H. apply findModel_inv in H. destruct H as [_ H]. split; [|exact H].
  intros ->. rewrite NewModels_no_empty_name in H. discriminate.
Qed.

Lemma initModel_ok_inv (g0 : Grokker) (cur : string) (g : Grokker) :
  initModel g0 cur = (Ok tt, g) ->
  exists (name : string) (m0 : Model),
    findModel NewModels cur = Ok (name, m0) /\ Root g0 <> EmptyString /\
    g = initialised g0 name m0.
Proof.
  unfold initModel, Assert.
  destruct (String.eqb (Root g0) EmptyString) eqn:E; cbn [negb]; [discriminate|].
  apply String.eqb_neq in E.
  destruct (findModel NewModels cur) as [[name m0]| | |]; try discriminate.
  intros H. injection H as <-. exists name, m0. repeat split. exact E.
Qed.

Lemma initModel_ok (g : Grokker) (model name : string) (m : Model) :
  Root g <> EmptyString -> findModel NewModels model = Ok (name, m) ->
  initModel g model = (Ok tt, initialised g name m).
Proof.
  intros Hroot Hm. unfold initModel, Assert.
  destruct (String.eqb (Root g) EmptyString) eqn:E; [apply String.eqb_eq in E; congruence|].
  cbn [negb]. now rewrite Hm.
Qed.

(** C9: on a database set up by [initModel], the current model is found and
    active; switching to a model of the table with a smaller token limit
    returns the error "cannot downgrade" and changes nothing in the database
    (the prior model stays active, the length limits stay); switching to one
    with an equal or larger limit succeeds: that model becomes the active one
    and the length limits are derived anew from its token limit. *)
Theorem UpgradeModel_capacity (g0 : Grokker) (cur : string) (g : Grokker)
  (target tname : string) (m : Model) :
  initModel g0 cur = (Ok tt, g) ->
  findModel NewModels target = Ok (tname, m) ->
  exists oldM : Model,
    getModel g = Ok (modelName g, oldM) /\
    is_active g (modelName g) /\
    (TokenLimit m < TokenLimit oldM ->
       UpgradeModel g target = (Err (CannotDowngrade (modelName g) tname), g)) /\
    (TokenLimit oldM <= TokenLimit m ->
       exists g' : Grokker,
         UpgradeModel g target = (Ok tt, g') /\
         modelName g' = tname /\
         is_active g' tname /\
         maxChunkLen g' = chars_of_tokens (TokenLimit m) /\
         maxEmbeddingChunkLen g' = chars_of_tokens 8192 /\
         Documents g' = Documents g /\ Chunks g' = Chunks g /\ Version g' = Version g).
Proof.
  intros Hinit Htarget.
  apply initModel_ok_inv in Hinit. destruct Hinit as [name [m0 [Hcur [Hroot ->]]]].
  pose proof (findModel_NewModels_name _ _ _ Hcur) as [Hname Hlook].
  pose proof (findModel_NewModels_name _ _ _ Htarget) as [Htname Htlook].
  pose proof (findModel_inv _ _ _ _ Htarget) as [Hteq _].
  set (ms := mkModels (<[name := set_active m0 true]> (Available NewModels))).
  assert (getModel (initialised g0 name m0) = Ok (name, set_active m0 true)) as Hget.
  { unfold getModel. cbn [models initialised modelName].
    apply findModel_found; [assumption|]. cbn [Available]. apply lookup_insert_eq. }
  exists (set_active m0 true). cbn [modelName initialised].
  split; [exact Hget|]. split.
  { exists ms, (set_active m0 true). cbn [models initialised].
    repeat split. cbn [Available ms]. apply lookup_insert_eq. }
  assert (exists m', findModel ms target = Ok (tname, m') /\ TokenLimit m' = TokenLimit m)
    as [m' [Hfind Hlimit]].
  { unfold findModel. rewrite <- Hteq. cbn [Available ms].
    destruct (decide (name = tname)) as [->|Hne].
    - rewrite lookup_insert_eq. exists (set_active m0 true). split; [reflexivity|].
      cbn [TokenLimit set_active]. congruence.
    - rewrite lookup_insert_ne by assumption. rewrite Htlook. eauto. }
  cbn [TokenLimit set_active].
  split.
  - intros Hlt. unfold UpgradeModel. cbn [models initialised]. fold ms.
    rewrite Hfind. rewrite Hget.
    destruct (TokenLimit m' <? TokenLimit (set_active m0 true)) eqn:E; [reflexivity|].
    cbn [TokenLimit set_active] in E. lia.
  - intros Hle. exists (initialised (initialised g0 name m0) tname m).
    split.
    + unfold UpgradeModel. cbn [models initialised]. fold ms.
      rewrite Hfind. rewrite Hget.
      destruct (TokenLimit m' <? TokenLimit (set_active m0 true)) eqn:E;
        [cbn [TokenLimit set_active] in E; lia|].
      rewrite (initModel_ok (initialised g0 name m0) tname tname m).
      * reflexivity.
      * exact Hroot.
      * now apply findModel_found.
    + cbn [modelName initialised maxChunkLen maxEmbeddingChunkLen Documents Chunks Version].
      repeat split.
      exists (mkModels (<[tname := set_active m true]> (Available NewModels))),
             (set_active m true).
      cbn [models initialised Available]. repeat split. apply lookup_insert_eq.
Qed.

Lemma UpgradeModel_capacity_witness :
  initModel default_db "gpt-4" = (Ok tt, gpt4_db) /\
  UpgradeModel gpt4_db "gpt-3.5-turbo" =
    (Err (CannotDowngrade "gpt-4" "gpt-3.5-turbo"), gpt4_db).
Proof.
  assert (initModel default_db "gpt-4" = (Ok tt, gpt4_db)) as Hinit
    by (vm_compute; reflexivity).
  split; [exact Hinit|].
  destruct (UpgradeModel_capacity default_db "gpt-4" gpt4_db
              "gpt-3.5-turbo" "gpt-3.5-turbo"
              (mkModel "gpt-3.5-turbo" 4096 "gpt-3.5-turbo" false) Hinit)
    as [oldM [Hget [_ [Hdown _]]]].
  - vm_compute. reflexivity.
  - assert (getModel gpt4_db = Ok ("gpt-4", mkModel "gpt-4" 8192 "gpt-4" true)) as E
      by (vm_compute; reflexivity).
    rewrite E in Hget. injection Hget as <-. apply Hdown. vm_compute. reflexivity.
Defined.

Example UpgradeModel_down_and_up :
  fst (UpgradeModel (snd (initModel default_db "gpt-4")) "gpt-3.5-turbo") =
    Err (CannotDowngrade "gpt-4" "gpt-3.5-turbo") /\
  maxChunkLen (snd (UpgradeModel (snd (initModel default_db "gpt-4")) "gpt-3.5-turbo")) = 25395 /\
  fst (UpgradeModel (snd (initModel default_db "gpt-4")) "gpt-4-32k") = Ok tt /\
  maxChunkLen (snd (UpgradeModel (snd (initModel default_db "gpt-4")) "gpt-4-32k")) = 101580 /\
  fst (UpgradeModel (snd (initModel default_db "gpt-4")) "gpt-5") = Err (ModelNotFound "gpt-5").
Proof. repeat split; vm_compute; reflexivity. Qed.

(** ** The synchroniser *)

Lemma take_match_perm (s : string) :
  forall old old' : list Chunk,
    take_match s old = Some old' -> Permutation (map Text old) (s :: map Text old').
Proof.
  induction old as [|oc old IH]; intros old' H; simpl in H; [discriminate|].
  destruct (String.eqb (Text oc) s) eqn:E.
  - apply String.eqb_eq in E. injection H as <-. cbn [map]. now rewrite E.
  - destruct (take_match s old) as [rest|] eqn:Et; [|discriminate].
    injection H as <-. cbn [map]. rewrite (IH rest eq_refl). apply perm_swap.
Qed.

Lemma take_match_in (s : string) :
  forall old : list Chunk,
    In s (map Text old) -> exists old', take_match s old = Some old'.
Proof.
  induction old as [|oc old IH]; intros H; simpl in *; [contradiction|].
  destruct (String.eqb (Text oc) s) eqn:E; [eauto|].
  apply String.eqb_neq in E. destruct H as [H|H]; [congruence|].
  destruct (IH H) as [old' ->]. eauto.
Qed.

(** What the loop over the new chunk strings computes: the strings split
    into those matched, one stored chunk each, and the new ones, queued in
    order. *)
Lemma diff_loop_split :
  forall (strings : list string) (old : list Chunk) (updated : bool) (queued : list string)
         (updated' : bool) (queued' : list string) (left : list Chunk),
    diff_loop strings old updated queued = (updated', queued', left) ->
    exists matched news : list string,
      queued' = queued ++ news /\
      Permutation strings (matched ++ news) /\
      Permutation (map Text old) (matched ++ map Text left) /\
      (updated' = true <-> updated = true \/ news <> []).
Proof.
  induction strings as [|s more IH]; intros old updated queued updated' queued' left H;
    cbn [diff_loop] in H.
  - injection H as <- <- <-. exists [], []. rewrite app_nil_r. cbn [app].
    repeat split; try reflexivity; [tauto | intros [?|?]; congruence].
  - destruct (take_match s old) as [old'|] eqn:Et.
    + apply IH in H. destruct H as [matched [news [Hq [Hs [Ho Hu]]]]].
      exists (s :: matched), news. repeat split; try tauto.
      * cbn [app]. now apply perm_skip.
      * apply take_match_perm in Et. rewrite Et. cbn [app]. now apply perm_skip.
    + apply IH in H. destruct H as [matched [news [Hq [Hs [Ho Hu]]]]].
      exists matched, (s :: news). repeat split.
      * rewrite Hq. now rewrite <- app_assoc.
      * now apply Permutation_cons_app.
      * exact Ho.
      * intros _. right. discriminate.
      * intros _. apply Hu. now left.
Qed.

(** When the stored chunks hold a text for every chunk string, each its
    own, nothing is queued. *)
Lemma diff_loop_all_matched :
  forall (strings : list string) (old : list Chunk) (extra : list string)
         (updated : bool) (queued : list string),
    Permutation (map Text old) (strings ++ extra) ->
    exists left, diff_loop strings old updated queued = (updated, queued, left).
Proof.
  induction strings as [|s more IH]; intros old extra updated queued H; cbn [diff_loop].
  - eauto.
  - assert (In s (map Text old)) as Hin.
    { apply (Permutation_in s (Permutation_sym H)). now left. }
    destruct (take_match_in s old Hin) as [old' Et]. rewrite Et.
    apply (IH old' extra). apply take_match_perm in Et.
    rewrite Et in H. cbn [app] in H. now apply Permutation_cons_inv in H.
Qed.

Lemma existing_chunks_app (doc : Document) (l1 l2 : list Chunk) :
  existing_chunks doc (l1 ++ l2) = existing_chunks doc l1 ++ existing_chunks doc l2.
Proof.
  induction l1 as [|ch l1 IH]; simpl; [reflexivity|].
  destruct (String.eqb (RelPath (chunkDocument ch)) (RelPath doc)); simpl; now rewrite IH.
Qed.

Lemma existing_chunks_own (doc : Document) (l : list Chunk) :
  Forall (fun ch => chunkDocument ch = doc) l -> existing_chunks doc l = l.
Proof.
  induction 1 as [|ch l Hch Hl IH]; simpl; [reflexivity|].
  rewrite Hch, String.eqb_refl. now rewrite IH.
Qed.

Lemma append_chunks_ok_inv (doc : Document) (embeddings : list Embedding) :
  forall (news : list string) (i : Z) (chunks chunks' : list Chunk),
    append_chunks doc news embeddings i chunks = Ok chunks' ->
    exists new : list Chunk,
      chunks' = chunks ++ new /\ map Text new = news /\
      Forall (fun ch => chunkDocument ch = doc) new.
Proof.
  induction news as [|text more IH]; intros i cs cs' H; cbn [append_chunks] in H.
  - injection H as <-. exists []. rewrite app_nil_r. repeat split. constructor.
  - destruct (index embeddings i) as [e| | |]; cbn [bind] in H; try discriminate.
    apply IH in H. destruct H as [new [-> [Ht Hd]]].
    exists (mkChunk doc text e :: new). rewrite <- app_assoc. cbn [app map Text].
    repeat split; [now rewrite Ht | now constructor].
Qed.

(** C6: when [UpdateDocument] succeeds, the chunks it leaves are the former
    ones, untouched, followed by the new chunks of the document, and it
    returns true exactly when there is a new chunk; a second call right
    after it, with the files unchanged, returns false, sends no request to
    the embedding service and leaves the database as it is, every chunk with
    the embedding it had. *)
Theorem UpdateDocument_changed_iff_new_chunks (os : OS) (c : Client) (g : Grokker)
  (doc : Document) (updated : bool) (g1 : Grokker) (c1 : Client) :
  UpdateDocument os c g doc = (Ok updated, g1, c1) ->
  (exists new : list Chunk,
     Chunks g1 = Chunks g ++ new /\
     Forall (fun ch => chunkDocument ch = doc) new /\
     Documents g1 = Documents g /\
     (updated = true <-> new <> [])) /\
  UpdateDocument os c1 g1 doc = (Ok false, g1, c1).
Proof.
  intros H. unfold UpdateDocument in H.
  destruct (chunkStrings os g doc) as [strings| | |] eqn:Es; try discriminate.
  destruct (diff_loop strings (existing_chunks doc (Chunks g)) false [])
    as [[u news] left] eqn:Ed.
  destruct (CreateEmbeddings (maxEmbeddingChunkLen g) c news) as [[embs| | |] c'] eqn:Ec;
    try discriminate.
  destruct (append_chunks doc news embs 0 (Chunks g)) as [chunks'| | |] eqn:Ea;
    try discriminate.
  injection H as <- <- <-.
  apply append_chunks_ok_inv in Ea. destruct Ea as [new [-> [Htexts Hdoc]]].
  apply diff_loop_split in Ed. destruct Ed as [matched [news' [Hq [Hs [Ho Hu]]]]].
  cbn [app] in Hq. subst news'.
  split.
  - exists new. cbn [Chunks Documents set_Chunks]. repeat split; try assumption.
    + intros Hup Hnil. apply Hu in Hup. destruct Hup as [Hup|Hup]; [discriminate|].
      subst new. now apply Hup.
    + intros Hne. apply Hu. right. intros Hnil. rewrite Hnil in Htexts.
      destruct new; [congruence | discriminate].
  - unfold UpdateDocument.
    assert (chunkStrings os (set_Chunks g (Chunks g ++ new)) doc = Ok strings) as ->
      by exact Es.
    cbn [Chunks set_Chunks maxEmbeddingChunkLen].
    rewrite existing_chunks_app, (existing_chunks_own doc new Hdoc).
    destruct (diff_loop_all_matched strings (existing_chunks doc (Chunks g) ++ new)
                (map Text left) false []) as [left2 ->].
    + rewrite map_app, Htexts, Ho, Hs.
      rewrite <- !app_assoc. apply Permutation_app_head. apply Permutation_app_comm.
    + reflexivity.
Qed.

Lemma UpdateDocument_changed_iff_new_chunks_witness :
  UpdateDocument example_os length_service sync_db doc_a =
    (Ok true, sync_db_after, sync_client_after) /\
  UpdateDocument example_os sync_client_after sync_db_after doc_a =
    (Ok false, sync_db_after, sync_client_after).
Proof.
  assert (UpdateDocument example_os length_service sync_db doc_a =
            (Ok true, sync_db_after, sync_client_after)) as E
    by (vm_compute; reflexivity).
  split; [exact E|].
  exact (proj2 (UpdateDocument_changed_iff_new_chunks
                  example_os length_service sync_db doc_a true
                  sync_db_after sync_client_after E)).
Defined.

(** The scenario of the specification: the document changes from the
    paragraphs X and Y to X and Z.  The chunk of X stays with the embedding
    it had, a chunk of Z is made and embedded, and the chunk of Y stays in
    the database. *)
Example UpdateDocument_changed_paragraph :
  UpdateDocument
    (mkOS (filepath_Abs example_os) (filepath_Join example_os)
          (fun _ => Ok ("X" +:+ blank_line +:+ "Z")))
    sync_client_after sync_db_after doc_a =
  (Ok true,
   set_Chunks sync_db_after (Chunks sync_db_after ++ [mkChunk doc_a "Z" [1%float]]),
   mkClient (respond length_service) [["Y"]; ["Z"]]).
Proof. vm_compute. reflexivity. Qed.

(** * Further properties *)

(** *** [meanVector] *)

Lemma column_sum_outcome (dim : Z) :
  forall (vectors : list (list float)) (sum : float),
    (exists x, column_sum vectors dim sum = Ok x) \/
    column_sum vectors dim sum = Panic IndexOutOfRange.
Proof.
  induction vectors as [|v rest IH]; intros sum; cbn [column_sum]; [eauto|].
  unfold index. destruct (dim <? 0); [now right|].
  destruct (nth_error v (Z.to_nat dim)); cbn [bind]; [apply IH | now right].
Qed.

Lemma column_sum_in_range (dim : Z) :
  forall (vectors : list (list float)) (sum : float),
    0 <= dim -> Forall (fun v => dim < slen v) vectors ->
    exists x, column_sum vectors dim sum = Ok x.
Proof.
  induction vectors as [|v rest IH]; intros sum Hd Hall; cbn [column_sum]; [eauto|].
  inversion Hall as [|? ? Hv Hrest]; subst.
  destruct (index_in_range v dim ltac:(lia)) as [x [-> _]]. cbn [bind]. now apply IH.
Qed.

Lemma column_sum_short (dim : Z) :
  forall (vectors : list (list float)) (sum : float),
    0 <= dim -> Exists (fun v => slen v <= dim) vectors ->
    column_sum vectors dim sum = Panic IndexOutOfRange.
Proof.
  induction vectors as [|v rest IH]; intros sum Hd Hex; [inversion Hex|].
  cbn [column_sum]. inversion Hex as [? ? Hv|? ? Hrest]; subst.
  - unfold index. destruct (dim <? 0) eqn:E; [reflexivity|].
    assert (nth_error v (Z.to_nat dim) = None) as ->
      by (apply nth_error_None; unfold slen in Hv; lia).
    reflexivity.
  - unfold index. destruct (dim <? 0); [reflexivity|].
    destruct (nth_error v (Z.to_nat dim)); cbn [bind]; [now apply IH | reflexivity].
Qed.

Lemma mean_loop_ok (all : list (list float)) (size : Z) :
  Forall (fun v => size <= slen v) all ->
  forall (fuel : nat) (dim : Z) (mean : list float),
    0 <= dim -> size - dim <= Z.of_nat fuel ->
    exists mean', mean_loop fuel all size dim mean = Ok mean' /\ slen mean' = slen mean.
Proof.
  intros Hall. induction fuel as [|fuel IH]; intros dim mean Hd Hf; cbn [mean_loop].
  - destruct (dim <? size) eqn:E; [lia | eauto].
  - destruct (dim <? size) eqn:E; [|eauto].
    destruct (column_sum_in_range dim all 0%float Hd) as [x ->].
    { eapply Forall_impl; [exact Hall|]. intros v Hv. simpl in Hv. lia. }
    cbn [bind].
    destruct (IH (dim + 1)
                (<[Z.to_nat dim := PrimFloat.div x (float64_of_int (slen all))]> mean))
      as [mean' [Hrun Hlen]]; [lia | lia |].
    exists mean'. split; [exact Hrun|]. rewrite Hlen. unfold slen.
    now rewrite length_insert.
Qed.

Lemma mean_loop_short (all : list (list float)) (size short : Z) :
  Exists (fun v => slen v = short) all -> short < size ->
  forall (fuel : nat) (dim : Z) (mean : list float),
    0 <= dim <= short -> size - dim <= Z.of_nat fuel ->
    mean_loop fuel all size dim mean = Panic IndexOutOfRange.
Proof.
  intros Hex Hlt. induction fuel as [|fuel IH]; intros dim mean Hd Hf; cbn [mean_loop].
  - lia.
  - destruct (dim <? size) eqn:E; [|lia].
    destruct (Z.eq_dec dim short) as [->|Hne].
    + rewrite column_sum_short; [reflexivity | lia |].
      eapply Exists_impl; [exact Hex|]. intros v Hv. simpl in Hv. lia.
    + destruct (column_sum_outcome dim all 0%float) as [[x ->]| ->]; cbn [bind];
        [|reflexivity].
      apply IH; lia.
Qed.

(** X1: [meanVector] returns nil for no vector.  Otherwise the first vector
    sets the size: with every other vector at least as long the mean has the
    size of the first (longer vectors are cut to it); with a shorter vector
    among them the call panics on an index out of range. *)
Theorem meanVector_size :
  meanVector [] = Ok [] /\
  (forall (first : list float) (rest : list (list float)),
     Forall (fun v => slen first <= slen v) rest ->
     exists mean, meanVector (first :: rest) = Ok mean /\ slen mean = slen first) /\
  (forall (first : list float) (rest : list (list float)),
     Exists (fun v => slen v < slen first) rest ->
     meanVector (first :: rest) = Panic IndexOutOfRange).
Proof.
  split; [reflexivity|]. split.
  - intros first rest Hall. unfold meanVector.
    destruct (mean_loop_ok (first :: rest) (slen first)
                ltac:(constructor; [lia | exact Hall])
                (Z.to_nat (slen first)) 0 (repeat 0%float (Z.to_nat (slen first))))
      as [mean [Hrun Hlen]]; [lia | lia |].
    exists mean. split; [exact Hrun|]. rewrite Hlen. unfold slen.
    rewrite repeat_length. pose proof (slen_nonneg first). unfold slen in *. lia.
  - intros first rest Hex. unfold meanVector.
    apply Exists_exists in Hex. destruct Hex as [v [Hin Hv]].
    apply (mean_loop_short (first :: rest) (slen first) (slen v)).
    + apply Exists_cons_tl. apply Exists_exists. eauto.
    + exact Hv.
    + pose proof (slen_nonneg v). lia.
    + lia.
Qed.

(** *** [stringInSlice] *)

(** X2: [stringInSlice] is membership. *)
Theorem stringInSlice_iff (str : string) (l : list string) :
  stringInSlice str l = true <-> In str l.
Proof.
  induction l as [|v l IH]; simpl.
  - split; [discriminate | intros []].
  - destruct (String.eqb v str) eqn:E.
    + apply String.eqb_eq in E. split; [now left | reflexivity].
    + apply String.eqb_neq in E. rewrite IH. split; [now right | intros [H|H]; congruence].
Qed.

(** *** [Ext2Lang] *)

Lemma str_prefix_dot (c : ascii) (s : string) :
  str_prefix "." (String c s) = Ascii.eqb c ".".
Proof.
  cbn [str_prefix]. rewrite Ascii.eqb_sym. now destruct (Ascii.eqb c ".").
Qed.

Lemma split_dotless (s : string) :
  dotless s = true -> forall cur, split_from "." O cur s = [cur +:+ s].
Proof.
  induction s as [|c s IH]; intros H cur.
  - cbn [split_from]. now rewrite app_string_empty_r.
  - cbn [dotless] in H. apply andb_prop in H. destruct H as [Hc Hs].
    cbn [split_from]. rewrite str_prefix_dot.
    destruct (Ascii.eqb c "."); [discriminate|].
    rewrite (IH Hs). now rewrite app_string_assoc.
Qed.

Lemma split_last_extension (ext : string) :
  dotless ext = true ->
  forall base cur, exists l,
    split_from "." O cur (base +:+ "." +:+ ext) = l ++ [ext] /\ l <> [].
Proof.
  intros Hext. induction base as [|c base IH]; intros cur.
  - rewrite app_empty_l. change ("." +:+ ext) with (String "." ext).
    cbn [split_from]. rewrite str_prefix_dot. cbn [Ascii.eqb Bool.eqb andb String.length Nat.sub].
    rewrite (split_dotless ext Hext). rewrite app_empty_l.
    exists [cur]. split; [reflexivity | discriminate].
  - rewrite app_String. cbn [split_from]. rewrite str_prefix_dot.
    destruct (Ascii.eqb c ".").
    + cbn [String.length Nat.sub]. destruct (IH EmptyString) as [l [-> Hl]].
      exists (cur :: l). split; [reflexivity | discriminate].
    + destruct (IH (cur +:+ String c EmptyString)) as [l [-> Hl]].
      exists l. split; [reflexivity | exact Hl].
Qed.

(** X3: [Ext2Lang] takes the language from what follows the last dot of the
    file name: a name without a dot is an error; md, py, rb, rs and go are
    the known extensions, with the names markdown, python, ruby, rust and go;
    any other extension, an empty one too, is returned as it is, as not
    known. *)
Theorem Ext2Lang_last_dot :
  (forall fn : string, dotless fn = true -> Ext2Lang fn = NoExtension fn) /\
  (forall base ext : string,
     dotless ext = true ->
     Ext2Lang (base +:+ "." +:+ ext) = language_of_extension ext) /\
  (forall ext : string,
     In ext ["md"; "py"; "rb"; "rs"; "go"] /\
     (exists lang, language_of_extension ext = Language lang true /\
                   In (ext, lang) [("md", "markdown"); ("py", "python"); ("rb", "ruby");
                                   ("rs", "rust"); ("go", "go")]) \/
     ~ In ext ["md"; "py"; "rb"; "rs"; "go"] /\
     language_of_extension ext = Language ext false).
Proof.
  split; [|split].
  - intros fn H. unfold Ext2Lang, Split. rewrite (split_dotless fn H). reflexivity.
  - intros base ext H. unfold Ext2Lang, Split.
    destruct (split_last_extension ext H base EmptyString) as [l [-> Hl]].
    rewrite slen_app. destruct l as [|p l]; [congruence|].
    rewrite !slen_cons. pose proof (slen_nonneg l). change (slen (@nil string)) with 0.
    destruct (1 + slen l + (1 + 0) <? 2) eqn:E; [lia|].
    now rewrite List.last_last.
  - intros ext. unfold language_of_extension.
    destruct (String.eqb ext "md") eqn:E1;
      [apply String.eqb_eq in E1; subst; left; split; [simpl; tauto | eexists; split; [reflexivity | simpl; tauto]]|].
    destruct (String.eqb ext "py") eqn:E2;
      [apply String.eqb_eq in E2; subst; left; split; [simpl; tauto | eexists; split; [reflexivity | simpl; tauto]]|].
    destruct (String.eqb ext "rb") eqn:E3;
      [apply String.eqb_eq in E3; subst; left; split; [simpl; tauto | eexists; split; [reflexivity | simpl; tauto]]|].
    destruct (String.eqb ext "rs") eqn:E4;
      [apply String.eqb_eq in E4; subst; left; split; [simpl; tauto | eexists; split; [reflexivity | simpl; tauto]]|].
    destruct (String.eqb ext "go") eqn:E5;
      [apply String.eqb_eq in E5; subst; left; split; [simpl; tauto | eexists; split; [reflexivity | simpl; tauto]]|].
    right. apply String.eqb_neq in E1, E2, E3, E4, E5.
    split; [|reflexivity]. simpl. intuition congruence.
Qed.

(** *** The model table *)

Lemma NewModels_table :
  Available NewModels =
    <["gpt-3.5-turbo" := mkModel "gpt-3.5-turbo" 4096 "gpt-3.5-turbo" false]>
    (<["gpt-4" := mkModel "gpt-4" 8192 "gpt-4" false]>
    (<["gpt-4-32k" := mkModel "gpt-4-32k" 32768 "gpt-4-32k" false]> ∅)).
Proof. vm_compute. reflexivity. Qed.

Lemma NewModels_lookup (k : string) (m : Model) :
  Available NewModels !! k = Some m ->
  (k = "gpt-3.5-turbo" /\ m = mkModel "gpt-3.5-turbo" 4096 "gpt-3.5-turbo" false) \/
  (k = "gpt-4" /\ m = mkModel "gpt-4" 8192 "gpt-4" false) \/
  (k = "gpt-4-32k" /\ m = mkModel "gpt-4-32k" 32768 "gpt-4-32k" false).
Proof.
  rewrite NewModels_table. intros H.
  rewrite lookup_insert in H. destruct (decide ("gpt-3.5-turbo" = k)) as [<-|_].
  { left. split; [reflexivity | congruence]. }
  rewrite lookup_insert in H. destruct (decide ("gpt-4" = k)) as [<-|_].
  { right. left. split; [reflexivity | congruence]. }
  rewrite lookup_insert in H. destruct (decide ("gpt-4-32k" = k)) as [<-|_].
  { right. right. split; [reflexivity | congruence]. }
  rewrite lookup_empty in H. discriminate.
Qed.

Lemma NewModels_lookup_none (k : string) :
  Available NewModels !! k = None ->
  ~ In k ["gpt-3.5-turbo"; "gpt-4"; "gpt-4-32k"].
Proof.
  intros H [<-|[<-|[<-|[]]]]; vm_compute in H; discriminate.
Qed.

(** X4: [findModel] on the table of [NewModels]: the empty name stands for the
    default model, gpt-3.5-turbo; a name of the table gives the model of that
    name, not yet active, with its token limit; any other name gives the
    error "model not found" with that name. *)
Theorem findModel_table (model : string) :
  match findModel NewModels model with
  | Ok (name, m) =>
      name = (if String.eqb model EmptyString then "gpt-3.5-turbo" else model) /\
      Name m = name /\ active m = false /\
      In (name, TokenLimit m)
         [("gpt-3.5-turbo", 4096); ("gpt-4", 8192); ("gpt-4-32k", 32768)]
  | Err e =>
      e = ModelNotFound model /\ model <> EmptyString /\
      ~ In model ["gpt-3.5-turbo"; "gpt-4"; "gpt-4-32k"]
  | _ => False
  end.
Proof.
  unfold findModel, DefaultModel.
  destruct (String.eqb model EmptyString) eqn:E.
  - apply String.eqb_eq in E. subst model.
    assert (Available NewModels !! "gpt-3.5-turbo" =
            Some (mkModel "gpt-3.5-turbo" 4096 "gpt-3.5-turbo" false)) as ->
      by (vm_compute; reflexivity).
    simpl. tauto.
  - apply String.eqb_neq in E.
    destruct (Available NewModels !! model) as [m|] eqn:El.
    + apply NewModels_lookup in El.
      destruct El as [[-> ->]|[[-> ->]|[-> ->]]]; simpl; tauto.
    + apply NewModels_lookup_none in El. tauto.
Qed.

(** *** [initModel] *)

(** X5: [initModel] is idempotent: on a database it has set up, a second call
    for the same model, or for the model the database names, changes
    nothing.  What a first call sets up: the documents, chunks, version and
    root stay, the embedding chunk limit is 25395 bytes and the chunk limit
    is the one of the model. *)
Theorem initModel_idempotent (g : Grokker) (model : string) (g1 : Grokker) :
  initModel g model = (Ok tt, g1) ->
  initModel g1 model = (Ok tt, g1) /\
  initModel g1 (modelName g1) = (Ok tt, g1) /\
  Documents g1 = Documents g /\ Chunks g1 = Chunks g /\
  Version g1 = Version g /\ Root g1 = Root g /\
  maxEmbeddingChunkLen g1 = 25395 /\
  In (modelName g1, maxChunkLen g1)
     [("gpt-3.5-turbo", 12697); ("gpt-4", 25395); ("gpt-4-32k", 101580)].
Proof.
  intros H. apply initModel_ok_inv in H. destruct H as [name [m [Hfind [Hroot ->]]]].
  pose proof (findModel_NewModels_name _ _ _ Hfind) as [Hname Hlook].
  assert (initModel (initialised g name m) model = (Ok tt, initialised g name m)) as H1.
  { now rewrite (initModel_ok (initialised g name m) model name m Hroot Hfind). }
  assert (initModel (initialised g name m) name = (Ok tt, initialised g name m)) as H2.
  { now rewrite (initModel_ok (initialised g name m) name name m Hroot
                   (findModel_found NewModels name m Hname Hlook)). }
  cbn [modelName initialised Documents Chunks Version Root maxEmbeddingChunkLen maxChunkLen].
  split; [exact H1|]. split; [exact H2|].
  split; [reflexivity|]. split; [reflexivity|]. split; [reflexivity|].
  split; [reflexivity|]. split; [vm_compute; reflexivity|].
  apply NewModels_lookup in Hlook.
  destruct Hlook as [[-> ->]|[[-> ->]|[-> ->]]]; cbn [TokenLimit].
  - left. vm_compute. reflexivity.
  - right. left. vm_compute. reflexivity.
  - right. right. left. vm_compute. reflexivity.
Qed.

Lemma initModel_idempotent_witness :
  initModel gpt4_db "gpt-4" = (Ok tt, gpt4_db) /\
  initModel gpt4_db (modelName gpt4_db) = (Ok tt, gpt4_db).
Proof.
  assert (initModel default_db "gpt-4" = (Ok tt, gpt4_db)) as H by (vm_compute; reflexivity).
  destruct (initModel_idempotent default_db "gpt-4" gpt4_db H) as [H1 [H2 _]].
  split; [exact H1 | exact H2].
Defined.

(** *** [UpgradeModel] *)

Lemma chars_of_tokens_table (k1 k2 : string) (m1 m2 : Model) :
  Available NewModels !! k1 = Some m1 -> Available NewModels !! k2 = Some m2 ->
  TokenLimit m1 <= TokenLimit m2 ->
  chars_of_tokens (TokenLimit m1) <= chars_of_tokens (TokenLimit m2).
Proof.
  intros H1 H2. apply NewModels_lookup in H1, H2.
  assert (chars_of_tokens 4096 = 12697) as E1 by (vm_compute; reflexivity).
  assert (chars_of_tokens 8192 = 25395) as E2 by (vm_compute; reflexivity).
  assert (chars_of_tokens 32768 = 101580) as E3 by (vm_compute; reflexivity).
  destruct H1 as [[_ ->]|[[_ ->]|[_ ->]]]; destruct H2 as [[_ ->]|[[_ ->]|[_ ->]]];
    cbn [TokenLimit]; rewrite ?E1, ?E2, ?E3; lia.
Qed.

(** X6: whatever model it is asked for, [UpgradeModel] on a database set up by
    [initModel] never lowers the chunk limit and never touches the documents,
    the chunks or the embedding chunk limit; a name that is not in the table
    gives the error "model not found", and every error leaves the database as
    it was. *)
Theorem UpgradeModel_never_lowers (g0 : Grokker) (cur : string) (g : Grokker)
  (target : string) :
  initModel g0 cur = (Ok tt, g) ->
  maxChunkLen g <= maxChunkLen (snd (UpgradeModel g target)) /\
  maxEmbeddingChunkLen (snd (UpgradeModel g target)) = maxEmbeddingChunkLen g /\
  Documents (snd (UpgradeModel g target)) = Documents g /\
  Chunks (snd (UpgradeModel g target)) = Chunks g /\
  (fst (UpgradeModel g target) = Ok tt \/
   (exists e, fst (UpgradeModel g target) = Err e) /\ snd (UpgradeModel g target) = g) /\
  (target <> EmptyString -> ~ In target ["gpt-3.5-turbo"; "gpt-4"; "gpt-4-32k"] ->
   UpgradeModel g target = (Err (ModelNotFound target), g)).
Proof.
  intros Hinit.
  apply initModel_ok_inv in Hinit. destruct Hinit as [name [m0 [Hcur [Hroot ->]]]].
  pose proof (findModel_NewModels_name _ _ _ Hcur) as [Hname Hlook].
  set (ms := mkModels (<[name := set_active m0 true]> (Available NewModels))).
  assert (getModel (initialised g0 name m0) = Ok (name, set_active m0 true)) as Hget.
  { unfold getModel. cbn [models initialised modelName].
    apply findModel_found; [assumption|]. cbn [Available]. apply lookup_insert_eq. }
  set (wanted := if String.eqb target EmptyString then DefaultModel else target).
  assert (wanted <> EmptyString) as Hne.
  { unfold wanted. destruct (String.eqb target EmptyString) eqn:E; [discriminate|].
    now apply String.eqb_neq in E. }
  assert (UpgradeModel (initialised g0 name m0) target =
          match Available NewModels !! wanted with
          | None => (Err (ModelNotFound wanted), initialised g0 name m0)
          | Some m =>
              if TokenLimit m <? TokenLimit m0
              then (Err (CannotDowngrade name wanted), initialised g0 name m0)
              else (Ok tt, initialised (initialised g0 name m0) wanted m)
          end) as Hrun.
  { unfold UpgradeModel. cbn [models initialised]. fold ms.
    unfold findModel at 1. fold wanted. cbn [Available ms].
    destruct (decide (name = wanted)) as [Heq|Hneq].
    - rewrite <- Heq, lookup_insert_eq, Hlook. rewrite Hget.
      cbn [TokenLimit set_active].
      destruct (TokenLimit m0 <? TokenLimit m0) eqn:E; [lia|].
      now rewrite (initModel_ok (initialised g0 name m0) name name m0 Hroot
                     (findModel_found NewModels name m0 Hname Hlook)).
    - rewrite lookup_insert_ne by assumption.
      destruct (Available NewModels !! wanted) as [m|] eqn:El; [|reflexivity].
      rewrite Hget. cbn [TokenLimit set_active].
      destruct (TokenLimit m <? TokenLimit m0); [reflexivity|].
      now rewrite (initModel_ok (initialised g0 name m0) wanted wanted m Hroot
                     (findModel_found NewModels wanted m Hne El)). }
  rewrite Hrun.
  destruct (Available NewModels !! wanted) as [m|] eqn:El.
  - destruct (TokenLimit m <? TokenLimit m0) eqn:E; cbn [fst snd].
    + repeat split; try lia; try (right; split; [eauto | reflexivity]).
      intros Ht Hnot. exfalso. apply Hnot. unfold wanted in El.
      apply String.eqb_neq in Ht. rewrite Ht in El.
      apply NewModels_lookup in El.
      destruct El as [[-> _]|[[-> _]|[-> _]]]; simpl; tauto.
    + cbn [maxChunkLen maxEmbeddingChunkLen Documents Chunks initialised].
      repeat split; try (now left).
      * apply (chars_of_tokens_table name wanted m0 m Hlook El). lia.
      * intros Ht Hnot. exfalso. apply Hnot. unfold wanted in El.
        apply String.eqb_neq in Ht. rewrite Ht in El.
        apply NewModels_lookup in El.
      destruct El as [[-> _]|[[-> _]|[-> _]]]; simpl; tauto.
  - cbn [fst snd]. repeat split; try lia; try (right; split; [eauto | reflexivity]).
    intros Ht _. unfold wanted. apply String.eqb_neq in Ht. now rewrite Ht.
Qed.

Lemma UpgradeModel_never_lowers_witness :
  maxChunkLen gpt4_db <= maxChunkLen (snd (UpgradeModel gpt4_db "gpt-4-32k")) /\
  UpgradeModel gpt4_db "gpt-5" = (Err (ModelNotFound "gpt-5"), gpt4_db).
Proof.
  assert (initModel default_db "gpt-4" = (Ok tt, gpt4_db)) as H by (vm_compute; reflexivity).
  split.
  - exact (proj1 (UpgradeModel_never_lowers default_db "gpt-4" gpt4_db "gpt-4-32k" H)).
  - apply (UpgradeModel_never_lowers default_db "gpt-4" gpt4_db "gpt-5" H).
    + discriminate.
    + simpl. intuition discriminate.
Defined.

(** *** [Load] *)

(** X7: a database that [Load] returns when migration is not asked for has the
    running version; it holds the documents and chunks of the snapshot, its
    root is the directory of the snapshot file, not the stored one, and its
    model is set up: found in the table, active, with the length limits
    derived. *)
Theorem Load_returns_running_version (decoded : outcome Grokker) (absdir : outcome string)
  (g : Grokker) :
  Load decoded absdir false = Returns (Ok g) ->
  exists (g0 : Grokker) (root : string),
    decoded = Ok g0 /\ absdir = Ok root /\
    Version g0 = version /\ Version g = version /\
    Root g = root /\ root <> EmptyString /\
    Documents g = Documents g0 /\ Chunks g = Chunks g0 /\
    is_active g (modelName g) /\
    modelName g =
      (if String.eqb (modelName g0) EmptyString then "gpt-3.5-turbo" else modelName g0) /\
    maxEmbeddingChunkLen g = 25395.
Proof.
  unfold Load. intros H.
  destruct decoded as [g0| | |]; try discriminate.
  destruct absdir as [root| | |]; try discriminate.
  exists g0, root. split; [reflexivity|]. split; [reflexivity|].
  cbn [Version set_Root] in H.
  destruct (String.eqb (Version g0) EmptyString) eqn:Ev.
  { cbn [Version set_Version String.eqb] in H. discriminate. }
  cbn [Version set_Root] in H.
  destruct (String.eqb (Version g0) version) eqn:Ev2; cbn [negb] in H; [|discriminate].
  apply String.eqb_eq in Ev2.
  destruct (initModel (set_Root g0 root) (modelName (set_Root g0 root)))
    as [[[]| | |] g1] eqn:Ei; try discriminate.
  injection H as <-.
  apply initModel_ok_inv in Ei. destruct Ei as [name [m [Hfind [Hroot ->]]]].
  cbn [Root set_Root] in Hroot.
  pose proof (findModel_inv _ _ _ _ Hfind) as [Hname _].
  cbn [modelName set_Root] in Hname.
  cbn [Version Root Documents Chunks modelName maxEmbeddingChunkLen initialised set_Root].
  split; [exact Ev2|]. split; [exact Ev2|]. split; [reflexivity|].
  split; [exact Hroot|]. split; [reflexivity|]. split; [reflexivity|].
  split; [|split; [exact Hname | vm_compute; reflexivity]].
  exists (mkModels (<[name := set_active m true]> (Available NewModels))),
         (set_active m true).
  cbn [models initialised Available]. repeat split. apply lookup_insert_eq.
Qed.

Lemma Load_returns_running_version_witness :
  Load (Ok stored_db) (Ok "/kb") false = Returns (Ok loaded_db) /\
  Version loaded_db = version /\ maxEmbeddingChunkLen loaded_db = 25395.
Proof.
  assert (Load (Ok stored_db) (Ok "/kb") false = Returns (Ok loaded_db)) as E
    by (vm_compute; reflexivity).
  destruct (Load_returns_running_version (Ok stored_db) (Ok "/kb") loaded_db E)
    as [g0 [root [_ [_ [_ [H4 [_ [_ [_ [_ [_ [_ H11]]]]]]]]]]]].
  split; [exact E | split; assumption].
Defined.


(** *** [ForgetDocument] *)

Lemma forget_loop_ok_inv (os : OS) (g : Grokker) (path : string) :
  forall (rest passed docs : list Document),
    forget_loop os g path passed rest = Ok docs ->
    (docs = passed ++ rest /\
     forall d abs, In d rest -> filepath_Abs os path = Ok abs ->
                   ~ matches_path os g path abs d) \/
    (exists abs before D after,
       filepath_Abs os path = Ok abs /\ rest = before ++ D :: after /\
       docs = passed ++ before ++ after /\ matches_path os g path abs D /\
       forall d, In d before -> ~ matches_path os g path abs d).
Proof.
  induction rest as [|d rest IH]; intros passed docs.
  - cbn [forget_loop]. intros [= <-]. left. rewrite app_nil_r.
    split; [reflexivity | intros d abs []].
  - cbn [forget_loop].
    destruct (filepath_Abs os path) as [abs|e|p|] eqn:Eabs; cbn [bind]; try discriminate.
    destruct (String.eqb (AbsPath os g d) abs) eqn:E1.
    + intros [= <-]. right. exists abs, [], d, rest. apply String.eqb_eq in E1.
      split; [reflexivity|]. split; [reflexivity|]. split; [reflexivity|].
      split; [now right | intros d' []].
    + destruct (String.eqb (RelPath d) path) eqn:E2.
      * intros [= <-]. right. exists abs, [], d, rest. apply String.eqb_eq in E2.
        split; [reflexivity|]. split; [reflexivity|]. split; [reflexivity|].
        split; [now left | intros d' []].
      * apply String.eqb_neq in E1, E2. intros H. apply IH in H.
        destruct H as [[-> Hnone]|[abs' [before [D [after [Ha [-> [-> [HD Hb]]]]]]]]].
        -- left. rewrite <- app_assoc. split; [reflexivity|].
           intros d' abs' [<-|Hin] Ha.
           ++ injection Ha as <-. unfold matches_path. tauto.
           ++ now apply (Hnone d' abs' Hin).
        -- right. injection Ha as <-. exists abs, (d :: before), D, after.
           rewrite <- !app_assoc.
           split; [reflexivity|]. split; [reflexivity|]. split; [reflexivity|].
           split; [exact HD|].
           intros d' [<-|Hin]; [unfold matches_path; tauto | now apply Hb].
Qed.

Lemma forget_loop_failure (os : OS) (g : Grokker) (path : string) :
  forall (rest passed : list Document),
    match forget_loop os g path passed rest with
    | Ok _ => True
    | Err e => filepath_Abs os path = Err e /\ rest <> []
    | Panic p => filepath_Abs os path = Panic p /\ rest <> []
    | OutOfFuel => filepath_Abs os path = OutOfFuel /\ rest <> []
    end.
Proof.
  induction rest as [|d rest IH]; intros passed; [exact I|].
  cbn [forget_loop].
  destruct (filepath_Abs os path) as [abs|e|p|] eqn:Eabs; cbn [bind];
    try (split; [reflexivity | discriminate]).
  destruct (String.eqb (AbsPath os g d) abs); [exact I|].
  destruct (String.eqb (RelPath d) path); [exact I|].
  specialize (IH (passed ++ [d])).
  destruct (forget_loop os g path (passed ++ [d]) rest); try exact I;
    destruct IH as [IH _]; discriminate.
Qed.

(** X8: [ForgetDocument] changes nothing but the document list, and there it
    takes out one document at most: the first one whose relative path is the
    given path or whose absolute path is the absolute form of the given path.
    With no such document the call succeeds and changes nothing. It fails
    only with the error of [filepath.Abs], and only when the list is not
    empty; the database is then unchanged. *)
Theorem ForgetDocument_at_most_one (os : OS) (g : Grokker) (path : string) :
  match fst (ForgetDocument os g path) with
  | Ok _ =>
      snd (ForgetDocument os g path) =
        set_Documents g (Documents (snd (ForgetDocument os g path))) /\
      ((Documents (snd (ForgetDocument os g path)) = Documents g /\
        forall d abs, In d (Documents g) -> filepath_Abs os path = Ok abs ->
                      ~ matches_path os g path abs d) \/
       (exists abs before D after,
          filepath_Abs os path = Ok abs /\ Documents g = before ++ D :: after /\
          Documents (snd (ForgetDocument os g path)) = before ++ after /\
          matches_path os g path abs D /\
          forall d, In d before -> ~ matches_path os g path abs d))
  | Err e => snd (ForgetDocument os g path) = g /\ filepath_Abs os path = Err e /\
             Documents g <> []
  | Panic p => snd (ForgetDocument os g path) = g /\ filepath_Abs os path = Panic p
  | OutOfFuel => snd (ForgetDocument os g path) = g /\ filepath_Abs os path = OutOfFuel
  end.
Proof.
  unfold ForgetDocument.
  pose proof (forget_loop_ok_inv os g path (Documents g) []) as Hok.
  pose proof (forget_loop_failure os g path (Documents g) []) as Hfail.
  destruct (forget_loop os g path [] (Documents g)) as [docs|e|p|]; cbn [fst snd].
  - split; [reflexivity|]. cbn [Documents set_Documents].
    specialize (Hok docs eq_refl). cbn [app] in Hok. exact Hok.
  - destruct Hfail as [Ha Hne]. split; [reflexivity|]. split; assumption.
  - destruct Hfail as [Ha _]. split; [reflexivity | assumption].
  - destruct Hfail as [Ha _]. split; [reflexivity | assumption].
Qed.

Lemma ForgetDocument_first (os : OS) (g : Grokker) (path abs : string)
  (before after : list Document) (D : Document) :
  Documents g = before ++ D :: after ->
  filepath_Abs os path = Ok abs ->
  matches_path os g path abs D ->
  (forall d, In d before -> ~ matches_path os g path abs d) ->
  ForgetDocument os g path = (Ok tt, set_Documents g (before ++ after)).
Proof.
  intros Hdocs Habs HD Hbefore. unfold ForgetDocument. rewrite Hdocs.
  now rewrite (forget_loop_first_match os g path abs D after Habs HD before [] Hbefore).
Qed.

(** *** [GC] *)

Lemma filter_idempotent {A : Type} (f : A -> bool) (l : list A) :
  List.filter f (List.filter f l) = List.filter f l.
Proof.
  induction l as [|a l IH]; [reflexivity|]. cbn [List.filter].
  destruct (f a) eqn:E; [|exact IH]. cbn [List.filter]. now rewrite E, IH.
Qed.

Lemma filter_all {A : Type} (f : A -> bool) (l : list A) :
  List.length (List.filter f l) = List.length l -> List.filter f l = l.
Proof.
  induction l as [|a l IH]; [reflexivity|]. cbn [List.filter].
  pose proof (List.filter_length_le f l) as Hle.
  destruct (f a); cbn [List.length]; intros H; [f_equal; apply IH; lia | lia].
Qed.

Lemma GC_GC (g : Grokker) : GC (GC g) = GC g.
Proof.
  unfold GC. cbn [Documents Chunks set_Chunks]. rewrite !gc_loop_filter. cbn [app].
  now rewrite filter_idempotent.
Qed.

(** X9: a GC pass leaves no chunk without a tracked document, so a second pass
    changes nothing and collects nothing; the count a pass logs is the number
    of chunks whose document is not tracked, and a pass that logs 0 has not
    changed the database. *)
Theorem GC_idempotent (g : Grokker) :
  GC (GC g) = GC g /\
  Forall (fun chunk => referenced (Documents (GC g)) chunk = true) (Chunks (GC g)) /\
  GC_collected (GC g) = 0 /\
  GC_collected g =
    slen (List.filter (fun chunk => negb (referenced (Documents g) chunk)) (Chunks g)) /\
  (GC_collected g = 0 -> GC g = g).
Proof.
  pose proof (GC_GC g) as Hidem.
  split; [exact Hidem|]. split; [|split; [|split]].
  - unfold GC. cbn [Documents Chunks set_Chunks]. rewrite gc_loop_filter. cbn [app].
    apply List.Forall_forall. intros chunk Hin. apply List.filter_In in Hin. tauto.
  - unfold GC_collected. rewrite Hidem. lia.
  - apply GC_collected_orphans.
  - unfold GC_collected, GC. cbn [Chunks set_Chunks]. rewrite gc_loop_filter. cbn [app].
    intros H. rewrite filter_all; [now destruct g|].
    pose proof (List.filter_length_le (referenced (Documents g)) (Chunks g)).
    unfold slen in H. lia.
Qed.

(** *** [CreateEmbeddings], whatever the service replies *)

Lemma skipn_nth_error {A : Type} (l : list A) :
  forall (n : nat) (a : A), nth_error l n = Some a -> skipn n l = a :: skipn (S n) l.
Proof.
  induction l as [|b l IH]; intros [|n] a H; simpl in H; try discriminate.
  - injection H as ->. reflexivity.
  - apply IH in H. exact H.
Qed.

(** The total the inner loop reports is the total length of the texts it took. *)
Lemma pack_ok_total (limit : Z) (texts : list string) :
  forall (fuel : nat) (j total j' total' : Z),
    pack fuel limit texts j total = Ok (j', total') -> 0 <= j -> 0 <= total ->
    total' =
      total + total_len (firstn (Z.to_nat (j' + 1 - j)) (skipn (Z.to_nat j) texts)).
Proof.
  induction fuel as [|fuel IH]; intros j total j' total' H Hj Ht; [discriminate|].
  cbn [pack] in H.
  destruct (index texts j) as [text| | |] eqn:Ei; cbn [bind] in H; try discriminate.
  apply index_ok_inv in Ei. destruct Ei as [Hrange Hnth].
  unfold Assert in H.
  destruct (len text >? 0) eqn:E0; cbn [bind] in H; [|discriminate].
  destruct (len text <=? limit) eqn:E1; cbn [bind] in H; [|discriminate].
  destruct (total + len text >=? limit) eqn:E2.
  - injection H as <- <-. replace (j - 1 + 1 - j) with 0 by lia. simpl. lia.
  - rewrite (skipn_nth_error _ _ _ Hnth).
    destruct (j =? slen texts - 1) eqn:E3.
    + injection H as <- <-. replace (j + 1 - j) with 1 by lia.
      change (Z.to_nat 1) with 1%nat. cbn [firstn total_len]. rewrite List.firstn_O. cbn [total_len]. lia.
    + pose proof H as H'. apply pack_ok_inv in H'; [|lia|lia].
      destruct H' as [Hj' _].
      apply IH in H; [|lia|lia].
      replace (Z.to_nat (j' + 1 - j)) with (S (Z.to_nat (j' + 1 - (j + 1)))) by lia.
      replace (Z.to_nat (j + 1)) with (S (Z.to_nat j)) in H by lia.
      cbn [firstn total_len]. lia.
Qed.

(** A batch is a non-empty run of the texts that start at [i], with a total
    length strictly below the limit. *)
Lemma next_batch_ok_run (limit : Z) (pre rest : list string) (j : Z) (inputs : list string) :
  next_batch limit (pre ++ rest) (slen pre) = Ok (j, inputs) ->
  exists rest', rest = inputs ++ rest' /\ j + 1 = slen (pre ++ inputs) /\
                inputs <> [] /\ within_limit limit inputs.
Proof.
  intros H. pose proof (slen_nonneg pre) as Hpre. unfold next_batch in H.
  destruct (pack (S (List.length (pre ++ rest))) limit (pre ++ rest) (slen pre) 0)
    as [[j0 total0]| | |] eqn:Ep; cbn [bind fst snd] in H; try discriminate.
  pose proof (pack_ok_total _ _ _ _ _ _ _ Ep Hpre ltac:(lia)) as Htot.
  apply pack_ok_inv in Ep; [|lia|lia]. destruct Ep as [Hj0 [_ [Hlt _]]].
  unfold Assert in H.
  destruct (j0 >=? slen pre) eqn:E0; cbn [bind] in H; [|discriminate].
  destruct (total0 >? 0) eqn:E1; cbn [bind] in H; [|discriminate].
  unfold slice in H.
  destruct ((0 <=? slen pre) && (slen pre <=? j0 + 1) && (j0 + 1 <=? slen (pre ++ rest)))
    eqn:E2; cbn [bind] in H; [|discriminate].
  destruct (recheck limit _ 0) as [total1| | |] eqn:Er; cbn [bind] in H; try discriminate.
  destruct (total1 <=? limit) eqn:E3; cbn [bind] in H; [|discriminate].
  injection H as <- <-.
  assert (skipn (Z.to_nat (slen pre)) (pre ++ rest) = rest) as Hskip.
  { unfold slen. rewrite Nat2Z.id. rewrite List.skipn_app, List.skipn_all, Nat.sub_diag.
    reflexivity. }
  rewrite Hskip in *. rewrite slen_app in Hj0.
  set (n := Z.to_nat (j0 + 1 - slen pre)) in *.
  assert (1 <= n <= List.length rest)%nat as Hn by (unfold n, slen in *; lia).
  exists (skipn n rest). split; [now rewrite List.firstn_skipn|].
  assert (List.length (firstn n rest) = n) as Hlen by (apply List.firstn_length_le; lia).
  split; [rewrite slen_app; unfold slen at 2; rewrite Hlen; unfold n; lia|].
  split.
  - intros Hnil. rewrite Hnil in Hlen. simpl in Hlen. lia.
  - unfold within_limit. specialize (Hlt ltac:(lia)). lia.
Qed.

Lemma batch_loop_requests (limit : Z) :
  forall (fuel : nat) (c : Client) (pre rest : list string) (embeddings : list Embedding),
    exists batches rest',
      snd (batch_loop fuel limit c (pre ++ rest) (slen pre) embeddings) =
        mkClient (respond c) (sent c ++ batches) /\
      rest = concat batches ++ rest' /\
      Forall (fun b => b <> [] /\ within_limit limit b) batches /\
      match fst (batch_loop fuel limit c (pre ++ rest) (slen pre) embeddings) with
      | Ok _ => rest' = []
      | Err e => exists earlier b,
          batches = earlier ++ [b] /\ respond c (sent c ++ earlier) b = Failed e
      | _ => True
      end.
Proof.
  induction fuel as [|fuel IH]; intros c pre rest embeddings.
  - cbn [batch_loop]. destruct (slen pre <? slen (pre ++ rest)) eqn:E; cbn [fst snd];
      exists []; [exists rest | exists []]; rewrite app_nil_r, client_eta.
    + repeat split. constructor.
    + rewrite slen_app in E. destruct rest as [|t rest]; [|rewrite slen_cons in E;
        pose proof (slen_nonneg rest); lia]. repeat split. constructor.
  - cbn [batch_loop]. destruct (slen pre <? slen (pre ++ rest)) eqn:E; cbn [fst snd].
    2:{ exists [], []. rewrite app_nil_r, client_eta.
        rewrite slen_app in E. destruct rest as [|t rest]; [|rewrite slen_cons in E;
          pose proof (slen_nonneg rest); lia]. repeat split. constructor. }
    pose proof (next_batch_asserts_or_ok limit (pre ++ rest) (slen pre)
                  ltac:(pose proof (slen_nonneg pre); lia)) as Hnb.
    destruct (next_batch limit (pre ++ rest) (slen pre)) as [[j inputs]|e|p|] eqn:En;
      try contradiction.
    + apply next_batch_ok_run in En. destruct En as [rest1 [-> [Hj [Hne Hlim]]]].
      unfold request.
      destruct (respond c (sent c) inputs) as [data|e] eqn:Er.
      * rewrite Hj. rewrite (app_assoc pre inputs rest1).
        destruct (IH (mkClient (respond c) (sent c ++ [inputs])) (pre ++ inputs) rest1
                     (embeddings ++ data)) as [batches [rest2 [Hs [Hr [Hall Hres]]]]].
        cbn [respond sent] in Hs, Hres.
        exists (inputs :: batches), rest2. rewrite Hs. rewrite <- app_assoc. cbn [app].
        split; [reflexivity|].
        split; [cbn [concat]; rewrite <- app_assoc; now f_equal|].
        split; [constructor; [split|]; assumption|].
        destruct (fst (batch_loop fuel limit (mkClient (respond c) (sent c ++ [inputs]))
                         ((pre ++ inputs) ++ rest1) (slen (pre ++ inputs))
                         (embeddings ++ data))) as [es|e|p|]; try exact Hres.
        destruct Hres as [earlier [b [-> Hb]]].
        exists (inputs :: earlier), b. split; [reflexivity|].
        rewrite <- app_assoc in Hb. exact Hb.
      * cbn [fst snd]. exists [inputs], rest1. split; [reflexivity|].
        split; [cbn [concat]; now rewrite app_nil_r|].
        split; [constructor; [split; assumption | constructor]|].
        exists [], inputs. split; [reflexivity|]. now rewrite app_nil_r.
    + cbn [fst snd]. exists [], rest. rewrite app_nil_r, client_eta.
      repeat split. constructor.
Qed.


(** *** [FindChunks] *)



(** *** [SimilarChunks] *)

Lemma cosine_sums_within (b : list float) :
  forall (rest : list float) (i : Z) (dot magA magB : float),
    0 <= i -> i + slen rest <= slen b ->
    exists sums, cosine_sums rest b i dot magA magB = Ok sums.
Proof.
  induction rest as [|ai rest IH]; intros i dot magA magB Hi Hlen; cbn [cosine_sums]; [eauto|].
  rewrite slen_cons in Hlen. pose proof (slen_nonneg rest).
  destruct (index_in_range b i ltac:(lia)) as [bi [-> _]]. cbn [bind]. apply IH; lia.
Qed.

Lemma score_chunks_ok (embedding : list float) :
  forall (chunks : list Chunk) (sims : list Sim),
    Forall (fun ch => slen embedding <= slen (chunkEmbedding ch)) chunks ->
    exists scored,
      score_chunks embedding chunks sims = Ok (sims ++ scored) /\ map chunk scored = chunks.
Proof.
  intros chunks. induction chunks as [|ch rest IH]; intros sims H.
  - exists []. rewrite app_nil_r. split; reflexivity.
  - inversion H as [|? ? Hch Hrest]; subst. cbn [score_chunks]. unfold Similarity, cosine.
    destruct (cosine_sums_within (chunkEmbedding ch) embedding 0 0%float 0%float 0%float)
      as [sums ->]; [lia | lia |]. cbn [bind].
    destruct (IH (sims ++ [mkSim ch
                (PrimFloat.div (fst (fst sums))
                   (PrimFloat.mul (PrimFloat.sqrt (snd (fst sums)))
                      (PrimFloat.sqrt (snd sums))))]) Hrest) as [scored [-> Hm]].
    eexists (_ :: scored). rewrite <- app_assoc. cbn [app]. split; [reflexivity|].
    cbn [map chunk]. now rewrite Hm.
Qed.

(** X12: when no stored embedding is shorter than the query's, and [sort.Slice]
    leaves a rearrangement of the slice it is given, [SimilarChunks] returns
    chunks of the database, none more often than the database holds it: all
    of them for K = 0, the first K of the sorted scores for K > 0 (all when
    there are fewer), none for K < 0. *)
Theorem SimilarChunks_returns (sort_Slice : list Sim -> list Sim) (g : Grokker)
  (embedding : list float) (K : Z) :
  (forall sims, Permutation (sort_Slice sims) sims) ->
  Forall (fun ch => slen embedding <= slen (chunkEmbedding ch)) (Chunks g) ->
  exists found others : list Chunk,
    SimilarChunks sort_Slice g embedding K = Ok found /\
    Permutation (found ++ others) (Chunks g) /\
    slen found =
      (if K =? 0 then slen (Chunks g) else Z.max 0 (Z.min K (slen (Chunks g)))).
Proof.
  intros Hsort Hall. unfold SimilarChunks.
  destruct (score_chunks_ok embedding (Chunks g) [] Hall) as [scored [-> Hm]].
  cbn [app bind]. unfold top_chunks.
  set (sorted := sort_Slice scored).
  set (k := Z.to_nat (if K =? 0 then slen sorted else K)).
  exists (map chunk (firstn k sorted)), (map chunk (skipn k sorted)).
  assert (List.length sorted = List.length (Chunks g)) as Hlen.
  { unfold sorted. rewrite (Permutation_length (Hsort scored)), <- Hm.
    now rewrite length_map. }
  split; [reflexivity|]. split.
  - rewrite <- map_app, List.firstn_skipn, <- Hm. apply Permutation_map. apply Hsort.
  - unfold slen. rewrite length_map, List.length_firstn, Hlen. unfold k, slen.
    rewrite Hlen. destruct (K =? 0) eqn:E; lia.
Qed.

Lemma SimilarChunks_returns_witness :
  exists found others : list Chunk,
    SimilarChunks (fun sims => sims) example_db [1%float] 2 = Ok found /\
    Permutation (found ++ others) (Chunks example_db) /\
    slen found = 2.
Proof.
  apply (SimilarChunks_returns (fun sims => sims) example_db [1%float] 2).
  - intros sims. apply Permutation_refl.
  - repeat constructor; vm_compute; discriminate.
Defined.

(** *** The context loop of [Answer] *)

Lemma Join_empty_cons (b : string) (l : list string) :
  Join (b :: l) EmptyString = b +:+ Join l EmptyString.
Proof.
  destruct l as [|b' l]; [simpl; now rewrite app_string_empty_r|].
  rewrite Join_cons by discriminate. now rewrite app_empty_l.
Qed.

Lemma Answer_context_first_crossing (maxSize : Z) :
  forall (chunks : list Chunk) (context : string),
    exists n : nat,
      (n <= List.length chunks)%nat /\
      Answer_context chunks maxSize context =
        context +:+ Join (map context_block (firstn n chunks)) EmptyString /\
      (forall m : nat, (1 <= m < n)%nat ->
         len (context +:+ Join (map context_block (firstn m chunks)) EmptyString)
           + len promptTmpl <= maxSize) /\
      ((n < List.length chunks)%nat ->
         (1 <= n)%nat /\
         maxSize < len (context +:+ Join (map context_block (firstn n chunks)) EmptyString)
                     + len promptTmpl).
Proof.
  intros chunks. induction chunks as [|ch rest IH]; intros context.
  - exists O. cbn [List.length firstn map Join Answer_context].
    split; [lia|]. split; [now rewrite app_string_empty_r|]. split; intros; lia.
  - cbn [Answer_context].
    destruct (len (context +:+ context_block ch) + len promptTmpl >? maxSize) eqn:E.
    + exists 1%nat. cbn [List.length firstn]. rewrite List.firstn_O. cbn [map Join].
      split; [lia|]. split; [reflexivity|]. split; [intros; lia|]. intros _.
      split; lia.
    + destruct (IH (context +:+ context_block ch)) as [n [Hn [Hrun [Hfit Hcross]]]].
      exists (S n). cbn [List.length firstn map]. rewrite Join_empty_cons.
      rewrite <- app_string_assoc. split; [lia|]. split; [exact Hrun|]. split.
      * intros [|m] Hm; [lia|]. cbn [firstn map]. rewrite Join_empty_cons.
        rewrite <- app_string_assoc. destruct m as [|m].
        -- rewrite List.firstn_O. cbn [map Join]. rewrite app_string_empty_r. lia.
        -- apply Hfit. lia.
      * intros Hlt. destruct (Hcross ltac:(lia)) as [_ Hc]. split; [lia | exact Hc].
Qed.

(** X13: the context [Answer] builds is the blocks of the first n ranked chunks,
    where n is the first count at which the blocks taken so far, with the
    prompt template, exceed the budget, or the number of chunks when that
    never happens: the blocks before the last one are within the budget, and
    chunks are left out only after a block that went over it. *)
Theorem Answer_context_stops_at_first_crossing (chunks : list Chunk) (maxSize : Z) :
  exists n : nat,
    (n <= List.length chunks)%nat /\
    Answer_context chunks maxSize EmptyString =
      Join (map context_block (firstn n chunks)) EmptyString /\
    (forall m : nat, (1 <= m < n)%nat ->
       len (Join (map context_block (firstn m chunks)) EmptyString) + len promptTmpl
         <= maxSize) /\
    ((n < List.length chunks)%nat ->
       (1 <= n)%nat /\
       maxSize < len (Join (map context_block (firstn n chunks)) EmptyString)
                   + len promptTmpl).
Proof.
  destruct (Answer_context_first_crossing maxSize chunks EmptyString)
    as [n [Hn [Hrun [Hfit Hcross]]]].
  exists n. split; [exact Hn|]. split; [now rewrite Hrun, app_empty_l|]. split.
  - intros m Hm. specialize (Hfit m Hm). now rewrite app_empty_l in Hfit.
  - intros Hlt. specialize (Hcross Hlt). now rewrite app_empty_l in Hcross.
Qed.

(** *** [UpdateDocument] *)

Lemma CreateEmbeddings_ok_requests (limit : Z) (c c' : Client) (texts : list string)
  (es : list Embedding) :
  CreateEmbeddings limit c texts = (Ok es, c') ->
  exists batches : list (list string),
    c' = mkClient (respond c) (sent c ++ batches) /\ concat batches = texts /\
    Forall (fun b => b <> [] /\ within_limit limit b) batches /\
    slen es = slen texts.
Proof.
  intros H. unfold CreateEmbeddings in H.
  destruct (slen texts =? 0) eqn:E0.
  - injection H as <- <-. exists []. rewrite app_nil_r, client_eta.
    destruct texts as [|t texts]; [|rewrite slen_cons in E0;
      pose proof (slen_nonneg texts); lia].
    repeat split. constructor.
  - destruct (batch_loop_requests limit (List.length texts) c [] texts [])
      as [batches [rest [Hs [Hr [Hall Hres]]]]].
    cbn [app] in Hs, Hres. change (slen (@nil string)) with 0 in Hs, Hres.
    destruct (batch_loop (List.length texts) limit c texts 0 []) as [[es0|e|p|] c0];
      cbn [fst snd] in *; try discriminate.
    unfold Assert in H. destruct (slen es0 =? slen texts) eqn:El; cbn [bind] in H;
      [|discriminate].
    injection H as <- <-. subst rest. rewrite app_nil_r in Hr.
    exists batches. split; [exact Hs|]. split; [now symmetry|]. split; [exact Hall | lia].
Qed.

(** The steps of a call of [UpdateDocument] that succeeds. *)
Lemma UpdateDocument_ok_inv (os : OS) (c : Client) (g : Grokker) (doc : Document)
  (updated : bool) (g1 : Grokker) (c1 : Client) :
  UpdateDocument os c g doc = (Ok updated, g1, c1) ->
  exists (strings news : list string) (left new : list Chunk) (embs : list Embedding),
    chunkStrings os g doc = Ok strings /\
    diff_loop strings (existing_chunks doc (Chunks g)) false [] = (updated, news, left) /\
    CreateEmbeddings (maxEmbeddingChunkLen g) c news = (Ok embs, c1) /\
    g1 = set_Chunks g (Chunks g ++ new) /\
    map Text new = news /\
    Forall (fun ch => chunkDocument ch = doc) new.
Proof.
  intros H. unfold UpdateDocument in H.
  destruct (chunkStrings os g doc) as [strings| | |] eqn:Es; try discriminate.
  destruct (diff_loop strings (existing_chunks doc (Chunks g)) false [])
    as [[u news] left] eqn:Ed.
  destruct (CreateEmbeddings (maxEmbeddingChunkLen g) c news) as [[embs| | |] c'] eqn:Ec;
    try discriminate.
  destruct (append_chunks doc news embs 0 (Chunks g)) as [chunks'| | |] eqn:Ea;
    try discriminate.
  injection H as <- <- <-.
  apply append_chunks_ok_inv in Ea. destruct Ea as [new [-> [Htexts Hdoc]]].
  exists strings, news, left, new, embs. repeat split; assumption.
Qed.

(** X14: after a call of [UpdateDocument] that succeeds, the document's chunks
    cover the file: the chunk strings of the file are, each as often as it
    occurs, among the texts of the document's chunks.  The chunks added carry
    chunk strings of the file, and the embedding service was sent the texts
    of the chunks added, each once and in that order, and nothing else. *)
Theorem UpdateDocument_covers_file (os : OS) (c : Client) (g : Grokker) (doc : Document)
  (updated : bool) (g1 : Grokker) (c1 : Client) :
  UpdateDocument os c g doc = (Ok updated, g1, c1) ->
  exists (strings stale : list string) (new : list Chunk) (batches : list (list string)),
    chunkStrings os g doc = Ok strings /\
    Chunks g1 = Chunks g ++ new /\
    Permutation (map Text (existing_chunks doc (Chunks g1))) (strings ++ stale) /\
    (forall s, In s (map Text new) -> In s strings) /\
    c1 = mkClient (respond c) (sent c ++ batches) /\
    concat batches = map Text new.
Proof.
  intros H. apply UpdateDocument_ok_inv in H.
  destruct H as [strings [news [left [new [embs [Hs [Hd [Hc [-> [Ht Hdoc]]]]]]]]]].
  apply diff_loop_split in Hd. destruct Hd as [matched [news' [Hq [Hp [Ho _]]]]].
  cbn [app] in Hq. subst news'.
  apply CreateEmbeddings_ok_requests in Hc. destruct Hc as [batches [Hc1 [Hcat _]]].
  exists strings, (map Text left), new, batches. cbn [Chunks set_Chunks].
  split; [exact Hs|]. split; [reflexivity|]. split; [|split; [|split]].
  - rewrite existing_chunks_app, (existing_chunks_own doc new Hdoc), map_app, Ht, Ho, Hp.
    rewrite <- !app_assoc. apply Permutation_app_head. apply Permutation_app_comm.
  - intros s Hin. rewrite Ht in Hin. apply (Permutation_in s (Permutation_sym Hp)).
    apply List.in_app_iff. now right.
  - exact Hc1.
  - now rewrite Ht.
Qed.

Lemma UpdateDocument_covers_file_witness :
  exists (strings stale : list string) (new : list Chunk) (batches : list (list string)),
    chunkStrings example_os sync_db doc_a = Ok strings /\
    Chunks sync_db_after = Chunks sync_db ++ new /\
    Permutation (map Text (existing_chunks doc_a (Chunks sync_db_after))) (strings ++ stale) /\
    (forall s, In s (map Text new) -> In s strings) /\
    sync_client_after = mkClient (respond length_service) (sent length_service ++ batches) /\
    concat batches = map Text new.
Proof.
  apply (UpdateDocument_covers_file example_os length_service sync_db doc_a true).
  vm_compute. reflexivity.
Defined.

Lemma filter_same {A : Type} (f : A -> bool) (b : bool) (l : list A) :
  Forall (fun a => f a = b) l -> List.filter f l = if b then l else [].
Proof.
  induction 1 as [|a l Ha Hl IH]; [now destruct b|]. cbn [List.filter].
  rewrite Ha, IH. now destruct b.
Qed.

Lemma referenced_same_document (docs : list Document) (ch1 ch2 : Chunk) :
  chunkDocument ch1 = chunkDocument ch2 -> referenced docs ch1 = referenced docs ch2.
Proof.
  intros H. induction docs as [|d docs IH]; [reflexivity|]. cbn [referenced].
  now rewrite H, IH.
Qed.

(** X15: [UpdateDocument] only appends chunks, so a GC pass after it keeps what a
    GC pass before it would keep, and the chunks added if the document is in
    the document list: chunks of a tracked document whose text is no longer
    in the file stay in the database, and the chunks added for a document
    that is not in the list are collected. *)
Theorem UpdateDocument_then_GC (os : OS) (c : Client) (g : Grokker) (doc : Document)
  (updated : bool) (g1 : Grokker) (c1 : Client) :
  UpdateDocument os c g doc = (Ok updated, g1, c1) ->
  exists new : list Chunk,
    Chunks g1 = Chunks g ++ new /\
    Chunks (GC g1) =
      Chunks (GC g) ++
      (if referenced (Documents g) (mkChunk doc EmptyString []) then new else []).
Proof.
  intros H. apply UpdateDocument_ok_inv in H.
  destruct H as [strings [news [left [new [embs [_ [_ [_ [-> [_ Hdoc]]]]]]]]]].
  exists new. split; [reflexivity|].
  unfold GC. cbn [Chunks Documents set_Chunks]. rewrite !gc_loop_filter. cbn [app].
  rewrite List.filter_app. f_equal. apply filter_same.
  eapply List.Forall_impl; [|exact Hdoc]. intros ch Hch. cbn beta in Hch.
  apply referenced_same_document. exact Hch.
Qed.

Lemma UpdateDocument_then_GC_witness :
  exists new : list Chunk,
    Chunks sync_db_after = Chunks sync_db ++ new /\
    Chunks (GC sync_db_after) =
      Chunks (GC sync_db) ++
      (if referenced (Documents sync_db) (mkChunk doc_a EmptyString []) then new else []).
Proof.
  apply (UpdateDocument_then_GC example_os length_service sync_db doc_a true
           sync_db_after sync_client_after).
  vm_compute. reflexivity.
Defined.

(** *** [AddDocument] *)

Lemma found_loop_spec (docs : list Document) (doc : Document) :
  found_loop docs doc = true <-> In (RelPath doc) (map RelPath docs).
Proof.
  induction docs as [|d docs IH]; cbn [found_loop map In].
  - split; [discriminate | intros []].
  - destruct (String.eqb (RelPath d) (RelPath doc)) eqn:E.
    + apply String.eqb_eq in E. split; [now left | reflexivity].
    + apply String.eqb_neq in E. rewrite IH. split; [now right | intros [H|H]; congruence].
Qed.

(** Whatever its outcome, [UpdateDocument] leaves the document list as it
    is and only appends chunks, none unless it succeeds. *)
Lemma UpdateDocument_effect (os : OS) (c : Client) (g : Grokker) (doc : Document) :
  exists new : list Chunk,
    snd (fst (UpdateDocument os c g doc)) = set_Chunks g (Chunks g ++ new) /\
    ((forall updated, fst (fst (UpdateDocument os c g doc)) <> Ok updated) -> new = []).
Proof.
  assert (set_Chunks g (Chunks g ++ []) = g) as Hsame
    by (rewrite app_nil_r; now destruct g).
  destruct (UpdateDocument os c g doc) as [[r g1] c1] eqn:E. cbn [fst snd].
  destruct r as [updated|e|p|].
  - apply UpdateDocument_ok_inv in E.
    destruct E as [strings [news [left [new [embs [_ [_ [_ [-> _]]]]]]]]].
    exists new. split; [reflexivity|]. intros Hu. now contradiction (Hu updated).
  - exists []. split; [|reflexivity]. rewrite Hsame. unfold UpdateDocument in E.
    destruct (chunkStrings os g doc); try congruence.
    destruct (diff_loop _ _ _ _) as [[u news] left].
    destruct (CreateEmbeddings _ _ _) as [[embs| | |] c'] ; try congruence.
    destruct (append_chunks _ _ _ _ _); congruence.
  - exists []. split; [|reflexivity]. rewrite Hsame. unfold UpdateDocument in E.
    destruct (chunkStrings os g doc); try congruence.
    destruct (diff_loop _ _ _ _) as [[u news] left].
    destruct (CreateEmbeddings _ _ _) as [[embs| | |] c'] ; try congruence.
    destruct (append_chunks _ _ _ _ _); congruence.
  - exists []. split; [|reflexivity]. rewrite Hsame. unfold UpdateDocument in E.
    destruct (chunkStrings os g doc); try congruence.
    destruct (diff_loop _ _ _ _) as [[u news] left].
    destruct (CreateEmbeddings _ _ _) as [[embs| | |] c'] ; try congruence.
    destruct (append_chunks _ _ _ _ _); congruence.
Qed.

(** A call of [UpdateDocument] right after one that succeeded, the files
    unchanged, finds every chunk string stored. *)
Lemma UpdateDocument_again (os : OS) (c : Client) (g : Grokker) (doc : Document)
  (updated : bool) (g1 : Grokker) (c1 : Client) :
  UpdateDocument os c g doc = (Ok updated, g1, c1) ->
  UpdateDocument os c1 g1 doc = (Ok false, g1, c1).
Proof.
  intros H. apply UpdateDocument_ok_inv in H.
  destruct H as [strings [news [left [new [embs [Hs [Hd [_ [-> [Ht Hdoc]]]]]]]]]].
  apply diff_loop_split in Hd. destruct Hd as [matched [news' [Hq [Hp [Ho _]]]]].
  cbn [app] in Hq. subst news'.
  unfold UpdateDocument.
  assert (chunkStrings os (set_Chunks g (Chunks g ++ new)) doc = Ok strings) as ->
    by exact Hs.
  cbn [Chunks set_Chunks maxEmbeddingChunkLen].
  rewrite existing_chunks_app, (existing_chunks_own doc new Hdoc).
  destruct (diff_loop_all_matched strings (existing_chunks doc (Chunks g) ++ new)
              (map Text left) false []) as [left2 ->].
  - rewrite map_app, Ht, Ho, Hp.
    rewrite <- !app_assoc. apply Permutation_app_head. apply Permutation_app_comm.
  - reflexivity.
Qed.

(** X16: [AddDocument] keeps the relative paths of the document list distinct:
    whatever its outcome it appends one document at most, and none when a
    document with that relative path is in the list already.  When the file
    is found and no document of the list has its relative path, the
    document is appended whatever happens next: it stays in the list when
    the call then fails.  The call removes no chunk and adds chunks only
    when it succeeds. *)
Theorem AddDocument_keeps_paths_distinct (fs : FileSystem) (c : Client) (g : Grokker)
  (path : string) :
  NoDup (map RelPath (Documents g)) ->
  NoDup (map RelPath (Documents (snd (fst (AddDocument fs c g path))))) /\
  (Documents (snd (fst (AddDocument fs c g path))) = Documents g \/
   exists absPath ModTime,
     filepath_Abs (fs_os fs) path = Ok absPath /\
     os_Stat fs (filepath_Join (fs_os fs) (Root g) (filepath_Rel fs (Root g) absPath))
       = FileInfo ModTime /\
     ~ In (filepath_Rel fs (Root g) absPath) (map RelPath (Documents g)) /\
     Documents (snd (fst (AddDocument fs c g path))) =
       Documents g ++ [mkDocument EmptyString (filepath_Rel fs (Root g) absPath)]) /\
  (forall absPath ModTime,
     filepath_Abs (fs_os fs) path = Ok absPath ->
     os_Stat fs (filepath_Join (fs_os fs) (Root g) (filepath_Rel fs (Root g) absPath))
       = FileInfo ModTime ->
     ~ In (filepath_Rel fs (Root g) absPath) (map RelPath (Documents g)) ->
     Documents (snd (fst (AddDocument fs c g path))) =
       Documents g ++ [mkDocument EmptyString (filepath_Rel fs (Root g) absPath)]) /\
  exists new : list Chunk,
    Chunks (snd (fst (AddDocument fs c g path))) = Chunks g ++ new /\
    (fst (fst (AddDocument fs c g path)) <> Ok tt -> new = []).
Proof.
  intros Hnodup. unfold AddDocument.
  destruct (filepath_Abs (fs_os fs) path) as [absPath|e|p|] eqn:Eabs; cbn [fst snd].
  2,3,4: (split; [exact Hnodup|]; split; [now left|]; split; [intros; discriminate|];
          exists []; split; [now rewrite app_nil_r | reflexivity]).
  set (doc := mkDocument EmptyString (filepath_Rel fs (Root g) absPath)).
  unfold AbsPath.
  change (RelPath doc) with (filepath_Rel fs (Root g) absPath).
  destruct (os_Stat fs (filepath_Join (fs_os fs) (Root g) (filepath_Rel fs (Root g) absPath)))
    as [mt|e|e] eqn:Estat; cbn [fst snd].
  2,3: (split; [exact Hnodup|]; split; [now left|];
        split; [intros a t Ha Ht; injection Ha as <-; rewrite Estat in Ht; discriminate|];
        exists []; split; [now rewrite app_nil_r | reflexivity]).
  set (g0 := if negb (found_loop (Documents g) doc)
             then set_Documents g (Documents g ++ [doc]) else g).
  destruct (UpdateDocument_effect (fs_os fs) c g0 doc) as [new [Hg Hnew]].
  assert (Chunks g0 = Chunks g) as Hchunks by (unfold g0; now destruct (negb _)).
  assert (snd (fst (match UpdateDocument (fs_os fs) c g0 doc with
                    | (Ok _, g', c') => (Ok tt, g', c')
                    | (Err e, g', c') => (Err e, g', c')
                    | (Panic p, g', c') => (Panic p, g', c')
                    | (OutOfFuel, g', c') => (@OutOfFuel unit, g', c')
                    end)) = set_Chunks g0 (Chunks g0 ++ new)) as Hsnd.
  { rewrite <- Hg. now destruct (UpdateDocument (fs_os fs) c g0 doc) as [[[u|e|p|] g'] c']. }
  rewrite Hsnd. cbn [Documents Chunks set_Chunks]. rewrite Hchunks.
  split; [|split; [|split]].
  - unfold g0. destruct (found_loop (Documents g) doc) eqn:Ef; cbn [negb]; [exact Hnodup|].
    cbn [Documents set_Documents]. rewrite map_app. cbn [map RelPath].
    apply NoDup_app. split; [exact Hnodup|]. split; [|apply NoDup_singleton].
    intros x Hx Hx'. apply list_elem_of_In in Hx, Hx'. destruct Hx' as [<-|[]].
    assert (found_loop (Documents g) doc = true) as Ht by (now apply found_loop_spec).
    congruence.
  - unfold g0. destruct (found_loop (Documents g) doc) eqn:Ef; cbn [negb]; [now left|].
    right. exists absPath, mt. split; [reflexivity|]. split; [exact Estat|].
    split; [|reflexivity]. intros Hin.
    assert (found_loop (Documents g) doc = true) as Ht by (now apply found_loop_spec).
    congruence.
  - intros a t Ha _ Hnot. injection Ha as <-. unfold g0.
    destruct (found_loop (Documents g) doc) eqn:Ef; cbn [negb]; [|reflexivity].
    exfalso. apply Hnot. now apply (found_loop_spec (Documents g) doc).
  - exists new. split; [reflexivity|]. intros Hne.
    destruct (UpdateDocument (fs_os fs) c g0 doc) as [[[u|e|p|] g'] c'] eqn:Eu;
      cbn [fst] in Hne, Hnew; [congruence | | |].
    + apply Hnew. discriminate.
    + apply Hnew. discriminate.
    + apply Hnew. discriminate.
Qed.

Lemma AddDocument_keeps_paths_distinct_witness :
  NoDup (map RelPath (Documents (snd (fst (AddDocument example_fs length_service
                                             example_db "a.txt"))))).
Proof.
  apply (AddDocument_keeps_paths_distinct example_fs length_service example_db "a.txt").
  unfold example_db, doc_a, doc_b. cbn [Documents map RelPath].
  constructor; [intros H; apply list_elem_of_singleton in H; discriminate H|].
  constructor; [intros H; inversion H | constructor].
Defined.

(** X17: a call of [AddDocument] that succeeds leaves the document in the list,
    and a second call right after it, the files unchanged, succeeds again,
    sends nothing to the embedding service and leaves the database as it
    is. *)
Theorem AddDocument_again (fs : FileSystem) (c : Client) (g : Grokker) (path : string)
  (g1 : Grokker) (c1 : Client) :
  AddDocument fs c g path = (Ok tt, g1, c1) ->
  AddDocument fs c1 g1 path = (Ok tt, g1, c1) /\
  exists absPath,
    filepath_Abs (fs_os fs) path = Ok absPath /\
    In (filepath_Rel fs (Root g) absPath) (map RelPath (Documents g1)).
Proof.
  intros H. unfold AddDocument in *.
  destruct (filepath_Abs (fs_os fs) path) as [absPath|e|p|] eqn:Eabs; try discriminate.
  set (doc := mkDocument EmptyString (filepath_Rel fs (Root g) absPath)) in *.
  destruct (os_Stat fs (AbsPath (fs_os fs) g doc)) as [mt|e|e] eqn:Estat; try discriminate.
  set (g0 := if negb (found_loop (Documents g) doc)
             then set_Documents g (Documents g ++ [doc]) else g) in *.
  destruct (UpdateDocument (fs_os fs) c g0 doc) as [[[u|e|p|] g'] c'] eqn:Eu;
    try discriminate.
  injection H as <- <-.
  pose proof (UpdateDocument_again _ _ _ _ _ _ _ Eu) as Hagain.
  apply UpdateDocument_ok_inv in Eu.
  destruct Eu as [strings [news [left [new [embs [_ [_ [_ [Hg' _]]]]]]]]].
  assert (Root g0 = Root g) as Hroot by (unfold g0; now destruct (negb _)).
  assert (found_loop (Documents g0) doc = true) as Hfound.
  { unfold g0. destruct (found_loop (Documents g) doc) eqn:Ef; cbn [negb]; [exact Ef|].
    cbn [Documents set_Documents]. apply found_loop_spec. rewrite map_app.
    apply List.in_app_iff. right. now left. }
  assert (Root g' = Root g) as Hroot' by (rewrite Hg'; exact Hroot).
  assert (Documents g' = Documents g0) as Hdocs by (now rewrite Hg').
  split.
  - rewrite Hroot'. fold doc.
    assert (AbsPath (fs_os fs) g' doc = AbsPath (fs_os fs) g doc) as ->
      by (unfold AbsPath; now rewrite Hroot').
    rewrite Estat, Hdocs, Hfound. cbn [negb]. now rewrite Hagain.
  - exists absPath. split; [reflexivity|]. rewrite Hdocs.
    now apply (found_loop_spec (Documents g0) doc).
Qed.

Lemma AddDocument_again_witness :
  AddDocument example_fs sync_client_after sync_db_after "a.txt" =
    (Ok tt, sync_db_after, sync_client_after) /\
  exists absPath,
    filepath_Abs (fs_os example_fs) "a.txt" = Ok absPath /\
    In (filepath_Rel example_fs (Root sync_db) absPath) (map RelPath (Documents sync_db_after)).
Proof.
  apply (AddDocument_again example_fs length_service sync_db "a.txt").
  vm_compute. reflexivity.
Defined.

(** *** [chunks]: limits below 2, and what becomes of the text *)

Lemma chunk_paragraphs_all_empty (fuel : nat) (maxLen : Z) :
  forall (paragraphs : list string) (c : list string),
    forallb (String.eqb EmptyString) paragraphs = true ->
    chunk_paragraphs fuel maxLen paragraphs c = Ok c.
Proof.
  induction paragraphs as [|p more IH]; intros c H; [reflexivity|].
  cbn [forallb] in H. apply andb_prop in H. destruct H as [Hp Hmore].
  apply String.eqb_eq in Hp. subst p. cbn [chunk_paragraphs].
  rewrite chunk_paragraph_empty. cbn [bind]. now apply IH.
Qed.

Lemma chunk_paragraph_nonpositive (fuel : nat) (maxLen : Z) (a : ascii) (p : string)
  (c : list string) :
  maxLen <= 0 -> chunk_paragraph (S fuel) maxLen (String a p) c = Panic SliceBounds.
Proof.
  intros Hm. cbn [chunk_paragraph]. remember (String a p) as q eqn:Eq.
  assert (0 < len q) as Hpos by (subst q; unfold len; simpl; lia).
  destruct (len q >? 0) eqn:E0; [|lia].
  destruct (len q >=? maxLen) eqn:E1; [|lia].
  unfold slice_to. destruct (0 <=? maxLen - 1) eqn:E2; [lia|]. reflexivity.
Qed.

Lemma chunk_paragraphs_some_nonempty (fuel : nat) (maxLen : Z) (stuck : outcome (list string)) :
  (forall a p c, chunk_paragraph fuel maxLen (String a p) c = stuck) ->
  (forall c, stuck <> Ok c) ->
  forall (paragraphs : list string) (c : list string),
    forallb (String.eqb EmptyString) paragraphs = false ->
    chunk_paragraphs fuel maxLen paragraphs c = stuck.
Proof.
  intros Hstuck Hne. induction paragraphs as [|p more IH]; intros c H; [discriminate|].
  cbn [forallb] in H. cbn [chunk_paragraphs]. destruct p as [|a p].
  - rewrite chunk_paragraph_empty. cbn [bind]. apply IH.
    now rewrite String.eqb_refl in H.
  - rewrite Hstuck. destruct stuck as [c'| | |]; try reflexivity. now contradiction (Hne c').
Qed.

(** X18: a text whose paragraphs are all empty, the empty text for one, gives no
    chunk, whatever [maxLen] is.  For any other text a [maxLen] of 0 or less
    makes [chunks] panic on the slice bounds of its first cut, and with a
    [maxLen] of 1 its loop cuts off nothing and does not end: the run is
    out of fuel whatever the fuel. *)
Theorem chunks_limits_below_two (txt : string) (maxLen : Z) :
  if forallb (String.eqb EmptyString) (Split txt blank_line)
  then forall fuel, chunks_fuel fuel txt maxLen = Ok []
  else (maxLen <= 0 -> chunks txt maxLen = Panic SliceBounds) /\
       (maxLen = 1 -> forall fuel, chunks_fuel fuel txt maxLen = OutOfFuel).
Proof.
  destruct (forallb (String.eqb EmptyString) (Split txt blank_line)) eqn:E.
  - intros fuel. unfold chunks_fuel. now apply chunk_paragraphs_all_empty.
  - split.
    + intros Hm. unfold chunks, chunks_fuel.
      apply chunk_paragraphs_some_nonempty; [|discriminate|exact E].
      intros a p c. now apply chunk_paragraph_nonpositive.
    + intros -> fuel. unfold chunks_fuel.
      apply chunk_paragraphs_some_nonempty; [|discriminate|exact E].
      intros a p c. apply chunk_paragraph_diverges.
Qed.

Lemma Join_empty_app (l1 l2 : list string) :
  Join (l1 ++ l2) EmptyString = Join l1 EmptyString +:+ Join l2 EmptyString.
Proof.
  induction l1 as [|s l1 IH]; [cbn [app Join]; now rewrite app_empty_l|].
  cbn [app]. rewrite !Join_empty_cons, IH. now rewrite app_string_assoc.
Qed.

Lemma Join_concat_sliced (k : nat) (paragraphs : list string) (pieces : list (list string)) :
  Forall2 (sliced k) paragraphs pieces ->
  Join (concat pieces) EmptyString = Join paragraphs EmptyString.
Proof.
  induction 1 as [|p ps paragraphs pieces Hs Hall IH]; [reflexivity|].
  cbn [concat]. rewrite Join_empty_app, Join_empty_cons, IH.
  now rewrite (sliced_concat k p ps Hs).
Qed.

(** X19: for [maxLen >= 2] the chunks, put end to end, are the paragraphs of the
    text put end to end: the chunker drops the blank lines between the
    paragraphs and nothing else, repeats nothing and changes no order; so
    the chunks have as many bytes together as the text has outside its
    paragraph separators. *)
Theorem chunks_keep_the_text (txt : string) (maxLen : Z) :
  2 <= maxLen ->
  exists c : list string,
    chunks txt maxLen = Ok c /\
    Join c EmptyString = Join (Split txt blank_line) EmptyString /\
    total_len c = len txt - 2 * (slen (Split txt blank_line) - 1).
Proof.
  intros Hm. destruct (chunks_returns_slicing txt maxLen Hm) as [pieces [Hrun Hall]].
  exists (concat pieces). split; [exact Hrun|].
  pose proof (Join_concat_sliced _ _ _ Hall) as Hjoin. split; [exact Hjoin|].
  assert (forall l, total_len l = len (Join l EmptyString)) as Htot.
  { induction l as [|s l IH]; [reflexivity|].
    rewrite Join_empty_cons, len_app. cbn [total_len]. now rewrite IH. }
  rewrite Htot, Hjoin.
  assert (forall l, l <> [] ->
            len (Join l blank_line) = len (Join l EmptyString) + 2 * (slen l - 1)) as Hsep.
  { induction l as [|s l IH]; [congruence|]. intros _. destruct l as [|s' l].
    - cbn [Join]. change (slen [s]) with 1. lia.
    - rewrite Join_cons by discriminate. rewrite Join_empty_cons, !len_app.
      rewrite IH by discriminate. rewrite (slen_cons s).
      change (len blank_line) with 2. lia. }
  pose proof (Join_Split txt blank_line ltac:(discriminate)) as Hsplit.
  assert (Split txt blank_line <> []) as Hne.
  { unfold Split. apply split_from_nonempty. }
  specialize (Hsep _ Hne). rewrite Hsplit in Hsep. lia.
Qed.

Lemma chunks_keep_the_text_witness :
  exists c : list string,
    chunks ("abcd" +:+ blank_line +:+ "ef") 3 = Ok c /\
    Join c EmptyString = Join (Split ("abcd" +:+ blank_line +:+ "ef") blank_line) EmptyString /\
    total_len c = len ("abcd" +:+ blank_line +:+ "ef")
                  - 2 * (slen (Split ("abcd" +:+ blank_line +:+ "ef") blank_line) - 1).
Proof. apply (chunks_keep_the_text ("abcd" +:+ blank_line +:+ "ef") 3). lia. Defined.

(** *** [New], [Save] and [Load], [ListDocuments] *)

Lemma initialised_exported (g0 : Grokker) (name : string) (m : Model) :
  initialised (exported (initialised g0 name m)) name m = initialised g0 name m.
Proof. reflexivity. Qed.

(** [Load] of the exported fields of a database that [initModel] has set up,
    for a snapshot file in the root directory of the database. *)
Lemma Load_exported (g0 : Grokker) (model : string) (g : Grokker) :
  initModel g0 model = (Ok tt, g) -> Version g0 = version ->
  Load (Ok (exported g)) (Ok (Root g)) false = Returns (Ok g).
Proof.
  intros H Hv. apply initModel_ok_inv in H. destruct H as [name [m [Hfind [Hroot ->]]]].
  pose proof (findModel_NewModels_name _ _ _ Hfind) as [Hname Hlook].
  destruct g0 as [v root docs cs ms mn om mc me]. cbn [Version Root] in Hv, Hroot. subst v.
  unfold Load, exported, initialised, set_Root.
  cbn [Version Root Documents Chunks modelName models grokOaiModel maxChunkLen
       maxEmbeddingChunkLen].
  change (String.eqb version EmptyString) with false. cbv iota.
  cbn [Version modelName]. rewrite String.eqb_refl. cbn [negb].
  match goal with
  | |- context [initModel ?g0 name] =>
      rewrite (initModel_ok g0 name name m Hroot
                 (findModel_found NewModels name m Hname Hlook))
  end.
  reflexivity.
Qed.

(** X20: a database that [New] or [Load] returns comes back as it is from a
    snapshot: [Load] of its exported fields (what [Save] encodes), for a
    snapshot file in its root directory, returns the same database, the
    fields that are not exported set up again as they were.  A database made
    by [New] has the running version, the absolute path of the directory as
    its root, and no documents or chunks. *)
Theorem Save_then_Load_restores :
  (forall (fs : FileSystem) (rootdir model : string) (g : Grokker),
     New fs rootdir model = Ok g ->
     Load (Ok (exported g)) (Ok (Root g)) false = Returns (Ok g) /\
     Version g = version /\ filepath_Abs (fs_os fs) rootdir = Ok (Root g) /\
     Documents g = [] /\ Chunks g = []) /\
  (forall (decoded : outcome Grokker) (absdir : outcome string) (g : Grokker),
     Load decoded absdir false = Returns (Ok g) ->
     Load (Ok (exported g)) (Ok (Root g)) false = Returns (Ok g)).
Proof.
  split.
  - intros fs rootdir model g H. unfold New in H.
    destruct (filepath_Abs (fs_os fs) rootdir) as [root| | |]; cbn [bind] in H;
      try discriminate.
    destruct (os_Stat fs root) as [mt|e|e]; try discriminate.
    destruct (initModel (mkGrokker version root [] [] None EmptyString EmptyString 0 0) model)
      as [[[]|e|p|] g'] eqn:Ei; try discriminate.
    injection H as <-. split; [apply (Load_exported _ _ _ Ei); reflexivity|].
    apply initModel_ok_inv in Ei. destruct Ei as [name [m [_ [_ ->]]]].
    repeat split.
  - intros decoded absdir g H. unfold Load in H.
    destruct decoded as [g0| | |]; try discriminate.
    destruct absdir as [root| | |]; try discriminate.
    cbn [negb] in H.
    set (gv := if String.eqb (Version (set_Root g0 root)) EmptyString
               then set_Version (set_Root g0 root) "0.1.0" else set_Root g0 root) in *.
    destruct (String.eqb (Version gv) version) eqn:Ev; cbn [negb] in H; [|discriminate].
    apply String.eqb_eq in Ev.
    destruct (initModel gv (modelName gv)) as [[[]|e|p|] g'] eqn:Ei; try discriminate.
    injection H as <-. apply (Load_exported _ _ _ Ei Ev).
Qed.

(** X21: on a database that [Load] returns when migration is not asked for,
    [ListDocuments] lists the relative paths of the documents, in the order
    of the document list: the version [Load] insists on is the one for which
    [ListDocuments] reads [RelPath] and not the deprecated [Path]. *)
Theorem ListDocuments_after_Load (decoded : outcome Grokker) (absdir : outcome string)
  (g : Grokker) :
  Load decoded absdir false = Returns (Ok g) ->
  ListDocuments g = map RelPath (Documents g).
Proof.
  intros H. unfold Load in H.
  destruct decoded as [g0| | |]; try discriminate.
  destruct absdir as [root| | |]; try discriminate.
  cbn [negb] in H.
  set (gv := if String.eqb (Version (set_Root g0 root)) EmptyString
             then set_Version (set_Root g0 root) "0.1.0" else set_Root g0 root) in *.
  destruct (String.eqb (Version gv) version) eqn:Ev; cbn [negb] in H; [|discriminate].
  destruct (initModel gv (modelName gv)) as [[[]|e|p|] g'] eqn:Ei; try discriminate.
  injection H as <-. apply initModel_ok_inv in Ei. destruct Ei as [name [m [_ [_ ->]]]].
  unfold ListDocuments. cbn [initialised Version Documents].
  change "1.0.0" with version. rewrite Ev. reflexivity.
Qed.

Lemma ListDocuments_after_Load_witness :
  ListDocuments loaded_db = map RelPath (Documents loaded_db).
Proof.
  apply (ListDocuments_after_Load (Ok stored_db) (Ok "/kb") loaded_db).
  vm_compute. reflexivity.
Defined.

(** *** [RefreshEmbeddings] and [UpdateEmbeddings] when no file is missing *)

Lemma set_Chunks_same (g : Grokker) : set_Chunks g (Chunks g ++ []) = g.
Proof. rewrite app_nil_r. now destruct g. Qed.

Lemma set_Chunks_twice (g : Grokker) (new1 new2 : list Chunk) :
  set_Chunks (set_Chunks g (Chunks g ++ new1)) (Chunks (set_Chunks g (Chunks g ++ new1)) ++ new2)
  = set_Chunks g (Chunks g ++ (new1 ++ new2)).
Proof. unfold set_Chunks. cbn. now rewrite app_assoc. Qed.

Lemma covered_append (os : OS) (g : Grokker) (doc : Document) (new : list Chunk) :
  covered os g doc -> covered os (set_Chunks g (Chunks g ++ new)) doc.
Proof.
  intros [strings [stale [Hs Hp]]].
  exists strings, (stale ++ map Text (existing_chunks doc new)). split; [exact Hs|].
  cbn [Chunks set_Chunks]. rewrite existing_chunks_app, map_app, Hp. now rewrite app_assoc.
Qed.

Lemma existing_chunks_filter_referenced (docs : list Document) (doc : Document) :
  In (RelPath doc) (map RelPath docs) ->
  forall chunks : list Chunk,
    existing_chunks doc (List.filter (referenced docs) chunks) = existing_chunks doc chunks.
Proof.
  intros Hin chunks. induction chunks as [|ch chunks IH]; [reflexivity|].
  cbn [List.filter existing_chunks].
  destruct (String.eqb (RelPath (chunkDocument ch)) (RelPath doc)) eqn:E.
  - pose proof E as E'. apply String.eqb_eq in E'.
    assert (referenced docs ch = true) as -> by (apply referenced_spec; now rewrite E').
    cbn [existing_chunks]. now rewrite E, IH.
  - destruct (referenced docs ch); [cbn [existing_chunks]; rewrite E|]; exact IH.
Qed.

Lemma covered_GC (os : OS) (g : Grokker) (doc : Document) :
  In (RelPath doc) (map RelPath (Documents g)) -> covered os g doc -> covered os (GC g) doc.
Proof.
  intros Hin [strings [stale [Hs Hp]]]. exists strings, stale. split; [exact Hs|].
  unfold GC. cbn [Chunks set_Chunks]. rewrite gc_loop_filter. cbn [app].
  now rewrite existing_chunks_filter_referenced.
Qed.

(** On a document whose file is covered, [UpdateDocument] finds nothing to
    do. *)
Lemma UpdateDocument_covered (os : OS) (c : Client) (g : Grokker) (doc : Document) :
  covered os g doc -> UpdateDocument os c g doc = (Ok false, g, c).
Proof.
  intros [strings [stale [Hs Hp]]]. unfold UpdateDocument. rewrite Hs.
  destruct (diff_loop_all_matched strings (existing_chunks doc (Chunks g)) stale false [] Hp)
    as [left ->].
  change (CreateEmbeddings (maxEmbeddingChunkLen g) c []) with (Ok (@nil Embedding), c).
  cbn [append_chunks]. now destruct g.
Qed.

Lemma UpdateDocument_ok_covers (os : OS) (c : Client) (g : Grokker) (doc : Document)
  (updated : bool) (g1 : Grokker) (c1 : Client) :
  UpdateDocument os c g doc = (Ok updated, g1, c1) ->
  (exists new, g1 = set_Chunks g (Chunks g ++ new)) /\ covered os g1 doc.
Proof.
  intros H. apply UpdateDocument_ok_inv in H.
  destruct H as [strings [news [left [new [embs [Hs [Hd [_ [-> [Ht Hdoc]]]]]]]]]].
  split; [now exists new|].
  apply diff_loop_split in Hd. destruct Hd as [matched [news' [Hq [Hp [Ho _]]]]].
  cbn [app] in Hq. subst news'.
  exists strings, (map Text left). split; [exact Hs|]. cbn [Chunks set_Chunks].
  rewrite existing_chunks_app, (existing_chunks_own doc new Hdoc), map_app, Ht, Ho, Hp.
  rewrite <- !app_assoc. apply Permutation_app_head. apply Permutation_app_comm.
Qed.

(** A run of the loop of [RefreshEmbeddings] that meets no missing file and
    succeeds only appends chunks, and leaves every document it visited
    covered. *)
Lemma refresh_loop_ok (fs : FileSystem) (docs : list Document) (root : string) :
  forall (n i : nat) (c : Client) (g g1 : Grokker) (c1 : Client),
    Root g = root ->
    (forall k d, (i <= k < i + n)%nat -> nth_error docs k = Some d ->
       forall e, os_Stat fs (filepath_Join (fs_os fs) root (RelPath d)) <> NotExist e) ->
    refresh_loop n fs i docs c g = (Ok tt, g1, c1) ->
    (exists new, g1 = set_Chunks g (Chunks g ++ new)) /\
    (forall d, covered (fs_os fs) g d -> covered (fs_os fs) g1 d) /\
    (forall k d, (i <= k < i + n)%nat -> nth_error docs k = Some d ->
                 covered (fs_os fs) g1 d).
Proof.
  induction n as [|n IH]; intros i c g g1 c1 Hroot Hpresent H.
  - cbn [refresh_loop] in H. injection H as <- <-.
    split; [exists []; now rewrite set_Chunks_same|]. split; [auto|]. intros k d Hk. lia.
  - cbn [refresh_loop] in H.
    destruct (nth_error docs i) as [doc|] eqn:En; [|discriminate].
    unfold AbsPath in H. rewrite Hroot in H.
    assert (exists r gc, UpdateDocument (fs_os fs) c g doc = (r, fst gc, snd gc) /\
              match r with
              | Ok _ => refresh_loop n fs (S i) docs (snd gc) (fst gc) = (Ok tt, g1, c1)
              | _ => False
              end) as [r [[g' c'] [Eu Hr]]].
    { destruct (UpdateDocument (fs_os fs) c g doc) as [[r g'] c'] eqn:Eu.
      exists r, (g', c'). split; [reflexivity|].
      destruct (os_Stat fs (filepath_Join (fs_os fs) root (RelPath doc))) as [mt|e|e] eqn:Es;
        [| now contradiction (Hpresent i doc ltac:(lia) En e) |];
        destruct r; try discriminate; exact H. }
    clear H. cbn [fst snd] in Eu, Hr. destruct r as [u| | |]; try contradiction.
    apply UpdateDocument_ok_covers in Eu. destruct Eu as [[new1 ->] Hcov].
    apply IH in Hr; [|exact Hroot|intros k d Hk; apply Hpresent; lia].
    destruct Hr as [[new2 ->] [Hkeep Hvisited]].
    split; [exists (new1 ++ new2); apply set_Chunks_twice|]. split.
    + intros d Hd. apply Hkeep. now apply covered_append.
    + intros k d Hk Hnth. destruct (Nat.eq_dec k i) as [->|Hne].
      * rewrite En in Hnth. injection Hnth as <-. now apply Hkeep.
      * apply (Hvisited k d); [lia | exact Hnth].
Qed.

(** On documents that are covered and whose files are not missing the loop
    of [RefreshEmbeddings] changes nothing and sends nothing. *)
Lemma refresh_loop_covered (fs : FileSystem) (docs : list Document) :
  forall (n i : nat) (c : Client) (g : Grokker),
    (i + n <= List.length docs)%nat ->
    (forall k d, (i <= k < i + n)%nat -> nth_error docs k = Some d ->
       covered (fs_os fs) g d /\
       forall e, os_Stat fs (AbsPath (fs_os fs) g d) <> NotExist e) ->
    refresh_loop n fs i docs c g = (Ok tt, g, c).
Proof.
  induction n as [|n IH]; intros i c g Hlen Hall; [reflexivity|].
  cbn [refresh_loop].
  destruct (nth_error docs i) as [doc|] eqn:En.
  2:{ apply nth_error_None in En. lia. }
  destruct (Hall i doc ltac:(lia) En) as [Hcov Hstat].
  rewrite (UpdateDocument_covered _ c g doc Hcov).
  assert (refresh_loop n fs (S i) docs c g = (Ok tt, g, c)) as Hrest.
  { apply IH; [lia|]. intros k d Hk. apply Hall. lia. }
  destruct (os_Stat fs (AbsPath (fs_os fs) g doc)) as [mt|e|e] eqn:Es;
    [exact Hrest | now contradiction (Hstat e) | exact Hrest].
Qed.

(** X22: when no document's file is missing, [RefreshEmbeddings] is idempotent:
    a run that succeeds leaves the document list as it was and every
    document covered by its chunks, and a second run right after it, the
    files unchanged, succeeds, sends nothing to the embedding service and
    leaves the database as it is. *)
Theorem RefreshEmbeddings_again (fs : FileSystem) (c : Client) (g : Grokker)
  (g1 : Grokker) (c1 : Client) :
  (forall doc, In doc (Documents g) ->
     forall e, os_Stat fs (AbsPath (fs_os fs) g doc) <> NotExist e) ->
  RefreshEmbeddings fs c g = (Ok tt, g1, c1) ->
  RefreshEmbeddings fs c1 g1 = (Ok tt, g1, c1) /\
  Documents g1 = Documents g /\
  forall doc, In doc (Documents g) -> covered (fs_os fs) g1 doc.
Proof.
  intros Hpresent H. unfold RefreshEmbeddings in H.
  destruct (refresh_loop (List.length (Documents g)) fs 0 (Documents g) c g)
    as [[[[]|e|p|] g'] c'] eqn:El; try discriminate.
  injection H as <- <-.
  apply (refresh_loop_ok fs (Documents g) (Root g)) in El;
    [|reflexivity|intros k d _ Hnth; exact (Hpresent d (nth_error_In _ _ Hnth))].
  destruct El as [[new ->] [_ Hvisited]].
  assert (forall doc, In doc (Documents g) ->
            covered (fs_os fs) (GC (set_Chunks g (Chunks g ++ new))) doc) as Hcov.
  { intros doc Hin. apply covered_GC; [cbn [Documents set_Chunks]; now apply in_map|].
    destruct (In_nth_error _ _ Hin) as [k Hk]. apply (Hvisited k doc); [|exact Hk].
    split; [lia|]. apply nth_error_Some. congruence. }
  split; [|split; [reflexivity | exact Hcov]].
  unfold RefreshEmbeddings.
  change (Documents (GC (set_Chunks g (Chunks g ++ new)))) with (Documents g).
  rewrite refresh_loop_covered.
  - now rewrite GC_GC.
  - lia.
  - intros k d _ Hnth. pose proof (nth_error_In _ _ Hnth) as Hin.
    split; [now apply Hcov | exact (Hpresent d Hin)].
Qed.

Lemma RefreshEmbeddings_again_witness :
  RefreshEmbeddings example_fs sync_client_after (GC (set_Documents sync_db_after [doc_a])) =
    (Ok tt, GC (set_Documents sync_db_after [doc_a]), sync_client_after).
Proof.
  apply (RefreshEmbeddings_again example_fs length_service (set_Documents sync_db [doc_a])).
  - intros doc [<-|[]] e. vm_compute. discriminate.
  - vm_compute. reflexivity.
Defined.

(** A run of the loop of [UpdateEmbeddings] in which every file is there
    and that succeeds only appends chunks, and leaves covered every document
    it visited whose file is newer than [lastUpdate]. *)
Lemma update_loop_ok (fs : FileSystem) (docs : list Document) (root : string)
  (lastUpdate : Z) :
  forall (n i : nat) (c : Client) (g : Grokker) (update update1 : bool)
         (g1 : Grokker) (c1 : Client),
    Root g = root ->
    (forall k d, (i <= k < i + n)%nat -> nth_error docs k = Some d ->
       forall e, os_Stat fs (filepath_Join (fs_os fs) root (RelPath d)) <> NotExist e) ->
    update_loop n fs lastUpdate i docs c g update = (Ok update1, g1, c1) ->
    (exists new, g1 = set_Chunks g (Chunks g ++ new)) /\
    (update = true -> update1 = true) /\
    (forall d, covered (fs_os fs) g d -> covered (fs_os fs) g1 d) /\
    (forall k d, (i <= k < i + n)%nat -> nth_error docs k = Some d ->
       exists ModTime,
         os_Stat fs (filepath_Join (fs_os fs) root (RelPath d)) = FileInfo ModTime /\
         (lastUpdate < ModTime -> covered (fs_os fs) g1 d)).
Proof.
  induction n as [|n IH]; intros i c g update update1 g1 c1 Hroot Hpresent H.
  - cbn [update_loop] in H. injection H as <- <- <-.
    split; [exists []; now rewrite set_Chunks_same|]. split; [auto|]. split; [auto|].
    intros k d Hk. lia.
  - cbn [update_loop] in H.
    destruct (nth_error docs i) as [doc|] eqn:En; [|discriminate].
    unfold AbsPath in H. rewrite Hroot in H.
    destruct (os_Stat fs (filepath_Join (fs_os fs) root (RelPath doc))) as [mt|e|e] eqn:Es;
      [| now contradiction (Hpresent i doc ltac:(lia) En e) | discriminate].
    destruct (mt >? lastUpdate) eqn:Et.
    + destruct (UpdateDocument (fs_os fs) c g doc) as [[[u| | |] g'] c'] eqn:Eu;
        try discriminate.
      apply UpdateDocument_ok_covers in Eu. destruct Eu as [[new1 ->] Hcov].
      apply IH in H; [|exact Hroot|intros k d Hk; apply Hpresent; lia].
      destruct H as [[new2 ->] [Htrue [Hkeep Hvisited]]].
      split; [exists (new1 ++ new2); apply set_Chunks_twice|].
      split; [intros ->; now apply Htrue|]. split.
      * intros d Hd. apply Hkeep. now apply covered_append.
      * intros k d Hk Hnth. destruct (Nat.eq_dec k i) as [->|Hne].
        -- rewrite En in Hnth. injection Hnth as <-. exists mt.
           split; [exact Es|]. intros _. now apply Hkeep.
        -- apply (Hvisited k d); [lia | exact Hnth].
    + apply IH in H; [|exact Hroot|intros k d Hk; apply Hpresent; lia].
      destruct H as [Hnew [Htrue [Hkeep Hvisited]]].
      split; [exact Hnew|]. split; [exact Htrue|]. split; [exact Hkeep|].
      intros k d Hk Hnth. destruct (Nat.eq_dec k i) as [->|Hne].
      * rewrite En in Hnth. injection Hnth as <-. exists mt.
        split; [exact Es|]. intros Hlt. lia.
      * apply (Hvisited k d); [lia | exact Hnth].
Qed.

(** When every file is there and each file newer than [lastUpdate] is
    covered, the loop of [UpdateEmbeddings] changes nothing and sends
    nothing. *)
Lemma update_loop_up_to_date (fs : FileSystem) (docs : list Document) (lastUpdate : Z) :
  forall (n i : nat) (c : Client) (g : Grokker) (update : bool),
    (i + n <= List.length docs)%nat ->
    (forall k d, (i <= k < i + n)%nat -> nth_error docs k = Some d ->
       exists ModTime,
         os_Stat fs (AbsPath (fs_os fs) g d) = FileInfo ModTime /\
         (lastUpdate < ModTime -> covered (fs_os fs) g d)) ->
    update_loop n fs lastUpdate i docs c g update = (Ok update, g, c).
Proof.
  induction n as [|n IH]; intros i c g update Hlen Hall; [reflexivity|].
  cbn [update_loop].
  destruct (nth_error docs i) as [doc|] eqn:En.
  2:{ apply nth_error_None in En. lia. }
  destruct (Hall i doc ltac:(lia) En) as [mt [-> Hcov]].
  assert (update_loop n fs lastUpdate (S i) docs c g update = (Ok update, g, c)) as Hrest.
  { apply IH; [lia|]. intros k d Hk. apply Hall. lia. }
  destruct (mt >? lastUpdate) eqn:Et; [|exact Hrest].
  rewrite (UpdateDocument_covered _ c g doc (Hcov ltac:(lia))).
  rewrite orb_false_r. exact Hrest.
Qed.

(** X23: when every document's file is there and each file modified after
    [lastUpdate] is covered by the document's chunks, in particular when no
    file was modified after [lastUpdate], [UpdateEmbeddings] returns false,
    sends nothing to the embedding service and only collects garbage. *)
Theorem UpdateEmbeddings_up_to_date (fs : FileSystem) (c : Client) (g : Grokker)
  (lastUpdate : Z) :
  (forall doc, In doc (Documents g) ->
     exists ModTime,
       os_Stat fs (AbsPath (fs_os fs) g doc) = FileInfo ModTime /\
       (lastUpdate < ModTime -> covered (fs_os fs) g doc)) ->
  UpdateEmbeddings fs c g lastUpdate = (Ok false, GC g, c).
Proof.
  intros Hall. unfold UpdateEmbeddings. rewrite update_loop_up_to_date; [reflexivity|lia|].
  intros k d _ Hnth. apply Hall. exact (nth_error_In _ _ Hnth).
Qed.

Lemma UpdateEmbeddings_up_to_date_witness :
  UpdateEmbeddings example_fs length_service (set_Documents sync_db [doc_a]) 5 =
    (Ok false, GC (set_Documents sync_db [doc_a]), length_service).
Proof.
  apply (UpdateEmbeddings_up_to_date example_fs length_service
           (set_Documents sync_db [doc_a]) 5).
  intros doc [<-|[]]. exists 5. split; [vm_compute; reflexivity | lia].
Defined.

(** X24: when no document's file is missing, a run of [UpdateEmbeddings] that
    succeeds leaves the document list as it was, and a second run right
    after it with the same [lastUpdate], the files unchanged, returns false,
    sends nothing to the embedding service and leaves the database as it
    is. *)
Theorem UpdateEmbeddings_again (fs : FileSystem) (c : Client) (g : Grokker)
  (lastUpdate : Z) (update : bool) (g1 : Grokker) (c1 : Client) :
  (forall doc, In doc (Documents g) ->
     forall e, os_Stat fs (AbsPath (fs_os fs) g doc) <> NotExist e) ->
  UpdateEmbeddings fs c g lastUpdate = (Ok update, g1, c1) ->
  UpdateEmbeddings fs c1 g1 lastUpdate = (Ok false, g1, c1) /\
  Documents g1 = Documents g.
Proof.
  intros Hpresent H. unfold UpdateEmbeddings in H.
  destruct (update_loop (List.length (Documents g)) fs lastUpdate 0 (Documents g) c g false)
    as [[[u|e|p|] g'] c'] eqn:El; try discriminate.
  injection H as <- <- <-.
  apply (update_loop_ok fs (Documents g) (Root g) lastUpdate) in El;
    [|reflexivity|intros k d _ Hnth; exact (Hpresent d (nth_error_In _ _ Hnth))].
  destruct El as [[new ->] [_ [_ Hvisited]]].
  split; [|reflexivity].
  unfold UpdateEmbeddings.
  change (Documents (GC (set_Chunks g (Chunks g ++ new)))) with (Documents g).
  rewrite update_loop_up_to_date.
  - now rewrite GC_GC.
  - lia.
  - intros k d _ Hnth. pose proof (nth_error_In _ _ Hnth) as Hin.
    destruct (Hvisited k d) as [mt [Hs Hcov]]; [|exact Hnth|].
    { split; [lia|]. apply nth_error_Some. congruence. }
    exists mt. split; [exact Hs|]. intros Hlt.
    apply covered_GC; [cbn [Documents set_Chunks]; now apply in_map | now apply Hcov].
Qed.

Lemma UpdateEmbeddings_again_witness :
  UpdateEmbeddings example_fs sync_client_after (GC (set_Documents sync_db_after [doc_a])) 0 =
    (Ok false, GC (set_Documents sync_db_after [doc_a]), sync_client_after).
Proof.
  apply (UpdateEmbeddings_again example_fs length_service (set_Documents sync_db [doc_a])
           0 true).
  - intros doc [<-|[]] e. vm_compute. discriminate.
  - vm_compute. reflexivity.
Defined.

(** *** [UpdateDocument] with a service that embeds every text *)

Lemma CreateEmbeddings_placeable (limit : Z) (embed : string -> Embedding) (c : Client)
  (texts : list string) :
  Forall (placeable limit) texts ->
  (forall history inputs, respond c history inputs = Data (map embed inputs)) ->
  CreateEmbeddings limit c texts =
    (Ok (map embed texts),
     mkClient (respond c) (sent c ++ greedy (List.length texts) limit texts)).
Proof.
  intros Hall Hc. unfold CreateEmbeddings. destruct (slen texts =? 0) eqn:E0.
  - destruct texts as [|t texts];
      [|rewrite slen_cons in E0; pose proof (slen_nonneg texts); lia].
    simpl. now rewrite app_nil_r, client_eta.
  - pose proof (batch_loop_greedy limit embed (List.length texts) texts [] c []
                  Hall (Nat.le_refl _) Hc) as Hrun.
    cbn [app] in Hrun. change (slen (@nil string)) with 0 in Hrun. rewrite Hrun.
    unfold Assert.
    destruct (slen (map embed texts) =? slen texts) eqn:E1; [reflexivity|].
    unfold slen in E1. rewrite length_map in E1. lia.
Qed.

(** The final loop pairs the i-th new text with the i-th embedding. *)
Lemma append_chunks_map (doc : Document) (embed : string -> Embedding) :
  forall (news : list string) (pre : list Embedding) (chunks : list Chunk),
    append_chunks doc news (pre ++ map embed news) (slen pre) chunks =
      Ok (chunks ++ map (fun text => mkChunk doc text (embed text)) news).
Proof.
  induction news as [|text more IH]; intros pre chunks; cbn [append_chunks map].
  - now rewrite app_nil_r.
  - rewrite index_app_middle. cbn [bind].
    replace (slen pre + 1) with (slen (pre ++ [embed text]))
      by (rewrite slen_app; reflexivity).
    replace (pre ++ embed text :: map embed more)
      with ((pre ++ [embed text]) ++ map embed more) by (now rewrite <- app_assoc).
    rewrite IH. now rewrite <- app_assoc.
Qed.

Lemma chunks_placeable (txt : string) (maxLen : Z) :
  2 <= maxLen ->
  exists c : list string, chunks txt maxLen = Ok c /\ Forall (placeable maxLen) c.
Proof.
  intros Hm. destruct (chunks_returns_slicing txt maxLen Hm) as [pieces [Hrun Hall]].
  exists (concat pieces). split; [exact Hrun|].
  pose proof (Forall2_sliced_lengths _ _ _ Hall) as Hlen.
  eapply List.Forall_impl; [|exact Hlen]. intros piece Hp. cbn beta in Hp.
  unfold placeable, len. lia.
Qed.

(** X25: with a length limit of 2 or more, a file that can be read and a
    service that embeds every text it is sent, [UpdateDocument] succeeds:
    what the chunker cuts is what the batcher accepts, so no assertion
    fails.  Each chunk added is a chunk string of the file stored with the
    embedding of its own text, and the texts sent are those of the chunks
    added, in order. *)
Theorem UpdateDocument_succeeds (os : OS) (c : Client) (g : Grokker) (doc : Document)
  (buf : string) (embed : string -> Embedding) :
  2 <= maxEmbeddingChunkLen g ->
  ReadFile os (AbsPath os g doc) = Ok buf ->
  (forall history inputs, respond c history inputs = Data (map embed inputs)) ->
  exists (updated : bool) (news : list string) (batches : list (list string)),
    UpdateDocument os c g doc =
      (Ok updated,
       set_Chunks g (Chunks g ++ map (fun text => mkChunk doc text (embed text)) news),
       mkClient (respond c) (sent c ++ batches)) /\
    concat batches = news /\
    (updated = true <-> news <> []) /\
    forall text, In text news -> placeable (maxEmbeddingChunkLen g) text.
Proof.
  intros Hlimit Hread Hc.
  destruct (chunks_placeable buf (maxEmbeddingChunkLen g) Hlimit) as [strings [Hs Hplace]].
  unfold UpdateDocument, chunkStrings. rewrite Hread. cbn [bind]. rewrite Hs.
  destruct (diff_loop strings (existing_chunks doc (Chunks g)) false [])
    as [[u news] left] eqn:Ed.
  apply diff_loop_split in Ed. destruct Ed as [matched [news' [Hq [Hp [_ Hu]]]]].
  cbn [app] in Hq. subst news'.
  assert (Forall (placeable (maxEmbeddingChunkLen g)) news) as Hnews.
  { apply List.Forall_forall. intros text Hin.
    apply (proj1 (List.Forall_forall _ _) Hplace).
    apply (Permutation_in text (Permutation_sym Hp)). apply List.in_app_iff. now right. }
  rewrite (CreateEmbeddings_placeable _ embed c news Hnews Hc).
  pose proof (append_chunks_map doc embed news [] (Chunks g)) as Ha.
  cbn [app] in Ha. change (slen (@nil Embedding)) with 0 in Ha. rewrite Ha.
  exists u, news, (greedy (List.length news) (maxEmbeddingChunkLen g) news).
  split; [reflexivity|]. split.
  - apply (greedy_concat _ _ _ Hnews (Nat.le_refl _)).
  - split.
    + split; [intros Hup; apply Hu in Hup; destruct Hup as [Hup|Hup];
                [discriminate | exact Hup]
             | intros Hne; apply Hu; now right].
    + intros text Hin. exact (proj1 (List.Forall_forall _ _) Hnews text Hin).
Qed.

Lemma UpdateDocument_succeeds_witness :
  exists (updated : bool) (news : list string) (batches : list (list string)),
    UpdateDocument example_os length_service sync_db doc_a =
      (Ok updated,
       set_Chunks sync_db
         (Chunks sync_db ++ map (fun text => mkChunk doc_a text (length_embedding text)) news),
       mkClient (respond length_service) (sent length_service ++ batches)) /\
    concat batches = news /\
    (updated = true <-> news <> []) /\
    forall text, In text news -> placeable (maxEmbeddingChunkLen sync_db) text.
Proof.
  apply (UpdateDocument_succeeds example_os length_service sync_db doc_a
           ("X" +:+ blank_line +:+ "Y") length_embedding).
  - vm_compute. discriminate.
  - reflexivity.
  - reflexivity.
Defined.

(** *** [AddDocument] and then [ForgetDocument] *)

Lemma referenced_found_loop (docs : list Document) (ch : Chunk) :
  referenced docs ch = found_loop docs (chunkDocument ch).
Proof.
  induction docs as [|d docs IH]; [reflexivity|]. cbn [referenced found_loop].
  now rewrite IH.
Qed.

(** X26: adding a document and then forgetting it by the same path undoes the
    addition, up to garbage collection: when no document of the list
    matches the path before the call, and [filepath.Join] of the root and the
    relative path gives back the absolute path, [ForgetDocument] after an
    [AddDocument] that succeeded restores the document list, and a GC pass
    then leaves the database that a GC pass would have left before. *)
Theorem AddDocument_then_ForgetDocument (fs : FileSystem) (c : Client) (g : Grokker)
  (path absPath : string) (g1 : Grokker) (c1 : Client) :
  filepath_Abs (fs_os fs) path = Ok absPath ->
  filepath_Join (fs_os fs) (Root g) (filepath_Rel fs (Root g) absPath) = absPath ->
  (forall d, In d (Documents g) -> ~ matches_path (fs_os fs) g path absPath d) ->
  AddDocument fs c g path = (Ok tt, g1, c1) ->
  ForgetDocument (fs_os fs) g1 path = (Ok tt, set_Documents g1 (Documents g)) /\
  GC (set_Documents g1 (Documents g)) = GC g.
Proof.
  intros Habs Hjoin Hnone H. unfold AddDocument in H. rewrite Habs in H.
  set (doc := mkDocument EmptyString (filepath_Rel fs (Root g) absPath)) in *.
  destruct (os_Stat fs (AbsPath (fs_os fs) g doc)) as [mt|e|e]; try discriminate.
  assert (found_loop (Documents g) doc = false) as Hfound.
  { destruct (found_loop (Documents g) doc) eqn:Ef; [|reflexivity]. exfalso.
    apply found_loop_spec in Ef. apply List.in_map_iff in Ef.
    destruct Ef as [d [Hd Hin]]. apply (Hnone d Hin). right.
    unfold AbsPath. rewrite Hd. exact Hjoin. }
  rewrite Hfound in H. cbn [negb] in H.
  destruct (UpdateDocument (fs_os fs) c (set_Documents g (Documents g ++ [doc])) doc)
    as [[[u|e|p|] g'] c'] eqn:Eu; try discriminate.
  injection H as <- <-.
  apply UpdateDocument_ok_inv in Eu.
  destruct Eu as [strings [news [left [new [embs [_ [_ [_ [-> [_ Hdoc]]]]]]]]]].
  cbn [Chunks set_Documents].
  split.
  - rewrite (ForgetDocument_first (fs_os fs) _ path absPath (Documents g) [] doc).
    + now rewrite app_nil_r.
    + reflexivity.
    + exact Habs.
    + right. exact Hjoin.
    + exact Hnone.
  - unfold GC. cbn [Documents Chunks set_Documents set_Chunks]. rewrite !gc_loop_filter.
    cbn [app]. rewrite List.filter_app.
    rewrite (filter_same (referenced (Documents g)) false new).
    + rewrite app_nil_r. unfold set_Chunks, set_Documents. cbn. reflexivity.
    + eapply List.Forall_impl; [|exact Hdoc]. intros ch Hch. cbn beta in Hch.
      now rewrite referenced_found_loop, Hch.
Qed.

Lemma AddDocument_then_ForgetDocument_witness :
  ForgetDocument (fs_os example_fs)
    (snd (fst (AddDocument example_fs length_service (set_Documents sync_db [doc_b]) "a.txt")))
    "a.txt"
  = (Ok tt,
     set_Documents
       (snd (fst (AddDocument example_fs length_service
                    (set_Documents sync_db [doc_b]) "a.txt")))
       (Documents (set_Documents sync_db [doc_b]))) /\
  GC (set_Documents
        (snd (fst (AddDocument example_fs length_service
                     (set_Documents sync_db [doc_b]) "a.txt")))
        (Documents (set_Documents sync_db [doc_b])))
  = GC (set_Documents sync_db [doc_b]).
Proof.
  apply (AddDocument_then_ForgetDocument example_fs length_service
           (set_Documents sync_db [doc_b]) "a.txt" "/kb/a.txt" _
           (snd (AddDocument example_fs length_service
                   (set_Documents sync_db [doc_b]) "a.txt"))).
  - reflexivity.
  - reflexivity.
  - intros d [<-|[]] [H|H]; vm_compute in H; discriminate H.
  - vm_compute. reflexivity.
Defined.

(** *** The model table of the later version *)

Lemma Internal_newModels_lookup (k : string) (m : Model) :
  Available Internal.newModels !! k = Some m ->
  Name m = k /\ active m = false /\ k <> EmptyString /\
  In (k, TokenLimit m)
     [("gpt-3.5-turbo", 4096); ("gpt-4", 8192); ("gpt-4-32k", 32768);
      ("gpt-4-turbo-preview", 128000)].
Proof.
  assert (Available Internal.newModels =
            <["gpt-3.5-turbo" := mkModel "gpt-3.5-turbo" 4096 "gpt-3.5-turbo" false]>
            (<["gpt-4" := mkModel "gpt-4" 8192 "gpt-4" false]>
            (<["gpt-4-32k" := mkModel "gpt-4-32k" 32768 "gpt-4-32k" false]>
            (<["gpt-4-turbo-preview" :=
                 mkModel "gpt-4-turbo-preview" 128000 "gpt-4-turbo-preview" false]> ∅))))
    as -> by (vm_compute; reflexivity).
  intros H.
  rewrite lookup_insert in H. destruct (decide ("gpt-3.5-turbo" = k)) as [<-|_].
  { injection H as <-. cbn. split; [reflexivity|]. split; [reflexivity|].
    split; [discriminate | tauto]. }
  rewrite lookup_insert in H. destruct (decide ("gpt-4" = k)) as [<-|_].
  { injection H as <-. cbn. split; [reflexivity|]. split; [reflexivity|].
    split; [discriminate | tauto]. }
  rewrite lookup_insert in H. destruct (decide ("gpt-4-32k" = k)) as [<-|_].
  { injection H as <-. cbn. split; [reflexivity|]. split; [reflexivity|].
    split; [discriminate | tauto]. }
  rewrite lookup_insert in H. destruct (decide ("gpt-4-turbo-preview" = k)) as [<-|_].
  { injection H as <-. cbn. split; [reflexivity|]. split; [reflexivity|].
    split; [discriminate | tauto]. }
  rewrite lookup_empty in H. discriminate.
Qed.

Lemma Internal_initModel_ok_inv (g : Internal.GrokkerInternal) (model : string)
  (g1 : Internal.GrokkerInternal) :
  Internal.initModel g model = (Ok tt, g1) ->
  exists (name : string) (m : Model),
    Internal.findModel Internal.newModels model = Ok (name, m) /\
    Internal.Root g <> EmptyString /\
    g1 = Internal.mkGrokkerInternal (Internal.Root g)
           (Some (mkModels (<[name := set_active m true]> (Available Internal.newModels))))
           name (oaiModel m) (TokenLimit m) 8192.
Proof.
  unfold Internal.initModel, Assert.
  destruct (String.eqb (Internal.Root g) EmptyString) eqn:E; cbn [negb]; [discriminate|].
  apply String.eqb_neq in E.
  destruct (Internal.findModel Internal.newModels model) as [[name m]| | |];
    try discriminate.
  intros H. injection H as <-. exists name, m. repeat split. exact E.
Qed.

Lemma Internal_initModel_ok (g : Internal.GrokkerInternal) (model name : string) (m : Model) :
  Internal.Root g <> EmptyString ->
  Internal.findModel Internal.newModels model = Ok (name, m) ->
  Internal.initModel g model =
    (Ok tt,
     Internal.mkGrokkerInternal (Internal.Root g)
       (Some (mkModels (<[name := set_active m true]> (Available Internal.newModels))))
       name (oaiModel m) (TokenLimit m) 8192).
Proof.
  intros Hroot Hm. unfold Internal.initModel, Assert.
  destruct (String.eqb (Internal.Root g) EmptyString) eqn:E;
    [apply String.eqb_eq in E; congruence|].
  cbn [negb]. now rewrite Hm.
Qed.

Lemma Internal_findModel_inv (model name : string) (m : Model) :
  Internal.findModel Internal.newModels model = Ok (name, m) ->
  name = (if String.eqb model EmptyString then "gpt-4" else model) /\
  Available Internal.newModels !! name = Some m.
Proof.
  unfold Internal.findModel. change Internal.DefaultModel with "gpt-4".
  destruct (Available Internal.newModels
              !! (if String.eqb model EmptyString then "gpt-4" else model)) eqn:E;
    [|discriminate].
  intros H. injection H as <- <-. split; [reflexivity | exact E].
Qed.

Lemma Internal_findModel_found (ms : Models) (name : string) (m : Model) :
  name <> EmptyString -> Available ms !! name = Some m ->
  Internal.findModel ms name = Ok (name, m).
Proof.
  intros Hne H. unfold Internal.findModel.
  destruct (String.eqb name EmptyString) eqn:E; [apply String.eqb_eq in E; congruence|].
  now rewrite H.
Qed.

(** X27: the later version's [initModel] is idempotent, as its comment asks: on
    a database it has set up, a second call for the same model, or for the
    model the database names, changes nothing.  A call that succeeds keeps
    the root, sets the embedding token limit to 8192 and the token limit to
    the one of the model, which is the model asked for, gpt-4 for the empty
    name, and one of the four of the table; [getModel] then finds that
    model, marked active. *)
Theorem Internal_initModel_idempotent (g : Internal.GrokkerInternal) (model : string)
  (g1 : Internal.GrokkerInternal) :
  Internal.initModel g model = (Ok tt, g1) ->
  Internal.initModel g1 model = (Ok tt, g1) /\
  Internal.initModel g1 (Internal.modelName g1) = (Ok tt, g1) /\
  Internal.Root g1 = Internal.Root g /\
  Internal.embeddingTokenLimit g1 = 8192 /\
  Internal.modelName g1 = (if String.eqb model EmptyString then "gpt-4" else model) /\
  In (Internal.modelName g1, Internal.tokenLimit g1)
     [("gpt-3.5-turbo", 4096); ("gpt-4", 8192); ("gpt-4-32k", 32768);
      ("gpt-4-turbo-preview", 128000)] /\
  exists m : Model,
    Internal.getModel g1 = Ok (Internal.modelName g1, m) /\
    active m = true /\ TokenLimit m = Internal.tokenLimit g1.
Proof.
  intros H. apply Internal_initModel_ok_inv in H.
  destruct H as [name [m [Hfind [Hroot ->]]]].
  pose proof (Internal_findModel_inv _ _ _ Hfind) as [Hkey Hlook].
  pose proof (Internal_newModels_lookup name m Hlook) as [_ [_ [Hne Htab]]].
  pose proof (Internal_findModel_found Internal.newModels name m Hne Hlook) as Hname.
  match goal with
  | |- Internal.initModel ?G _ = _ /\ _ =>
      pose proof (Internal_initModel_ok G model name m Hroot Hfind) as H1;
      pose proof (Internal_initModel_ok G name name m Hroot Hname) as H2
  end.
  cbn [Internal.Root] in H1, H2.
  split; [|split; [|split; [|split; [|split; [|split]]]]].
  - exact H1.
  - exact H2.
  - reflexivity.
  - reflexivity.
  - exact Hkey.
  - exact Htab.
  - exists (set_active m true). split; [|split; reflexivity].
    unfold Internal.getModel. cbn [Internal.models Internal.modelName].
    apply Internal_findModel_found; [exact Hne|].
    cbn [Available]. apply lookup_insert_eq.
Qed.

Lemma Internal_initModel_idempotent_witness :
  Internal.initModel
    (snd (Internal.initModel
            (Internal.mkGrokkerInternal "/kb" None EmptyString EmptyString 0 0) EmptyString))
    EmptyString
  = (Ok tt,
     snd (Internal.initModel
            (Internal.mkGrokkerInternal "/kb" None EmptyString EmptyString 0 0) EmptyString)).
Proof.
  apply (Internal_initModel_idempotent
           (Internal.mkGrokkerInternal "/kb" None EmptyString EmptyString 0 0) EmptyString).
  vm_compute. reflexivity.
Defined.

(** *** The refresh loops when one file is missing *)

(** After the removal of the document at index [j], what the loop reads
    from index [j + 1] on are documents that came after it. *)
Lemma after_forget_reads (before after : list Document) (D : Document) (g' : Grokker) :
  Documents g' = before ++ after ->
  forall k d, (S (List.length before) <= k)%nat ->
    nth_error (after_forget (before ++ D :: after) g') k = Some d -> In d after.
Proof.
  intros Hdocs k d Hk Hnth. unfold after_forget in Hnth. rewrite Hdocs in Hnth.
  destruct after as [|a after'].
  - exfalso.
    assert (nth_error ((before ++ []) ++
                       skipn (List.length (before ++ [])) (before ++ [D])) k = None) as Hnone.
    { apply nth_error_None.
      rewrite !length_app, List.length_skipn, !length_app. cbn [List.length]. lia. }
    congruence.
  - rewrite <- app_assoc in Hnth. rewrite nth_error_app2 in Hnth by lia.
    apply nth_error_In in Hnth. apply List.in_app_iff in Hnth.
    destruct Hnth as [Hin|Hin]; [exact Hin|].
    rewrite length_app, List.skipn_app, List.skipn_all2 in Hin by lia.
    replace (List.length before + List.length (a :: after') - List.length before)%nat
      with (S (List.length after')) in Hin by (cbn [List.length]; lia).
    cbn [app skipn] in Hin.
    rewrite <- (List.firstn_skipn (List.length after') (a :: after')).
    apply List.in_app_iff. now right.
Qed.

Lemma GC_leaves_referenced (g : Grokker) :
  Forall (fun ch => In (RelPath (chunkDocument ch)) (map RelPath (Documents g)))
         (Chunks (GC g)).
Proof.
  unfold GC. cbn [Chunks set_Chunks]. rewrite gc_loop_filter. cbn [app].
  apply List.Forall_forall. intros ch Hin. apply List.filter_In in Hin.
  destruct Hin as [_ Hin]. now apply referenced_spec.
Qed.

Section OneMissing.

Variables (fs : FileSystem) (root : string) (before after : list Document) (D : Document).
Variable (e : error).

Hypothesis D_missing :
  os_Stat fs (filepath_Join (fs_os fs) root (RelPath D)) = NotExist e.
Hypothesis others_present :
  forall d, In d (before ++ after) ->
    forall e', os_Stat fs (filepath_Join (fs_os fs) root (RelPath d)) <> NotExist e'.

(** The loop of [RefreshEmbeddings] up to and after the one removal. *)
Lemma refresh_loop_one_missing (abs : string) :
  filepath_Abs (fs_os fs) (RelPath D) = Ok abs ->
  (forall d, In d before ->
     RelPath d <> RelPath D /\ filepath_Join (fs_os fs) root (RelPath d) <> abs) ->
  forall (n i : nat) (c : Client) (g g1 : Grokker) (c1 : Client),
    Root g = root -> Documents g = before ++ D :: after ->
    (i + n = List.length before)%nat ->
    refresh_loop (n + S (List.length after)) fs i (before ++ D :: after) c g = (Ok tt, g1, c1) ->
    Documents g1 = before ++ after.
Proof.
  intros Habs Hbefore. induction n as [|n IH]; intros i c g g1 c1 Hroot Hdocs Hi H.
  - cbn [Nat.add refresh_loop] in H.
    replace i with (List.length before) in H by lia.
    rewrite nth_error_app2 in H by lia. rewrite Nat.sub_diag in H. cbn [nth_error] in H.
    unfold AbsPath in H. rewrite Hroot, D_missing in H.
    rewrite (ForgetDocument_first (fs_os fs) g (RelPath D) abs before after D Hdocs Habs)
      in H.
    + cbn [snd] in H.
      apply (refresh_loop_ok fs _ root) in H.
      * destruct H as [[new ->] _]. reflexivity.
      * exact Hroot.
      * intros k d Hk Hnth. apply others_present. apply List.in_app_iff. right.
        apply (after_forget_reads before after D (set_Documents g (before ++ after))
                 eq_refl k d); [lia | exact Hnth].
    + left. reflexivity.
    + intros d Hd [Hm|Hm]; destruct (Hbefore d Hd) as [H1 H2]; [congruence|].
      unfold AbsPath in Hm. rewrite Hroot in Hm. congruence.
  - cbn [Nat.add refresh_loop] in H.
    assert (i < List.length before)%nat as Hlt by lia.
    destruct (nth_error (before ++ D :: after) i) as [doc|] eqn:En; [|discriminate].
    rewrite nth_error_app1 in En by exact Hlt.
    pose proof (nth_error_In _ _ En) as Hin.
    unfold AbsPath in H. rewrite Hroot in H.
    assert (exists r gc, UpdateDocument (fs_os fs) c g doc = (r, fst gc, snd gc) /\
              match r with
              | Ok _ => refresh_loop (n + S (List.length after)) fs (S i)
                          (before ++ D :: after) (snd gc) (fst gc) = (Ok tt, g1, c1)
              | _ => False
              end) as [r [[g' c'] [Eu Hr]]].
    { destruct (UpdateDocument (fs_os fs) c g doc) as [[r g'] c'] eqn:Eu.
      exists r, (g', c'). split; [reflexivity|].
      destruct (os_Stat fs (filepath_Join (fs_os fs) root (RelPath doc))) as [mt|e'|e'] eqn:Es;
        [| exfalso; apply (others_present doc) with (e' := e');
           [apply List.in_app_iff; now left | exact Es] |];
        destruct r; try discriminate; exact H. }
    clear H. cbn [fst snd] in Eu, Hr. destruct r as [u| | |]; try contradiction.
    apply UpdateDocument_ok_covers in Eu. destruct Eu as [[new1 ->] _].
    apply IH in Hr; [exact Hr | exact Hroot | exact Hdocs | lia].
Qed.

(** The loop of [UpdateEmbeddings] up to and after the one removal. *)
Lemma update_loop_one_missing (lastUpdate : Z) (abs : string) :
  filepath_Abs (fs_os fs) (filepath_Join (fs_os fs) root (RelPath D)) = Ok abs ->
  RelPath D = filepath_Join (fs_os fs) root (RelPath D) \/
  filepath_Join (fs_os fs) root (RelPath D) = abs ->
  (forall d, In d before ->
     RelPath d <> filepath_Join (fs_os fs) root (RelPath D) /\
     filepath_Join (fs_os fs) root (RelPath d) <> abs) ->
  forall (n i : nat) (c : Client) (g : Grokker) (update update1 : bool)
         (g1 : Grokker) (c1 : Client),
    Root g = root -> Documents g = before ++ D :: after ->
    (i + n = List.length before)%nat ->
    update_loop (n + S (List.length after)) fs lastUpdate i (before ++ D :: after) c g update
      = (Ok update1, g1, c1) ->
    Documents g1 = before ++ after /\ update1 = true.
Proof.
  intros Habs HD Hbefore.
  induction n as [|n IH]; intros i c g update update1 g1 c1 Hroot Hdocs Hi H.
  - cbn [Nat.add update_loop] in H.
    replace i with (List.length before) in H by lia.
    rewrite nth_error_app2 in H by lia. rewrite Nat.sub_diag in H. cbn [nth_error] in H.
    unfold AbsPath in H. rewrite Hroot, D_missing in H.
    rewrite (ForgetDocument_first (fs_os fs) g _ abs before after D Hdocs Habs) in H.
    + cbn [snd] in H.
      apply (update_loop_ok fs _ root) in H.
      * destruct H as [[new ->] [Htrue _]]. split; [reflexivity | now apply Htrue].
      * exact Hroot.
      * intros k d Hk Hnth. apply others_present. apply List.in_app_iff. right.
        apply (after_forget_reads before after D (set_Documents g (before ++ after))
                 eq_refl k d); [lia | exact Hnth].
    + unfold matches_path, AbsPath. rewrite Hroot. exact HD.
    + intros d Hd [Hm|Hm]; destruct (Hbefore d Hd) as [H1 H2]; [congruence|].
      unfold AbsPath in Hm. rewrite Hroot in Hm. congruence.
  - cbn [Nat.add update_loop] in H.
    assert (i < List.length before)%nat as Hlt by lia.
    destruct (nth_error (before ++ D :: after) i) as [doc|] eqn:En; [|discriminate].
    rewrite nth_error_app1 in En by exact Hlt.
    pose proof (nth_error_In _ _ En) as Hin.
    unfold AbsPath in H. rewrite Hroot in H.
    destruct (os_Stat fs (filepath_Join (fs_os fs) root (RelPath doc))) as [mt|e'|e'] eqn:Es;
      [| exfalso; apply (others_present doc) with (e' := e');
         [apply List.in_app_iff; now left | exact Es] | discriminate].
    destruct (mt >? lastUpdate).
    + destruct (UpdateDocument (fs_os fs) c g doc) as [[[u| | |] g'] c'] eqn:Eu;
        try discriminate.
      apply UpdateDocument_ok_covers in Eu. destruct Eu as [[new1 ->] _].
      apply IH in H; [exact H | exact Hroot | exact Hdocs | lia].
    + apply IH in H; [exact H | exact Hroot | exact Hdocs | lia].
Qed.

End OneMissing.

(** X28: when the file of one document is missing, and only that one's,
    [RefreshEmbeddings] forgets that document: if [filepath.Abs] of its
    relative path succeeds and no document before it in the list matches
    that path or its absolute form, a run that succeeds leaves the list
    without the document, the others in their order, and no chunk whose
    document is not in the list. *)
Theorem RefreshEmbeddings_forgets_missing (fs : FileSystem) (c : Client) (g : Grokker)
  (before after : list Document) (D : Document) (e : error) (abs : string)
  (g1 : Grokker) (c1 : Client) :
  Documents g = before ++ D :: after ->
  os_Stat fs (AbsPath (fs_os fs) g D) = NotExist e ->
  (forall d, In d (before ++ after) ->
     forall e', os_Stat fs (AbsPath (fs_os fs) g d) <> NotExist e') ->
  filepath_Abs (fs_os fs) (RelPath D) = Ok abs ->
  (forall d, In d before -> ~ matches_path (fs_os fs) g (RelPath D) abs d) ->
  RefreshEmbeddings fs c g = (Ok tt, g1, c1) ->
  Documents g1 = before ++ after /\
  Forall (fun ch => In (RelPath (chunkDocument ch)) (map RelPath (before ++ after)))
         (Chunks g1).
Proof.
  intros Hdocs HD Hothers Habs Hbefore H. unfold RefreshEmbeddings in H.
  rewrite Hdocs in H.
  destruct (refresh_loop (List.length (before ++ D :: after)) fs 0 (before ++ D :: after) c g)
    as [[[[]|e0|p|] g'] c'] eqn:El; try discriminate.
  injection H as <- <-.
  replace (List.length (before ++ D :: after))
    with (List.length before + S (List.length after))%nat in El
    by (rewrite length_app; reflexivity).
  apply (refresh_loop_one_missing fs (Root g) before after D e HD Hothers abs Habs) in El;
    [|intros d Hd; split; intros Hm; apply (Hbefore d Hd); [now left | now right]
     |reflexivity|exact Hdocs|lia].
  split; [exact El|]. rewrite <- El. apply GC_leaves_referenced.
Qed.

Lemma RefreshEmbeddings_forgets_missing_witness :
  Documents (snd (fst (RefreshEmbeddings example_fs length_service sync_db)))
    = [doc_a] ++ [] /\
  Forall (fun ch => In (RelPath (chunkDocument ch)) (map RelPath ([doc_a] ++ [])))
         (Chunks (snd (fst (RefreshEmbeddings example_fs length_service sync_db)))).
Proof.
  apply (RefreshEmbeddings_forgets_missing example_fs length_service sync_db
           [doc_a] [] doc_b (IOError "no such file or directory") "/kb/b.txt"
           (snd (fst (RefreshEmbeddings example_fs length_service sync_db)))
           (snd (RefreshEmbeddings example_fs length_service sync_db))).
  - reflexivity.
  - vm_compute. reflexivity.
  - intros d [<-|[]] e'. vm_compute. discriminate.
  - reflexivity.
  - intros d [<-|[]] [H|H]; vm_compute in H; discriminate H.
  - vm_compute. reflexivity.
Defined.

(** X29: when the file of one document is missing, and only that one's,
    [UpdateEmbeddings] forgets that document and returns true: if
    [filepath.Abs] of its absolute path succeeds and gives a path the
    document matches and no document before it in the list matches, a run
    that succeeds leaves the list without the document, the others in their
    order, and no chunk whose document is not in the list. *)
Theorem UpdateEmbeddings_forgets_missing (fs : FileSystem) (c : Client) (g : Grokker)
  (lastUpdate : Z) (before after : list Document) (D : Document) (e : error) (abs : string)
  (update : bool) (g1 : Grokker) (c1 : Client) :
  Documents g = before ++ D :: after ->
  os_Stat fs (AbsPath (fs_os fs) g D) = NotExist e ->
  (forall d, In d (before ++ after) ->
     forall e', os_Stat fs (AbsPath (fs_os fs) g d) <> NotExist e') ->
  filepath_Abs (fs_os fs) (AbsPath (fs_os fs) g D) = Ok abs ->
  matches_path (fs_os fs) g (AbsPath (fs_os fs) g D) abs D ->
  (forall d, In d before -> ~ matches_path (fs_os fs) g (AbsPath (fs_os fs) g D) abs d) ->
  UpdateEmbeddings fs c g lastUpdate = (Ok update, g1, c1) ->
  update = true /\
  Documents g1 = before ++ after /\
  Forall (fun ch => In (RelPath (chunkDocument ch)) (map RelPath (before ++ after)))
         (Chunks g1).
Proof.
  intros Hdocs HD Hothers Habs Hmatch Hbefore H. unfold UpdateEmbeddings in H.
  rewrite Hdocs in H.
  destruct (update_loop (List.length (before ++ D :: after)) fs lastUpdate 0
              (before ++ D :: after) c g false)
    as [[[u|e0|p|] g'] c'] eqn:El; try discriminate.
  injection H as <- <- <-.
  replace (List.length (before ++ D :: after))
    with (List.length before + S (List.length after))%nat in El
    by (rewrite length_app; reflexivity).
  apply (update_loop_one_missing fs (Root g) before after D e HD Hothers lastUpdate abs Habs)
    in El;
    [|exact Hmatch
     |intros d Hd; split; intros Hm; apply (Hbefore d Hd); [now left | now right]
     |reflexivity|exact Hdocs|lia].
  destruct El as [El ->]. split; [reflexivity|]. split; [exact El|].
  rewrite <- El. apply GC_leaves_referenced.
Qed.

Lemma UpdateEmbeddings_forgets_missing_witness :
  true = true /\
  Documents (snd (fst (UpdateEmbeddings abs_fs length_service sync_db 0)))
    = [doc_a] ++ [] /\
  Forall (fun ch => In (RelPath (chunkDocument ch)) (map RelPath ([doc_a] ++ [])))
         (Chunks (snd (fst (UpdateEmbeddings abs_fs length_service sync_db 0)))).
Proof.
  apply (UpdateEmbeddings_forgets_missing abs_fs length_service sync_db 0
           [doc_a] [] doc_b (IOError "no such file or directory") "/kb/b.txt" true
           (snd (fst (UpdateEmbeddings abs_fs length_service sync_db 0)))
           (snd (UpdateEmbeddings abs_fs length_service sync_db 0))).
  - reflexivity.
  - vm_compute. reflexivity.
  - intros d [<-|[]] e'. vm_compute. discriminate.
  - reflexivity.
  - right. reflexivity.
  - intros d [<-|[]] [H|H]; vm_compute in H; discriminate H.
  - vm_compute. reflexivity.
Defined.

(** The range loop and the removal in place, on three documents of which
    the files of the first two are missing: [a.txt] is removed, the array
    behind the loop then reads [b.txt], [c.txt], [c.txt], so that the loop
    goes on with [c.txt] twice and does not look at [b.txt], which stays in
    the list. *)
Example RefreshEmbeddings_after_a_removal :
  RefreshEmbeddings
    (mkFileSystem
       (mkOS (filepath_Abs example_os) (filepath_Join example_os)
             (fun path => if String.eqb path "/kb/c.txt" then Ok "C1"
                          else Err (IOError "no such file")))
       (fun basepath targpath => str_drop (String.length basepath + 1) targpath)
       (fun path => if String.eqb path "/kb/c.txt" then FileInfo 5
                    else NotExist (IOError "no such file or directory")))
    length_service
    (mkGrokker version "/kb"
       [doc_a; doc_b; mkDocument EmptyString "c.txt"]
       [mkChunk (mkDocument EmptyString "c.txt") "C1" [1%float]]
       None EmptyString EmptyString 0 10)
  = (Ok tt,
     mkGrokker version "/kb"
       [doc_b; mkDocument EmptyString "c.txt"]
       [mkChunk (mkDocument EmptyString "c.txt") "C1" [1%float]]
       None EmptyString EmptyString 0 10,
     length_service).
Proof. vm_compute. reflexivity. Qed.
